(** * SketchRNN data loading utilities: a shallow embedding

    The module [magenta/models/sketch_rnn/utils.py] converts between the
    stroke-3 and stroke-5 encodings of a sketch, filters and sorts a corpus,
    augments sketches by dropping points, and builds the stroke-wise
    mini-batches of the InkRNN protocol.

    Numbers.  The arrays of the source hold floating-point numbers.  They are
    modelled as exact rationals ([Q]): every value that the functions below
    copy, compare with 0 or 1, add, clamp or scale is a rational, and the
    rounding of the arithmetic of double precision is outside the model;
    where a statement depends on sums, products or quotients its text says
    that it is one of exact numbers.  Two places are modelled with their
    rounding.  [preprocess] stores the corpus in single precision: the cast
    is [binary32], the rounding to the nearest number of 24 bits.  [slerp],
    whose behaviour at a zero angle is a matter of IEEE-754 arithmetic, is
    modelled on the kernel's binary64 numbers, with the functions of the
    library as parameters.  The rationals have no infinity and no NaN: where
    the source would store one (a cast beyond the range of single precision,
    a division by a zero [scale_factor]) the value of the model has no
    meaning, and no statement reads it.

    Arrays.  A two-dimensional array is a list of rows, a row of a stroke-3
    array is a [Point3], a row of a stroke-5 array a [Point5].  A slice
    assignment of the source is one list operation here, in the order of the
    source.

    Exceptions.  A function that can raise returns a [res]. *)

From Stdlib Require Import QArith Qminmax Qabs.
From Stdlib Require Import PrimFloat FloatOps FloatAxioms SpecFloat.
From stdpp Require Import base tactics option list sorting.

(** ** Exceptions *)

Inductive exn : Set :=
| AssertionError
| IndexError
| ValueError
| ZeroDivisionError
| NotImplementedError.

Inductive res (A : Type) : Type :=
| Ok (a : A)
| Raise (e : exn).
Arguments Ok {A} a.
Arguments Raise {A} e.

#[global] Instance res_ret : MRet res := @Ok.
#[global] Instance res_bind : MBind res := λ A B f m,
  match m with
  | Ok a => f a
  | Raise e => Raise e
  end.

(** [xs[i]] on a Python list, for a non-negative [i]. *)
Definition py_index {A} (xs : list A) (i : nat) : res A :=
  match xs !! i with
  | Some x => Ok x
  | None => Raise IndexError
  end.

(** [max(xs)] on a Python list of integers. *)
Definition py_max (xs : list nat) : res nat :=
  match xs with
  | [] => Raise ValueError
  | x :: xs => Ok (foldl Nat.max x xs)
  end.

(** [for x in xs: s = body(x, s)], where the body can raise. *)
Fixpoint for_each {A S} (body : A → S → res S) (xs : list A) (s : S) : res S :=
  match xs with
  | [] => Ok s
  | x :: xs => s' ← body x s; for_each body xs s'
  end.

(** ** Points and arrays *)

(** A row of a stroke-3 array: x-offset, y-offset, pen lift. *)
Record Point3 : Set := mk3 { x3 : Q; y3 : Q; pen : Q }.

(** A row of a stroke-5 array: x-offset, y-offset, p_1 (pen down),
    p_2 (pen up), p_3 (end of sketch). *)
Record Point5 : Set := mk5 { x5 : Q; y5 : Q; p1 : Q; p2 : Q; p3 : Q }.

Definition zero3 : Point3 := mk3 0 0 0.
Definition zero5 : Point5 := mk5 0 0 0 0 0.

#[global] Instance Point3_inhabited : Inhabited Point3 := populate zero3.
#[global] Instance Point5_inhabited : Inhabited Point5 := populate zero5.

(** Column writes on one row. *)
Definition set_xy3 (r : Point3) (x y : Q) : Point3 := mk3 x y (pen r).
Definition set_pen (r : Point3) (v : Q) : Point3 := mk3 (x3 r) (y3 r) v.
Definition set_xy (r : Point5) (x y : Q) : Point5 := mk5 x y (p1 r) (p2 r) (p3 r).
Definition set_p1 (r : Point5) (v : Q) : Point5 := mk5 (x5 r) (y5 r) v (p2 r) (p3 r).
Definition set_p2 (r : Point5) (v : Q) : Point5 := mk5 (x5 r) (y5 r) (p1 r) v (p3 r).
Definition set_p3 (r : Point5) (v : Q) : Point5 := mk5 (x5 r) (y5 r) (p1 r) (p2 r) v.

(** [np.zeros((n, 3))] and [np.zeros((n, 5))]. *)
Definition np_zeros3 (n : nat) : list Point3 := replicate n zero3.
Definition np_zeros5 (n : nat) : list Point5 := replicate n zero5.

(** [dst[0:l, cols] = src[:, cols]] with [l = len(src)]: row [k] of [src] is
    written into row [k] of [dst] by [f]; the rows from [l] on are kept.  The
    source makes this assignment only after checking that [dst] has at least
    [l] rows, so the two shapes agree. *)
Definition assign_rows {A B} (f : A → B → A) (src : list B) (dst : list A) : list A :=
  zip_with f (take (length src) dst) src ++ drop (length src) dst.

(** [dst[0:l, col] = g(dst[0:l])]. *)
Definition upd_upto {A} (l : nat) (f : A → A) (dst : list A) : list A :=
  (f <$> take l dst) ++ drop l dst.

(** [dst[l:, col] = v]. *)
Definition upd_from {A} (l : nat) (f : A → A) (dst : list A) : list A :=
  take l dst ++ (f <$> drop l dst).

(** [dst[1:, :] = dst[:-1, :]]: every row moves one step to the right, the
    last one is lost and row 0 keeps its value. *)
Definition shift_right {A} (dst : list A) : list A :=
  take 1 dst ++ take (length dst - 1) dst.

(** Comparisons of the source on numbers. *)
Definition Qltb (x y : Q) : bool := negb (Qle_bool y x).

(** ** Spherical interpolation *)

(** [slerp] works on one-dimensional arrays of binary64 numbers.  [np.arccos]
    and [np.sin] are functions of the platform's mathematical library; the sum
    of products that [np.dot] returns and [np.linalg.norm] come from its
    linear-algebra library, which is free in the order of its additions and in
    fusing them with the products.  All four are parameters of the model
    ([np_dot_sum] is [np.dot] on two arrays of one length).  Under the default
    error state of [numpy] a floating-point division by zero warns and yields
    an infinity or a NaN; it raises nothing.  What raises is [np.dot] on
    arrays of different lengths. *)
Section Slerp.
Variables np_arccos np_sin : float → float.
Variable np_dot_sum : list float → list float → float.
Variable np_linalg_norm : list float → float.

(** [c * a] and [a / c] for an array [a] and a number [c]; [a + b]. *)
Definition np_scale (c : float) (a : list float) : list float := (λ x, c * x)%float <$> a.
Definition np_div (a : list float) (c : float) : list float := (λ x, x / c)%float <$> a.
Definition np_add (a b : list float) : list float := zip_with PrimFloat.add a b.

Definition np_dot (a b : list float) : res float :=
  if decide (length a = length b) then Ok (np_dot_sum a b) else Raise ValueError.

Definition slerp (p0 p1 : list float) (t : float) : res (list float) :=
  d ← np_dot (np_div p0 (np_linalg_norm p0)) (np_div p1 (np_linalg_norm p1));
  let omega := np_arccos d in
  let so := np_sin omega in
  Ok (np_add (np_scale (np_sin ((1 - t) * omega) / so)%float p0)
             (np_scale (np_sin (t * omega) / so)%float p1)).

End Slerp.

(** ** Format converters *)

(** [to_normal_strokes(big_stroke)].  [first_end i rows] is the loop that
    looks for the first row whose end-of-sketch channel is positive: it gives
    the index of that row, and 0 (the initial value of [l]) when there is
    none. *)
Fixpoint first_end (i : nat) (rows : list Point5) : nat :=
  match rows with
  | [] => 0
  | r :: rows => if Qltb 0 (p3 r) then i else first_end (S i) rows
  end.

Definition to_normal_strokes (big_stroke : list Point5) : list Point3 :=
  let l := first_end 0 big_stroke in
  let l := if decide (l = 0) then length big_stroke else l in
  let result := np_zeros3 l in
  let result := assign_rows (λ r b, set_xy3 r (x5 b) (y5 b)) (take l big_stroke) result in
  let result := assign_rows (λ r b, set_pen r (p2 b)) (take l big_stroke) result in
  result.

(** [to_big_strokes(stroke, max_len)]. *)
Definition to_big_strokes (stroke : list Point3) (max_len : nat) : res (list Point5) :=
  let result := np_zeros5 max_len in
  let l := length stroke in
  if decide (l ≤ max_len) then
    let result := assign_rows (λ r s, set_xy r (x3 s) (y3 s)) stroke result in
    let result := assign_rows (λ r s, set_p2 r (pen s)) stroke result in
    let result := upd_upto l (λ r, set_p1 r (1 - p2 r)%Q) result in
    let result := upd_from l (λ r, set_p3 r 1) result in
    Ok result
  else Raise AssertionError.

(** ** Sketch segmentation *)

(** [np.where(flags)[0] + 1], the positions right after the flagged rows;
    [i] is the index of the head of [flags]. *)
Fixpoint where_succ (i : nat) (flags : list bool) : list nat :=
  match flags with
  | [] => []
  | b :: flags => if b then S i :: where_succ (S i) flags else where_succ (S i) flags
  end.

(** [np.split(ary, indices)] along the first axis: the slices
    [ary[start:i1]], [ary[i1:i2]], ..., [ary[ik:]]. *)
Fixpoint np_split {A} (ary : list A) (start : nat) (indices : list nat) : list (list A) :=
  match indices with
  | [] => [drop start ary]
  | i :: indices => take (i - start) (drop start ary) :: np_split ary i indices
  end.

(** [xs[:-1]]. *)
Definition but_last {A} (xs : list A) : list A := take (length xs - 1) xs.

Definition is_lift (p : Point3) : bool := Qeq_bool (pen p) 1.

Definition split_sketch (data : list Point3) : list (list Point3) :=
  let pen_stroke_bounds := where_succ 0 (is_lift <$> data) in
  np_split data 0 (but_last pen_stroke_bounds).

(** [get_max_stroke_len(sketch)].  [split_sketch] never returns an empty
    list (lemma [split_sketch_nonempty]), so [max] is never applied to one
    and is the maximum of a list of naturals. *)
Definition get_max_stroke_len (sketch : list Point3) : nat :=
  max_list (length <$> split_sketch sketch).

Definition get_max_len (sketches : list (list Point3)) : nat :=
  foldl (λ max_len sketch,
           let ml := get_max_stroke_len sketch in
           if decide (max_len < ml) then ml else max_len) 0 sketches.

(** ** Data augmentation *)

(** The random generator of [numpy] is global state of the process.  It is
    modelled by a state [G] that every draw threads: [np_permutation n] is
    [np.random.permutation(range(0, n))], [np_rand] is one call of
    [np.random.rand()] or [np.random.random()]. *)
Class NumpyRandom (G : Type) := {
  np_permutation : nat → G → list nat * G;
  np_rand : G → Q * G;
  np_permutation_perm : ∀ n g, (np_permutation n g).1 ≡ₚ seq 0 n;
  np_rand_range : ∀ g, (0 <= (np_rand g).1)%Q ∧ ((np_rand g).1 < 1)%Q
}.

(** [augment_strokes] works on Python lists [[x, y, pen]], which are mutable
    objects: [stroke], [prev_stroke] and the last element of [result] can be
    one and the same list, and [stroke[0] += ...] is then seen through all
    three names.  The objects live in a store ([a_heap]), a name holds the
    address of its object. *)
Record AugState : Set := mkAug {
  a_heap : list Point3;
  a_result : list nat;
  a_prev_stroke : nat;
  a_count : nat;
  a_stroke : nat
}.

Definition deref (h : list Point3) (a : nat) : Point3 := h !!! a.

(** A new list object: its address and the new store. *)
Definition alloc (h : list Point3) (p : Point3) : nat * list Point3 :=
  (length h, h ++ [p]).

(** The state before the loop: [result = []], [prev_stroke = [0, 0, 1]] (at
    address 0), [count = 0], [stroke = [0, 0, 1]] (at address 1). *)
Definition augment_init : AugState :=
  mkAug [mk3 0 0 1; mk3 0 0 1] [] 0 0 1.

(** One iteration of the loop, on the row [row] of [strokes]. *)
Definition augment_step `{NumpyRandom G} (prob : Q) (st : AugState * G) (row : Point3)
    : AugState * G :=
  let '(s, g) := st in
  let '(candidate, h) := alloc (a_heap s) (mk3 (x3 row) (y3 row) (pen row)) in
  let count :=
    if Qeq_bool (pen (deref h candidate)) 1 || Qeq_bool (pen (deref h (a_prev_stroke s))) 1
    then 0 else a_count s + 1 in
  let '(urnd, g) := np_rand g in
  if Qeq_bool (pen (deref h candidate)) 0 && Qeq_bool (pen (deref h (a_prev_stroke s))) 0
     && bool_decide (2 < count) && Qltb urnd prob
  then
    let h := alter (λ p, set_xy3 p (x3 p + x3 (deref h candidate))%Q (y3 p)) (a_stroke s) h in
    let h := alter (λ p, set_xy3 p (x3 p) (y3 p + y3 (deref h candidate))%Q) (a_stroke s) h in
    (mkAug h (a_result s) (a_prev_stroke s) count (a_stroke s), g)
  else
    (mkAug h (a_result s ++ [candidate]) candidate count candidate, g).

(** [augment_strokes(strokes, prob)]; [np.array(result)] reads every object
    of [result] off the store. *)
Definition augment_strokes `{NumpyRandom G} (strokes : list Point3) (prob : Q) (g : G)
    : list Point3 * G :=
  let '(s, g) := foldl (augment_step prob) (augment_init, g) strokes in
  (deref (a_heap s) <$> a_result s, g).

(** ** The data loader *)

(** A mini-batch of the stroke-wise protocol, the triple
    [(None, result, seq_len)]. *)
Record MiniBatch : Set := mkBatch {
  mb_strokes3 : option (list (list Point3));
  mb_strokes5 : list (list Point5);
  mb_seq_len : list nat
}.

Record DataLoader : Set := mkLoader {
  stroke_batch_queue : list MiniBatch;
  batch_size : nat;
  max_seq_length : nat;
  scale_factor : Q;
  random_scale_factor : Q;
  limit : Q;
  augment_stroke_prob : Q;
  strokes : list (list Point3);
  num_batches : nat
}.

(** [self.start_stroke_token], which [__init__] sets to [[0, 0, 1, 0, 0]]
    and nothing changes. *)
Definition start_stroke_token : Point5 := mk5 0 0 1 0 0.

Definition set_queue (self : DataLoader) (q : list MiniBatch) : DataLoader :=
  mkLoader q (batch_size self) (max_seq_length self) (scale_factor self)
    (random_scale_factor self) (limit self) (augment_stroke_prob self)
    (strokes self) (num_batches self).

Definition set_strokes (self : DataLoader) (s : list (list Point3)) (n : nat) : DataLoader :=
  mkLoader (stroke_batch_queue self) (batch_size self) (max_seq_length self)
    (scale_factor self) (random_scale_factor self) (limit self)
    (augment_stroke_prob self) s n.

(** [np.argsort(a)] on a one-dimensional array of integers, with the default
    [kind]: an index array that sorts [a].  The default algorithm is not a
    stable one, so nothing more is known of the order of equal keys. *)
Class NumpySort := {
  np_argsort : list nat → list nat;
  np_argsort_perm : ∀ a, np_argsort a ≡ₚ seq 0 (length a);
  np_argsort_sorted : ∀ a, Sorted le ((λ i, a !!! i) <$> np_argsort a)
}.

(** [np.minimum(sketch, limit)] and [np.maximum(sketch, -limit)] work on
    every element of the array, hence on all three columns. *)
Definition np_minimum (sketch : list Point3) (v : Q) : list Point3 :=
  (λ p, mk3 (Qmin (x3 p) v) (Qmin (y3 p) v) (Qmin (pen p) v)) <$> sketch.
Definition np_maximum (sketch : list Point3) (v : Q) : list Point3 :=
  (λ p, mk3 (Qmax (x3 p) v) (Qmax (y3 p) v) (Qmax (pen p) v)) <$> sketch.

(** The integer nearest to a rational, the even one of the two when the
    rational lies half-way between them. *)
Definition nearest_even (x : Q) : Z :=
  let den := Z.pos (Qden x) in
  let f := (Qnum x / den)%Z in
  let r := (Qnum x mod den)%Z in
  match (2 * r ?= den)%Z with
  | Lt => f
  | Gt => (f + 1)%Z
  | Eq => if Z.even f then f else (f + 1)%Z
  end.

(** The exponent of the numbers of single precision next to [x]: the [e]
    with [2^23 <= |x| / 2^e < 2^24], and -149, the exponent of the subnormal
    numbers, when that [e] is smaller. *)
Definition binary32_exponent (x : Q) : Z :=
  let n := Z.abs (Qnum x) in
  let d := Z.pos (Qden x) in
  let l := (Z.log2 n - Z.log2 d)%Z in
  let l := if Qle_bool (2 ^ l) (n # Qden x) then l else (l - 1)%Z in
  Z.max (l - 23) (-149).

(** The cast of a number to single precision: the nearest number with a
    significand of 24 bits, the one with the even significand of the two when
    [x] lies half-way.  This is the cast of a number whose magnitude is at
    most [binary32_max]; a number of magnitude [2^128 - 2^103] or more
    becomes an infinity in [numpy], which the rationals do not have. *)
Definition binary32 (x : Q) : Q :=
  let x := Qred x in
  let e := binary32_exponent x in
  Qred (inject_Z (nearest_even (x / 2 ^ e)) * 2 ^ e).

(** The largest number of single precision, [(2^24 - 1) * 2^104]. *)
Definition binary32_max : Q := inject_Z ((2 ^ 24 - 1) * 2 ^ 104).

(** [np.array(sketch, dtype=np.float32)]: every element is cast to single
    precision. *)
Definition np_float32 (sketch : list Point3) : list Point3 :=
  (λ p, mk3 (binary32 (x3 p)) (binary32 (y3 p)) (binary32 (pen p))) <$> sketch.

(** [a /= d] on an element [a] of an array of single precision, for a Python
    float [d]: [d] is cast to single precision and the quotient is the one
    of single precision.  Where the divisor is zero in single precision, or
    the quotient is beyond the range of single precision, [numpy] warns and
    stores an infinity or a NaN; the rationals have neither, and the value
    of the model carries no meaning there. *)
Definition np_divide32 (a d : Q) : Q := binary32 (a / binary32 d).

(** The body of the first loop of [preprocess]. *)
Definition preprocess_step (self : DataLoader)
    (acc : list (list Point3) * list nat * nat) (sketch : list Point3)
    : list (list Point3) * list nat * nat :=
  let '(raw_data, seq_len, count_data) := acc in
  if decide (get_max_stroke_len sketch ≤ max_seq_length self) then
    let count_data := count_data + 1 in
    let sketch := np_minimum sketch (limit self) in
    let sketch := np_maximum sketch (- limit self)%Q in
    let sketch := np_float32 sketch in
    let sketch := (λ p, set_xy3 p (np_divide32 (x3 p) (scale_factor self))
                                  (np_divide32 (y3 p) (scale_factor self))) <$> sketch in
    (raw_data ++ [sketch], seq_len ++ [length sketch], count_data)
  else acc.

(** [preprocess(self, sketches)].  [int(count_data / self.batch_size)]
    divides two integers and raises when [batch_size] is 0. *)
Definition preprocess `{NumpySort} (self : DataLoader) (sketches : list (list Point3))
    : res DataLoader :=
  let '(raw_data, seq_len, count_data) := foldl (preprocess_step self) ([], [], 0) sketches in
  let idx := np_argsort seq_len in
  strokes ← for_each (λ i strokes,
                        idx_i ← py_index idx i;
                        sketch ← py_index raw_data idx_i;
                        Ok (strokes ++ [sketch]))
                     (seq 0 (length seq_len)) [];
  if decide (batch_size self = 0) then Raise ZeroDivisionError
  else Ok (set_strokes self strokes (count_data / batch_size self)).

(** [DataLoader(strokes, batch_size, max_seq_length, scale_factor,
    random_scale_factor, augment_stroke_prob, limit)]. *)
Definition DataLoader_init `{NumpySort} (strokes : list (list Point3))
    (batch_size max_seq_length : nat)
    (scale_factor random_scale_factor augment_stroke_prob limit : Q) : res DataLoader :=
  preprocess (mkLoader [] batch_size max_seq_length scale_factor random_scale_factor
                limit augment_stroke_prob [] 0) strokes.

(** [random_scale(self, data)]. *)
Definition random_scale `{NumpyRandom G} (self : DataLoader) (data : list Point3) (g : G)
    : list Point3 * G :=
  let '(r, g) := np_rand g in
  let x_scale_factor := ((r - (1 # 2)) * 2 * random_scale_factor self + 1)%Q in
  let '(r, g) := np_rand g in
  let y_scale_factor := ((r - (1 # 2)) * 2 * random_scale_factor self + 1)%Q in
  let result := data in
  let result := (λ p, set_xy3 p (x3 p * x_scale_factor)%Q (y3 p)) <$> result in
  let result := (λ p, set_xy3 p (x3 p) (y3 p * y_scale_factor)%Q) <$> result in
  (result, g).

(** [int(x)] on a number: truncation towards zero. *)
Definition py_int (x : Q) : Z := (Qnum x ÷ Z.pos (Qden x))%Z.

(** [np.sum(a)]. *)
Definition np_sum (a : list Q) : Q := foldl Qplus 0%Q a.

(** The body of the loop of [_get_sketches_from_indices].  When
    [augment_strokes] drops into an empty [result], [np.array([])] has one
    dimension only and [data_copy[:, 2]] raises. *)
Definition get_sketch_step `{NumpyRandom G} (self : DataLoader) (i : nat)
    (st : list (list Point3) * list Q * G) : res (list (list Point3) * list Q * G) :=
  let '(sketches, num_strokes, g) := st in
  sketch ← py_index (strokes self) i;
  let '(data, g) := random_scale self sketch g in
  let data_copy := data in
  if Qltb 0 (augment_stroke_prob self) then
    let '(data_copy, g) := augment_strokes data_copy (augment_stroke_prob self) g in
    if decide (data_copy = []) then Raise IndexError
    else Ok (sketches ++ [data_copy], num_strokes ++ [np_sum (pen <$> data_copy)], g)
  else Ok (sketches ++ [data_copy], num_strokes ++ [np_sum (pen <$> data_copy)], g).

Definition _get_sketches_from_indices `{NumpyRandom G} (self : DataLoader)
    (indices : list nat) (g : G) : res (list (list Point3) * list Z * G) :=
  let sketches : list (list Point3) := [] in
  let num_strokes : list Q := [] in
  '(sketches, num_strokes, g) ← for_each (get_sketch_step self) indices
                                          (sketches, num_strokes, g);
  Ok (sketches, fmap (M := list) py_int num_strokes, g).

(** [seq_len[-1] += 1]; the list is never empty where the source does it. *)
Definition incr_last (seq_len : list nat) : list nat :=
  alter (λ n, n + 1) (length seq_len - 1) seq_len.

(** The body of the loop over the rows [i] of mini-batch [j] in
    [pad_stroke_batch]; it works on [result] and [seq_len]. *)
Definition pad_row (self : DataLoader) (sketch_strokes : list (list (list Point3)))
    (j i : nat) (st : list (list Point5) * list nat) : res (list (list Point5) * list nat) :=
  let '(result, seq_len) := st in
  sketch ← py_index sketch_strokes i;
  if decide (length sketch ≤ j) then
    let result := alter (fmap (λ r, set_p3 r 1)) i result in
    Ok (result, seq_len ++ [0])
  else
    stroke ← py_index sketch j;
    let l := length stroke in
    let seq_len := seq_len ++ [l] in
    if decide (l ≤ max_seq_length self) then
      let result := alter (assign_rows (λ r s, set_xy r (x3 s) (y3 s)) stroke) i result in
      let result := alter (assign_rows (λ r s, set_p2 r (pen s)) stroke) i result in
      let result := alter (upd_upto l (λ r, set_p1 r (1 - p2 r)%Q)) i result in
      let is_last_stroke := bool_decide (length sketch ≤ j + 1) in
      let result :=
        if is_last_stroke then alter (upd_from l (λ r, set_p3 r 1)) i result
        else alter (upd_from l (λ r, set_p2 r 1)) i result in
      let all_strokes_policy := true in
      if bool_decide (j = 0) || all_strokes_policy then
        let result := alter shift_right i result in
        let result := alter (alter (λ _, zero5) 0) i result in
        let result := alter (alter (λ r, set_p1 r (p1 start_stroke_token)) 0) i result in
        let result := alter (alter (λ r, set_p2 r (p2 start_stroke_token)) 0) i result in
        let result := alter (alter (λ r, set_p3 r (p3 start_stroke_token)) 0) i result in
        Ok (result, incr_last seq_len)
      else Ok (result, seq_len)
    else Raise AssertionError.

(** The body of the loop over [j]: one mini-batch. *)
Definition pad_batch_j (self : DataLoader) (sketch_strokes : list (list (list Point3)))
    (j : nat) (batches : list MiniBatch) : res (list MiniBatch) :=
  let result := replicate (batch_size self) (np_zeros5 (max_seq_length self + 1)) in
  let seq_len : list nat := [] in
  '(result, seq_len) ← for_each (pad_row self sketch_strokes j)
                                 (seq 0 (batch_size self)) (result, seq_len);
  Ok (batches ++ [mkBatch None result seq_len]).

(** [pad_stroke_batch(self, sketch_strokes)]. *)
Definition pad_stroke_batch (self : DataLoader) (sketch_strokes : list (list (list Point3)))
    : res (list MiniBatch) :=
  max_num_strokes ← py_max (length <$> sketch_strokes);
  for_each (pad_batch_j self sketch_strokes) (seq 0 max_num_strokes) [].

(** [random_stroke_batch(self)]: the mini-batch returned, the loader with
    its queue after the call, and the state of the random generator. *)
Definition random_stroke_batch `{NumpyRandom G} (self : DataLoader) (g : G)
    : res (MiniBatch * DataLoader * G) :=
  '(self, g) ←
    (if decide (stroke_batch_queue self = []) then
       let '(perm, g) := np_permutation (length (strokes self)) g in
       let idx := take (batch_size self) perm in
       '(sketches, num_strokes, g) ← _get_sketches_from_indices self idx g;
       let sketch_strokes := split_sketch <$> sketches in
       batches ← pad_stroke_batch self sketch_strokes;
       Ok (set_queue self (stroke_batch_queue self ++ batches), g)
     else Ok (self, g));
  match stroke_batch_queue self with
  | [] => Raise AssertionError
  | batch :: queue => Ok (batch, set_queue self queue, g)
  end.

(** [get_stroke_batches(self, idx)]. *)
Definition get_stroke_batches `{NumpyRandom G} (self : DataLoader) (idx : nat) (g : G)
    : res (list MiniBatch * G) :=
  let start_idx := idx * batch_size self in
  let indices := seq start_idx (batch_size self) in
  '(sketches, num_strokes, g) ← _get_sketches_from_indices self indices g;
  let sketch_strokes := split_sketch <$> sketches in
  batches ← pad_stroke_batch self sketch_strokes;
  Ok (batches, g).

(** ** Bounds, polylines and the export to pixels *)

(** [min(a, b)] and [max(a, b)] of Python on two numbers: the first argument,
    unless the second is strictly smaller (larger). *)
Definition py_min2 (a b : Q) : Q := if Qltb b a then b else a.
Definition py_max2 (a b : Q) : Q := if Qltb a b then b else a.

(** The variables of the loop of [get_bounds]. *)
Record BoundsState : Set := mkBounds {
  min_x : Q; max_x : Q; min_y : Q; max_y : Q; abs_x : Q; abs_y : Q
}.

(** One iteration of the loop of [get_bounds]; [factor] is a number of
    Python (the default 10, the 1 of [scale_bound]), not a numpy scalar, and
    the division of a Python float by zero raises. *)
Definition get_bounds_step (factor : Q) (row : Point3) (st : BoundsState)
    : res BoundsState :=
  if Qeq_bool factor 0 then Raise ZeroDivisionError
  else
    let x := (x3 row / factor)%Q in
    let y := (y3 row / factor)%Q in
    let abs_x := (abs_x st + x)%Q in
    let abs_y := (abs_y st + y)%Q in
    Ok (mkBounds (py_min2 (min_x st) abs_x) (py_max2 (max_x st) abs_x)
                 (py_min2 (min_y st) abs_y) (py_max2 (max_y st) abs_y)
                 abs_x abs_y).

(** [get_bounds(data, factor)]: the tuple [(min_x, max_x, min_y, max_y)]. *)
Definition get_bounds (data : list Point3) (factor : Q) : res (Q * Q * Q * Q) :=
  st ← for_each (get_bounds_step factor) data (mkBounds 0 0 0 0 0 0);
  Ok (min_x st, max_x st, min_y st, max_y st).

(** [scale_bound(stroke, average_dimension)] changes [stroke] in place; the
    model returns the array after the call.  [max_dimension] and
    [average_dimension] are Python floats, so their quotient raises when
    [average_dimension] is zero.  The division of the array by that quotient
    is numpy's: it does not raise on a zero quotient, the offsets of an array
    that has rows become infinities and NaNs, which the rationals do not
    have; the model gives [None] for such an array. *)
Definition scale_bound (stroke : list Point3) (average_dimension : Q)
    : res (option (list Point3)) :=
  '(min_x, max_x, min_y, max_y) ← get_bounds stroke 1;
  let max_dimension := py_max2 (max_x - min_x)%Q (max_y - min_y)%Q in
  if Qeq_bool average_dimension 0 then Raise ZeroDivisionError
  else
    let d := (max_dimension / average_dimension)%Q in
    if Qeq_bool d 0 then Ok (if decide (stroke = []) then Some [] else None)
    else Ok (Some ((λ p, set_xy3 p (x3 p / d)%Q (y3 p / d)%Q) <$> stroke)).

(** A polyline is a list of points [[x, y]], a value of [list (Q * Q)]. *)
#[global] Instance Q_inhabited : Inhabited Q := populate 0%Q.

(** One iteration of the loop of [strokes_to_lines], on the variables
    [x], [y], [lines] and [line]. *)
Definition strokes_to_lines_step (st : Q * Q * list (list (Q * Q)) * list (Q * Q)) (row : Point3)
    : Q * Q * list (list (Q * Q)) * list (Q * Q) :=
  let '(x, y, lines, line) := st in
  if Qeq_bool (pen row) 1 then
    let x := (x + x3 row)%Q in
    let y := (y + y3 row)%Q in
    let line := line ++ [(x, y)] in
    let lines := lines ++ [line] in
    (x, y, lines, [])
  else
    let x := (x + x3 row)%Q in
    let y := (y + y3 row)%Q in
    let line := line ++ [(x, y)] in
    (x, y, lines, line).

(** [strokes_to_lines(strokes)]. *)
Definition strokes_to_lines (strokes : list Point3) : list (list (Q * Q)) :=
  let '(_, _, lines, _) := foldl strokes_to_lines_step (0%Q, 0%Q, [], []) strokes in
  lines.

(** The inner loop of [lines_to_strokes] over the points of one polyline. *)
Definition append_line (strokes : list Point3) (line : list (Q * Q)) : list Point3 :=
  let linelen := length line in
  foldl (λ strokes i,
           let eos := if decide (i < linelen - 1) then 0%Q else 1%Q in
           strokes ++ [mk3 (line !!! i).1 (line !!! i).2 eos])
        strokes (seq 0 linelen).

(** [lines_to_strokes(lines)].  The right-hand side of
    [strokes[1:, 0:2] -= strokes[:-1, 0:2]] is read before anything is
    written. *)
Definition lines_to_strokes (lines : list (list (Q * Q))) : list Point3 :=
  let strokes := foldl append_line [mk3 0 0 0] lines in
  let strokes :=
    take 1 strokes ++
    zip_with (λ r s, set_xy3 r (x3 r - x3 s)%Q (y3 r - y3 s)%Q)
             (drop 1 strokes) (but_last strokes) in
  drop 1 strokes.





(** ** The batches of whole sketches *)

(** The body of the loop of [pad_batch] on row [i] of [result]. *)
Definition pad_batch_row (batch : list (list Point3)) (max_len : nat) (i : nat)
    (result : list (list Point5)) : res (list (list Point5)) :=
  sketch ← py_index batch i;
  let l := length sketch in
  if decide (l ≤ max_len) then
    let result := alter (assign_rows (λ r s, set_xy r (x3 s) (y3 s)) sketch) i result in
    let result := alter (assign_rows (λ r s, set_p2 r (pen s)) sketch) i result in
    let result := alter (upd_upto l (λ r, set_p1 r (1 - p2 r)%Q)) i result in
    let result := alter (upd_from l (λ r, set_p3 r 1)) i result in
    let result := alter shift_right i result in
    let result := alter (alter (λ _, zero5) 0) i result in
    let result := alter (alter (λ r, set_p1 r (p1 start_stroke_token)) 0) i result in
    let result := alter (alter (λ r, set_p2 r (p2 start_stroke_token)) 0) i result in
    let result := alter (alter (λ r, set_p3 r (p3 start_stroke_token)) 0) i result in
    Ok result
  else Raise AssertionError.

(** [pad_batch(self, batch, max_len)]. *)
Definition pad_batch (self : DataLoader) (batch : list (list Point3)) (max_len : nat)
    : res (list (list Point5)) :=
  let result := replicate (batch_size self) (np_zeros5 (max_len + 1)) in
  if decide (length batch = batch_size self) then
    for_each (pad_batch_row batch max_len) (seq 0 (batch_size self)) result
  else Raise AssertionError.

(** * The vocabulary of the properties *)

(** ** Rows of stroke-5 arrays *)

(** The stroke-5 row of a stroke-3 point, and the two padding rows. *)
Definition big_point (p : Point3) : Point5 := mk5 (x3 p) (y3 p) (1 - pen p)%Q (pen p) 0.

Definition end_of_sketch : Point5 := mk5 0 0 0 0 1.

Definition end_of_stroke : Point5 := mk5 0 0 0 1 0.

(** [to_normal_strokes(to_big_strokes(s, max_len))]. *)
Definition round_trip (s : list Point3) (max_len : nat) : res (list Point3) :=
  big_stroke ← to_big_strokes s max_len; Ok (to_normal_strokes big_stroke).

(** The padding point of mini-batch [j] for a sketch given by its
    pen-strokes: end of sketch after the last pen-stroke, end of stroke after
    the others. *)
Definition padding_of (sketch : list (list Point3)) (j : nat) : Point5 :=
  if bool_decide (length sketch ≤ j + 1) then end_of_sketch else end_of_stroke.

(** The row of [n + 1] points before the shift: the points of the
    pen-stroke, then padding. *)
Definition unshifted_row (n : nat) (sketch : list (list Point3)) (j : nat)
    (stroke : list Point3) : list Point5 :=
  (big_point <$> stroke) ++ replicate (n + 1 - length stroke) (padding_of sketch j).

(** The row and the recorded length of a sketch in mini-batch [j]. *)
Definition stroke_row (n : nat) (sketch : list (list Point3)) (j : nat) : list Point5 :=
  match sketch !! j with
  | Some stroke => start_stroke_token :: take n (unshifted_row n sketch j stroke)
  | None => replicate (n + 1) end_of_sketch
  end.

Definition stroke_len (sketch : list (list Point3)) (j : nat) : nat :=
  match sketch !! j with
  | Some stroke => length stroke + 1
  | None => 0
  end.

(** Mini-batch [j] of a cohort, for [batch_size] rows of [n + 1] points. *)
Definition stroke_batch (self : DataLoader) (sketch_strokes : list (list (list Point3)))
    (j : nat) : MiniBatch :=
  let cohort := take (batch_size self) sketch_strokes in
  mkBatch None ((λ sketch, stroke_row (max_seq_length self) sketch j) <$> cohort)
               ((λ sketch, stroke_len sketch j) <$> cohort).

(** Row [i] of the cohort can be padded for mini-batch [j]: the sketch is
    there and its [j]-th pen-stroke, if any, is short enough. *)
Definition row_fits (self : DataLoader) (sketch_strokes : list (list (list Point3)))
    (j i : nat) : Prop :=
  ∃ sketch, sketch_strokes !! i = Some sketch ∧
    ∀ stroke, sketch !! j = Some stroke → length stroke ≤ max_seq_length self.

(** The array and the lengths of mini-batch [j] once the rows below [m] are
    done: the rows from [m] on are still fresh. *)
Definition rows_done (self : DataLoader) (sketch_strokes : list (list (list Point3)))
    (j m : nat) : list (list Point5) * list nat :=
  (((λ sketch, stroke_row (max_seq_length self) sketch j) <$> take m sketch_strokes)
     ++ replicate (batch_size self - m) (np_zeros5 (max_seq_length self + 1)),
   (λ sketch, stroke_len sketch j) <$> take m sketch_strokes).

(** [k], the number of mini-batches of a run. *)
Definition max_num_strokes (sketch_strokes : list (list (list Point3))) : nat :=
  max_list (length <$> sketch_strokes).

(** Exactly one of the three pen-state channels is 1, the other two are 0. *)
Definition one_hot (r : Point5) : Prop :=
  (p1 r == 1 ∧ p2 r == 0 ∧ p3 r == 0)%Q ∨
  (p1 r == 0 ∧ p2 r == 1 ∧ p3 r == 0)%Q ∨
  (p1 r == 0 ∧ p2 r == 0 ∧ p3 r == 1)%Q.

(** The pen lift of a valid stroke-3 point is 0 or 1. *)
Definition valid_pen (p : Point3) : Prop := (pen p == 0)%Q ∨ (pen p == 1)%Q.

(** ** The stored corpus *)

(** The sketches that [preprocess] keeps: those whose longest pen-stroke has
    at most [max_seq_length] points. *)
Definition retained (self : DataLoader) (sketches : list (list Point3))
    : list (list Point3) :=
  filter (λ sketch, get_max_stroke_len sketch ≤ max_seq_length self) sketches.

(** The clamp to [[-limit, limit]] as the source computes it: minimum with
    [limit], then maximum with [-limit]. *)
Definition clamp (limit v : Q) : Q := Qmax (Qmin v limit) (- limit)%Q.

(** What is stored for a sketch that is kept: all three columns clamped and
    cast to single precision, the two offsets divided by [scale_factor]. *)
Definition stored_point (self : DataLoader) (p : Point3) : Point3 :=
  mk3 (np_divide32 (binary32 (clamp (limit self) (x3 p))) (scale_factor self))
      (np_divide32 (binary32 (clamp (limit self) (y3 p))) (scale_factor self))
      (binary32 (clamp (limit self) (pen p))).

Definition stored_sketch (self : DataLoader) (sketch : list Point3) : list Point3 :=
  stored_point self <$> sketch.

(** The retained sketches in the order in which they are stored. *)
Definition stored_order `{NumpySort} (self : DataLoader) (sketches : list (list Point3))
    : list (list Point3) :=
  (λ i, retained self sketches !!! i) <$> np_argsort (length <$> retained self sketches).

(** ** An index sort and a random generator to run the model on *)

(** Insertion of the index [i] into a sorted index list, before the first
    index whose key is larger.  Indices of equal key stay in the order of
    their insertion: the sort is the insertion sort that the quicksort of
    [numpy] uses on short arrays. *)
Fixpoint insert_index (a : list nat) (i : nat) (sorted : list nat) : list nat :=
  match sorted with
  | [] => [i]
  | j :: rest =>
      if decide (a !!! i < a !!! j) then i :: j :: rest
      else j :: insert_index a i rest
  end.

Definition insertion_argsort (a : list nat) : list nat :=
  foldl (λ sorted i, insert_index a i sorted) [] (seq 0 (length a)).

(** The draws of [np.random.rand()] are the entries of the tape, in order
    (an entry outside [[0, 1)] counts as 0, and so does the draw from an
    empty tape); every permutation drawn is the reversal. *)
Definition tape_rand (g : list Q) : Q * list Q :=
  match g with
  | [] => (0%Q, [])
  | x :: g => (if Qle_bool 0 x && Qltb x 1 then x else 0%Q, g)
  end.

Definition tape_permutation (n : nat) (g : list Q) : list nat * list Q :=
  (reverse (seq 0 n), g).

(** ** Groups of points in [augment_strokes] *)

(** The loop cuts its input into consecutive groups: an emitted point, then
    the points dropped after it.  A group comes out as one point, its head
    with the offsets of the dropped points added one after the other. *)
Definition merged (group : list Point3) : Point3 :=
  match group with
  | [] => zero3
  | h :: t => foldl (λ acc c, mk3 (x3 acc + x3 c)%Q (y3 acc + y3 c)%Q (pen acc)) h t
  end.

(** The point before the next one, [[0, 0, 1]] before the first: the initial
    value of [prev_stroke]. *)
Definition last_point (pre : list Point3) : Point3 := default (mk3 0 0 1) (last pre).

(** A group [h :: t] that comes after the points [before]: when points were
    dropped into [h], neither [h] nor any of them is a pen lift, and [h] does
    not follow a pen lift. *)
Definition group_ok (before group : list Point3) : Prop :=
  match group with
  | [] => False
  | h :: t =>
      t ≠ [] →
      (pen h == 0)%Q ∧ Forall (λ c, (pen c == 0)%Q) t ∧
      ¬ (pen (last_point before) == 1)%Q
  end.

Definition groups_ok (groups : list (list Point3)) : Prop :=
  ∀ gs g gs', groups = gs ++ g :: gs' → group_ok (concat gs) g.

(** The invariant of the loop of [augment_strokes] after the rows [pre]:
    the store, the names and the counter against the groups made so far. *)
Record aug_inv (pre : list Point3) (s : AugState) (groups : list (list Point3))
    : Prop := mkAugInv {
  inv_concat : concat groups = pre;
  inv_ok : groups_ok groups;
  inv_result : deref (a_heap s) <$> a_result s = merged <$> groups;
  inv_nodup : NoDup (a_result s);
  inv_bound : Forall (λ a, a < length (a_heap s)) (a_result s);
  inv_prev_bound : a_prev_stroke s < length (a_heap s);
  inv_stroke_bound : a_stroke s < length (a_heap s);
  inv_last : groups ≠ [] →
             a_prev_stroke s = a_stroke s ∧ ∃ r0, a_result s = r0 ++ [a_stroke s];
  inv_prev_pen : (pen (deref (a_heap s) (a_prev_stroke s)) == pen (last_point pre))%Q;
  inv_count : 0 < a_count s →
              ∀ gs g, groups = gs ++ [g] → ¬ (pen (last_point (concat gs)) == 1)%Q
}.

(** ** Pen-stroke lengths *)

(** The lengths of the pen-strokes of a sketch, read off its pen-lift flags:
    [cur] points of the current pen-stroke are behind; a pen lift closes the
    pen-stroke when another pen lift follows, and the last pen-stroke takes
    all the points that remain. *)
Fixpoint seglens_from (cur : nat) (flags : list bool) : list nat :=
  match flags with
  | [] => [cur]
  | b :: flags =>
      if b && existsb id flags then S cur :: seglens_from 0 flags
      else seglens_from (S cur) flags
  end.

(** The lengths of the slices of [np_split] on an array of [len] rows. *)
Fixpoint gaps (len start : nat) (indices : list nat) : list nat :=
  match indices with
  | [] => [len - start]
  | i :: indices => (i - start) :: gaps len i indices
  end.

(** [dropped inp out]: the flags [out] are the flags [inp] with some
    entries [false] left out. *)
Inductive dropped : list bool → list bool → Prop :=
| dropped_nil : dropped [] []
| dropped_keep b inp out : dropped inp out → dropped (b :: inp) (b :: out)
| dropped_drop inp out : dropped inp out → dropped (false :: inp) out.

(** ** Calls of [random_stroke_batch] *)

(** [n] successive calls of [random_stroke_batch]: the mini-batches they
    return, in order, the loader and the random generator afterwards. *)
Fixpoint successive_calls `{NumpyRandom G} (n : nat) (self : DataLoader) (g : G)
    : res (list MiniBatch * DataLoader * G) :=
  match n with
  | 0 => Ok ([], self, g)
  | S n =>
      '(batch, self, g) ← random_stroke_batch self g;
      '(batches, self, g) ← successive_calls n self g;
      Ok (batch :: batches, self, g)
  end.

(** The corpus is ready for the stroke-wise protocol: every pen-stroke of
    every stored sketch has at most [max_seq_length] points, and
    augmentation, if switched on, finds no empty sketch. *)
Definition corpus_ready (self : DataLoader) : Prop :=
  Forall (λ sketch, get_max_stroke_len sketch ≤ max_seq_length self) (strokes self) ∧
  ((augment_stroke_prob self <= 0)%Q ∨ Forall (λ sketch, sketch ≠ []) (strokes self)).

(** ** Binary64 numbers *)

(** [x] is a zero of either sign or a NaN. *)
Definition zero_or_nan (x : float) : bool :=
  match Prim2SF x with
  | S754_zero _ | S754_nan => true
  | _ => false
  end.

(** A sum of products taken from left to right, each product and each sum
    rounded on its own, and the norm it gives.  They are [np.dot] and
    [np.linalg.norm] on the arrays of the examples, where every product and
    every sum is exact; on other arrays the library may return a neighbour of
    their value. *)
Definition dot_sum (a b : list float) : float :=
  foldl (λ acc xy, acc + xy.1 * xy.2)%float 0%float (zip a b).

Definition norm_sum (a : list float) : float := PrimFloat.sqrt (dot_sum a a).

(** ** Pen-strokes as pieces of the sketch *)

(** The indices of a split are in ascending order from [start] on. *)
Fixpoint ascending_from (start : nat) (indices : list nat) : Prop :=
  match indices with
  | [] => True
  | i :: indices => start ≤ i ∧ ascending_from i indices
  end.

(** A pen-stroke that is closed by a pen lift: the lift is its last point
    and its only one. *)
Definition closed_stroke (s : list Point3) : Prop :=
  ∃ body p, s = body ++ [p] ∧ is_lift p = true ∧ Forall (λ q, is_lift q = false) body.

(** The number of pen lifts of a sketch. *)
Definition num_lifts (data : list Point3) : nat :=
  length (filter (λ b, b = true) (is_lift <$> data)).

(** The pen-strokes read off the sketch point by point: [cur] holds the
    points of the pen-stroke that is open; a pen lift closes it when another
    pen lift follows, and the last pen-stroke takes what remains. *)
Fixpoint pen_strokes_from (cur data : list Point3) : list (list Point3) :=
  match data with
  | [] => [cur]
  | p :: data =>
      if is_lift p && existsb is_lift data
      then (cur ++ [p]) :: pen_strokes_from [] data
      else pen_strokes_from (cur ++ [p]) data
  end.

(** ** Exported rows *)



(** ** Rows of a batch of whole sketches *)

(** The row of a sketch in the array of [pad_batch]: the start token, the
    points, end-of-sketch points up to [max_len + 1] rows. *)
Definition sketch_row (max_len : nat) (s : list Point3) : list Point5 :=
  start_stroke_token :: (big_point <$> s) ++ replicate (max_len - length s) end_of_sketch.

(** The array of [pad_batch] once the rows below [m] are done. *)
Definition sketch_rows_done (self : DataLoader) (batch : list (list Point3))
    (max_len m : nat) : list (list Point5) :=
  (sketch_row max_len <$> take m batch)
    ++ replicate (batch_size self - m) (np_zeros5 (max_len + 1)).

(** The points of a pen-stroke read off its row of a mini-batch and the
    recorded length: the rows after the start token, as many as the length
    tells. *)
Definition decode_row (row : list Point5) (len : nat) : list Point3 :=
  (λ b, mk3 (x5 b) (y5 b) (p2 b)) <$> take (len - 1) (drop 1 row).

(** The pen-strokes of row [i] read off the mini-batches of a run. *)
Definition decode_run (run : list MiniBatch) (i : nat) : list (list Point3) :=
  (λ batch, decode_row (mb_strokes5 batch !!! i) (mb_seq_len batch !!! i)) <$> run.

(** ** The pen position along a sketch *)

(** One coordinate of the loop of [get_bounds]: the minimum, the maximum and
    the position after one more offset [v]. *)
Definition track (st : Q * Q * Q) (v : Q) : Q * Q * Q :=
  let '(mn, mx, ab) := st in
  (py_min2 mn (ab + v)%Q, py_max2 mx (ab + v)%Q, (ab + v)%Q).

(** The position of the pen after the first [k] points of a sketch, in the
    units of [get_bounds]: the sum of their offsets, each divided by
    [factor]. *)
Definition position_x (factor : Q) (data : list Point3) (k : nat) : Q :=
  np_sum (take k ((λ p, (x3 p / factor)%Q) <$> data)).
Definition position_y (factor : Q) (data : list Point3) (k : nat) : Q :=
  np_sum (take k ((λ p, (y3 p / factor)%Q) <$> data)).

(** ** Polylines *)

(** The points of a polyline as [lines_to_strokes] lists them: with the
    flag 1 on the last one and 0 on the others. *)
Fixpoint tagged (line : list (Q * Q)) : list Point3 :=
  match line with
  | [] => []
  | p :: rest =>
      match rest with
      | [] => [mk3 p.1 p.2 1]
      | _ :: _ => mk3 p.1 p.2 0 :: tagged rest
      end
  end.

(** Offsets from positions: each point minus the one before, [prev] before
    the first. *)
Fixpoint diffs (prev : Point3) (pts : list Point3) : list Point3 :=
  match pts with
  | [] => []
  | p :: pts => mk3 (x3 p - x3 prev)%Q (y3 p - y3 prev)%Q (pen p) :: diffs p pts
  end.

(** Positions cut into polylines at the flagged points; [cur] holds the
    points of the polyline that is open, which is lost when no flagged point
    closes it. *)
Fixpoint cut (cur : list (Q * Q)) (pts : list Point3) : list (list (Q * Q)) :=
  match pts with
  | [] => []
  | p :: pts =>
      if Qeq_bool (pen p) 1 then (cur ++ [(x3 p, y3 p)]) :: cut [] pts
      else cut (cur ++ [(x3 p, y3 p)]) pts
  end.

(** Two points, two polylines, two lists of polylines are the same up to the
    equality of the rationals. *)
Definition point_eq (p q : Q * Q) : Prop := (p.1 == q.1)%Q ∧ (p.2 == q.2)%Q.
Definition line_eq (a b : list (Q * Q)) : Prop := Forall2 point_eq a b.
Definition lines_eq (a b : list (list (Q * Q))) : Prop := Forall2 line_eq a b.

(** The positions of the pen along a sketch that starts at [(x, y)], each
    with the pen column of its point. *)
Fixpoint absolute (x y : Q) (strokes : list Point3) : list Point3 :=
  match strokes with
  | [] => []
  | p :: strokes =>
      mk3 (x + x3 p)%Q (y + y3 p)%Q (pen p)
      :: absolute (x + x3 p)%Q (y + y3 p)%Q strokes
  end.

(** A stroke-3 point with its pen column made 1 on a pen lift and 0
    otherwise. *)
Definition binary_pen (p : Point3) : Point3 :=
  mk3 (x3 p) (y3 p) (if is_lift p then 1%Q else 0%Q).

(** Two stroke-3 points with equal offsets, the second with the binary pen
    column of the first. *)
Definition same_point (out inp : Point3) : Prop :=
  (x3 out == x3 inp)%Q ∧ (y3 out == y3 inp)%Q ∧
  pen out = (if is_lift inp then 1%Q else 0%Q).

(** * Properties *)

(** ** The exception monad *)

Lemma bind_Ok {A B} (m : res A) (f : A → res B) (b : B) :
  m ≫= f = Ok b ↔ ∃ a, m = Ok a ∧ f a = Ok b.
Proof.
  destruct m as [a|e]; simpl; split.
  - eauto.
  - intros (a' & [= <-] & Hf). exact Hf.
  - discriminate.
  - intros (a' & [=] & _).
Qed.

(** ** Slice assignments on a row split at the length of the source *)

Section Slices.
Context {A B : Type}.
Implicit Types (f : A → A) (xs ys : list A).

Lemma assign_rows_app (h : A → B → A) (src : list B) xs ys :
  length xs = length src →
  assign_rows h src (xs ++ ys) = zip_with h xs src ++ ys.
Proof.
  intros Hl. unfold assign_rows. rewrite <- Hl.
  rewrite take_app_length, drop_app_length. reflexivity.
Qed.

Lemma upd_upto_app f xs ys : upd_upto (length xs) f (xs ++ ys) = (f <$> xs) ++ ys.
Proof. unfold upd_upto. rewrite take_app_length, drop_app_length. reflexivity. Qed.

Lemma upd_from_app f xs ys : upd_from (length xs) f (xs ++ ys) = xs ++ (f <$> ys).
Proof. unfold upd_from. rewrite take_app_length, drop_app_length. reflexivity. Qed.

Lemma zip_with_replicate_l (h : A → B → A) (a : A) (src : list B) :
  zip_with h (replicate (length src) a) src = h a <$> src.
Proof. induction src as [|s src IH]; simpl; [reflexivity | by rewrite IH]. Qed.

End Slices.

(** The four assignments that [to_big_strokes] and [pad_stroke_batch] make
    on a fresh row of [n] points. *)
Lemma fill_row (stroke : list Point3) (n : nat) (pad : Point5 → Point5) :
  length stroke ≤ n →
  upd_from (length stroke) pad
    (upd_upto (length stroke) (λ r, set_p1 r (1 - p2 r)%Q)
       (assign_rows (λ r s, set_p2 r (pen s)) stroke
          (assign_rows (λ r s, set_xy r (x3 s) (y3 s)) stroke (np_zeros5 n))))
  = (big_point <$> stroke) ++ replicate (n - length stroke) (pad zero5).
Proof.
  intros Hl. unfold np_zeros5.
  replace n with (length stroke + (n - length stroke)) at 1 by lia.
  rewrite replicate_add.
  rewrite assign_rows_app by (by rewrite length_replicate).
  rewrite zip_with_replicate_l.
  rewrite assign_rows_app by (by rewrite length_fmap).
  set (xs := zip_with _ _ _).
  assert (Hxs : length xs = length stroke)
    by (unfold xs; rewrite length_zip_with, length_fmap; lia).
  rewrite <- Hxs, upd_upto_app, <- (length_fmap (λ r, set_p1 r (1 - p2 r)%Q) xs),
    upd_from_app.
  f_equal; [|by rewrite fmap_replicate].
  unfold xs. rewrite zip_with_fmap_l, zip_with_diag, <- list_fmap_compose.
  apply list_fmap_ext. intros _ p _. reflexivity.
Qed.

(** ** stroke-3 to stroke-5 and back *)

Lemma to_big_strokes_Ok (s : list Point3) (max_len : nat) :
  length s ≤ max_len →
  to_big_strokes s max_len
  = Ok ((big_point <$> s) ++ replicate (max_len - length s) end_of_sketch).
Proof.
  intros Hl. unfold to_big_strokes. rewrite decide_True by exact Hl.
  simpl. by rewrite fill_row.
Qed.

Lemma first_end_big_points (s : list Point3) (i : nat) (rest : list Point5) :
  first_end i ((big_point <$> s) ++ rest) = first_end (i + length s) rest.
Proof.
  revert i. induction s as [|p s IH]; intros i; simpl.
  - by rewrite Nat.add_0_r.
  - change (Qltb 0 0) with false. simpl. rewrite IH. f_equal. lia.
Qed.

Lemma first_end_padding (i n : nat) :
  first_end i (replicate n end_of_sketch) = if decide (n = 0) then 0 else i.
Proof. destruct n; reflexivity. Qed.

(** Reading [l] rows of stroke-5 points back into a fresh stroke-3 array. *)
Lemma read_back (rows : list Point5) :
  assign_rows (λ r b, set_pen r (p2 b)) rows
    (assign_rows (λ r b, set_xy3 r (x5 b) (y5 b)) rows (np_zeros3 (length rows)))
  = (λ b, mk3 (x5 b) (y5 b) (p2 b)) <$> rows.
Proof.
  unfold np_zeros3.
  rewrite <- (app_nil_r (replicate _ _)).
  rewrite assign_rows_app by (by rewrite length_replicate).
  rewrite zip_with_replicate_l.
  rewrite assign_rows_app by (by rewrite length_fmap).
  rewrite app_nil_r, zip_with_fmap_l, zip_with_diag.
  apply list_fmap_ext. intros _ b _. reflexivity.
Qed.

Lemma first_end_le (rows : list Point5) (i : nat) :
  first_end i rows ≤ i + length rows.
Proof.
  revert i. induction rows as [|r rows IH]; intros i; simpl; [lia|].
  destruct (Qltb 0 (p3 r)); [lia|]. specialize (IH (S i)). lia.
Qed.

Lemma to_normal_strokes_eq (big_stroke : list Point5) :
  to_normal_strokes big_stroke
  = let l := first_end 0 big_stroke in
    let l := if decide (l = 0) then length big_stroke else l in
    (λ b, mk3 (x5 b) (y5 b) (p2 b)) <$> take l big_stroke.
Proof.
  unfold to_normal_strokes. simpl.
  set (l := if decide _ then _ else _).
  destruct (decide (l ≤ length big_stroke)) as [Hl|Hl].
  - rewrite <- (read_back (take l big_stroke)). by rewrite length_take_le.
  - rewrite take_ge by lia.
    pose proof (first_end_le big_stroke 0). unfold l in Hl. case_decide; lia.
Qed.

Lemma normal_big_point (s : list Point3) :
  (λ b, mk3 (x5 b) (y5 b) (p2 b)) <$> (big_point <$> s) = s.
Proof.
  rewrite <- list_fmap_compose. rewrite <- (list_fmap_id s) at 2.
  apply list_fmap_ext. intros _ [x y p] _. reflexivity.
Qed.

(** C5: the round trip is not lossless on the empty sequence.  Padded to
    length 1 it is one end-of-sketch row; the search loop of
    [to_normal_strokes] finds that row at index 0 and leaves [l = 0], which
    the next line reads as "no end-of-sketch row" and replaces by the full
    length: one row of zeros comes back, not the empty sequence. *)
Lemma round_trip_empty_fails :
  length ([] : list Point3) ≤ 1 ∧
  round_trip [] 1 = Ok [mk3 0 0 0] ∧
  round_trip [] 1 ≠ Ok [].
Proof. split; [simpl; lia|]. split; [reflexivity | discriminate]. Qed.

(** On every stroke-3 sequence [s] of length at most [max_len] that is not
    empty (and on the empty one when [max_len = 0]) the round trip is
    lossless: [to_normal_strokes(to_big_strokes(s, max_len))] is [s]. *)
Theorem round_trip_lossless (s : list Point3) (max_len : nat) :
  length s ≤ max_len →
  s ≠ [] ∨ max_len = 0 →
  round_trip s max_len = Ok s.
Proof.
  intros Hl Hne. unfold round_trip. rewrite to_big_strokes_Ok by exact Hl.
  simpl. f_equal. rewrite to_normal_strokes_eq. simpl.
  rewrite first_end_big_points, first_end_padding, length_app, length_fmap,
    length_replicate. simpl.
  assert (Hlen : s ≠ [] → length s ≠ 0) by (destruct s; [done | simpl; lia]).
  assert (Htake : take (length s) ((big_point <$> s) ++
                    replicate (max_len - length s) end_of_sketch) = big_point <$> s).
  { rewrite <- (length_fmap big_point s) at 1. apply take_app_length. }
  destruct (decide (max_len - length s = 0)) as [Hfull|Hpad].
  - rewrite decide_True by reflexivity.
    rewrite take_ge by (rewrite length_app, length_fmap, length_replicate; lia).
    rewrite Hfull. simpl. rewrite app_nil_r. apply normal_big_point.
  - destruct Hne as [Hne| ->]; [|lia].
    rewrite decide_False by (specialize (Hlen Hne); lia).
    rewrite Htake. apply normal_big_point.
Qed.

Lemma round_trip_lossless_witness :
  round_trip [mk3 1 2 0; mk3 3 4 1] 3 = Ok [mk3 1 2 0; mk3 3 4 1].
Proof.
  apply (round_trip_lossless [mk3 1 2 0; mk3 3 4 1] 3); [simpl; lia | left; discriminate].
Defined.

(** ** Loop invariants *)

(** A loop that returns kept an invariant [I] of the elements done and the
    state, when every iteration that returns keeps it. *)
Lemma for_each_inv {A S} (body : A → S → res S) (I : list A → S → Prop)
    (xs : list A) (s s' : S) :
  I [] s →
  (∀ pre x post s1 s2,
     xs = pre ++ x :: post → I pre s1 → body x s1 = Ok s2 → I (pre ++ [x]) s2) →
  for_each body xs s = Ok s' →
  I xs s'.
Proof.
  intros Hinit Hstep.
  assert (Hgen : ∀ post pre s1,
             xs = pre ++ post → I pre s1 → for_each body post s1 = Ok s' → I xs s').
  { induction post as [|x post IH]; intros pre s1 Hxs Hpre Hrun; simpl in Hrun.
    - injection Hrun as <-. rewrite Hxs, app_nil_r. exact Hpre.
    - apply bind_Ok in Hrun as (s2 & Hbody & Hrun).
      apply (IH (pre ++ [x]) s2); [by rewrite <- app_assoc | | exact Hrun].
      by eapply Hstep. }
  intros Hrun. by apply (Hgen xs [] s).
Qed.

(** A loop returns, and keeps [I], when every iteration started under [I]
    returns and keeps it. *)
Lemma for_each_total {A S} (body : A → S → res S) (I : list A → S → Prop)
    (xs : list A) (s : S) :
  I [] s →
  (∀ pre x post s1,
     xs = pre ++ x :: post → I pre s1 → ∃ s2, body x s1 = Ok s2 ∧ I (pre ++ [x]) s2) →
  ∃ s', for_each body xs s = Ok s' ∧ I xs s'.
Proof.
  intros Hinit Hstep.
  assert (Hgen : ∀ post pre s1,
             xs = pre ++ post → I pre s1 → ∃ s', for_each body post s1 = Ok s' ∧ I xs s').
  { induction post as [|x post IH]; intros pre s1 Hxs Hpre; simpl.
    - exists s1. split; [reflexivity|]. rewrite Hxs, app_nil_r. exact Hpre.
    - destruct (Hstep pre x post s1 Hxs Hpre) as (s2 & -> & Hpre2). simpl.
      apply (IH (pre ++ [x]) s2); [by rewrite <- app_assoc | exact Hpre2]. }
  by apply (Hgen xs [] s).
Qed.

(** The element that follows a prefix of [range(0, n)] is its length. *)
Lemma seq_split_inv (n : nat) (pre post : list nat) (x : nat) :
  seq 0 n = pre ++ x :: post → pre = seq 0 x ∧ x < n ∧ length pre = x.
Proof.
  intros Heq.
  assert (Hlen : length pre + S (length post) = n).
  { pose proof (f_equal length Heq) as Hl.
    rewrite length_seq, length_app in Hl. simpl in Hl. lia. }
  assert (Hx : seq 0 n !! length pre = Some x).
  { rewrite Heq. by rewrite list_lookup_middle. }
  apply lookup_seq in Hx as [Hx _]. simpl in Hx. subst x.
  split; [|lia].
  assert (Htake : take (length pre) (seq 0 n) = pre).
  { rewrite Heq. by rewrite take_app_length. }
  rewrite <- Htake at 1. rewrite take_seq. f_equal. lia.
Qed.

Lemma py_max_Ok (xs : list nat) (k : nat) :
  py_max xs = Ok k ↔ xs ≠ [] ∧ k = max_list xs.
Proof.
  assert (Hfold : ∀ ys x, foldl Nat.max x ys = x `max` max_list ys).
  { induction ys as [|y ys IH]; intros x; simpl; [lia|]. rewrite IH. lia. }
  destruct xs as [|x xs]; simpl.
  - split; [discriminate | intros [[] _]; reflexivity].
  - rewrite Hfold. split; [intros [= <-]; done | intros [_ ->]; reflexivity].
Qed.

(** ** Rows of a stroke-wise mini-batch *)

Lemma alter_insert {A} (f : A → A) (i : nat) (l : list A) (x : A) :
  i < length l → alter f i (<[i:=x]> l) = <[i:=f x]> l.
Proof.
  intros Hi. apply list_eq. intros k.
  rewrite list_lookup_alter. destruct (decide (i = k)) as [<-|Hk].
  - rewrite !list_lookup_insert_eq by (rewrite ?length_insert; lia). reflexivity.
  - rewrite !list_lookup_insert_ne by exact Hk. reflexivity.
Qed.

Lemma start_token_prefix (r : list Point5) :
  r ≠ [] →
  alter (λ r, set_p3 r (p3 start_stroke_token)) 0
    (alter (λ r, set_p2 r (p2 start_stroke_token)) 0
       (alter (λ r, set_p1 r (p1 start_stroke_token)) 0
          (alter (λ _, zero5) 0 (shift_right r))))
  = start_stroke_token :: take (length r - 1) r.
Proof. destruct r as [|x r]; [done|]. intros _. reflexivity. Qed.

Lemma incr_last_snoc (seq_len : list nat) (l : nat) :
  incr_last (seq_len ++ [l]) = seq_len ++ [l + 1].
Proof.
  unfold incr_last. rewrite length_app. simpl.
  replace (length seq_len + 1 - 1) with (length seq_len + 0) by lia.
  by rewrite alter_app_r.
Qed.

(** One iteration of the loop over the rows, started on a fresh row [i]. *)
Lemma pad_row_eq (self : DataLoader) (sketch_strokes : list (list (list Point3)))
    (j i : nat) (result : list (list Point5)) (seq_len : list nat) :
  result !! i = Some (np_zeros5 (max_seq_length self + 1)) →
  pad_row self sketch_strokes j i (result, seq_len)
  = match sketch_strokes !! i with
    | None => Raise IndexError
    | Some sketch =>
        match sketch !! j with
        | Some stroke =>
            if decide (length stroke ≤ max_seq_length self)
            then Ok (<[i := stroke_row (max_seq_length self) sketch j]> result,
                     seq_len ++ [stroke_len sketch j])
            else Raise AssertionError
        | None => Ok (<[i := stroke_row (max_seq_length self) sketch j]> result,
                      seq_len ++ [stroke_len sketch j])
        end
    end.
Proof.
  intros Hrow. set (n := max_seq_length self) in *.
  assert (Hi : i < length result) by (by eapply lookup_lt_Some).
  assert (Halter : ∀ f, alter f i result = <[i := f (np_zeros5 (n + 1))]> result).
  { intros f. rewrite <- (list_insert_id result i _ Hrow) at 1.
    by rewrite alter_insert. }
  unfold pad_row, py_index, stroke_row, stroke_len.
  destruct (sketch_strokes !! i) as [sketch|]; [|reflexivity].
  cbv zeta. cbn [mbind res_bind].
  destruct (decide (length sketch ≤ j)) as [Hj|Hj].
  - rewrite (proj2 (lookup_ge_None sketch j)) by exact Hj.
    rewrite Halter. unfold np_zeros5. by rewrite fmap_replicate.
  - destruct (sketch !! j) as [stroke|] eqn:Hstroke;
      [|apply lookup_ge_None in Hstroke; lia].
    cbn [mbind res_bind]. fold n.
    destruct (decide (length stroke ≤ n)) as [Hl|Hl]; [|reflexivity].
    rewrite orb_true_r, incr_last_snoc. do 2 f_equal.
    unfold unshifted_row, padding_of.
    destruct (bool_decide (length sketch ≤ j + 1));
      rewrite !list_alter_alter_eq, Halter; f_equal; unfold compose;
      rewrite fill_row by lia;
      (rewrite start_token_prefix
         by (intros Hnil; apply (f_equal length) in Hnil;
             rewrite length_app, length_fmap, length_replicate in Hnil;
             simpl in Hnil; lia));
      rewrite length_app, length_fmap, length_replicate;
      do 2 f_equal; lia.
Qed.

Lemma pad_row_next (self : DataLoader) (sketch_strokes : list (list (list Point3)))
    (j m : nat) :
  m < batch_size self → m ≤ length sketch_strokes →
  pad_row self sketch_strokes j m (rows_done self sketch_strokes j m)
  = match sketch_strokes !! m with
    | None => Raise IndexError
    | Some sketch =>
        match sketch !! j with
        | Some stroke =>
            if decide (length stroke ≤ max_seq_length self)
            then Ok (rows_done self sketch_strokes j (S m))
            else Raise AssertionError
        | None => Ok (rows_done self sketch_strokes j (S m))
        end
    end.
Proof.
  intros Hm Hlen. unfold rows_done.
  set (rows := (λ sketch, stroke_row _ sketch j) <$> take m sketch_strokes).
  assert (Hrows : length rows = m)
    by (unfold rows; rewrite length_fmap, length_take; lia).
  rewrite pad_row_eq.
  2:{ rewrite lookup_app_r by lia. rewrite Hrows, Nat.sub_diag.
      apply lookup_replicate_2. lia. }
  destruct (sketch_strokes !! m) as [sketch|] eqn:Hsk; [|reflexivity].
  assert (Hnext : ∀ row,
    (<[m:=row]> (rows ++ replicate (batch_size self - m)
                          (np_zeros5 (max_seq_length self + 1))),
     ((λ sketch, stroke_len sketch j) <$> take m sketch_strokes) ++ [stroke_len sketch j])
    = ((((λ sketch, stroke_row (max_seq_length self) sketch j) <$> take m sketch_strokes)
         ++ [row]) ++ replicate (batch_size self - S m)
                        (np_zeros5 (max_seq_length self + 1)),
       ((λ sketch, stroke_len sketch j) <$> take m sketch_strokes) ++ [stroke_len sketch j])).
  { intros row. f_equal. fold rows.
    rewrite <- (Nat.add_0_r m) at 1. rewrite <- Hrows at 1.
    rewrite insert_app_r.
    replace (batch_size self - m) with (S (batch_size self - S m)) by lia.
    simpl. by rewrite <- app_assoc. }
  rewrite (take_S_r _ _ _ Hsk), !fmap_app. simpl.
  destruct (sketch !! j) as [stroke|] eqn:Hst.
  - destruct (decide _); [|reflexivity]. f_equal.
    rewrite Hnext. unfold stroke_row. by rewrite Hst.
  - f_equal. rewrite Hnext. unfold stroke_row. by rewrite Hst.
Qed.

(** The loop over the rows of one mini-batch. *)
Lemma pad_batch_j_inv (self : DataLoader) (sketch_strokes : list (list (list Point3)))
    (j : nat) (batches batches' : list MiniBatch) :
  pad_batch_j self sketch_strokes j batches = Ok batches' →
  batches' = batches ++ [stroke_batch self sketch_strokes j] ∧
  ∀ i, i < batch_size self → row_fits self sketch_strokes j i.
Proof.
  unfold pad_batch_j. intros Hrun.
  apply bind_Ok in Hrun as ([result seq_len] & Hloop & [= <-]).
  apply (for_each_inv _ (λ pre st,
           st = rows_done self sketch_strokes j (length pre) ∧
           length pre ≤ length sketch_strokes ∧
           ∀ i, i < length pre → row_fits self sketch_strokes j i)) in Hloop.
  - destruct Hloop as (Hst & Hlen & Hfits). rewrite length_seq in *.
    split; [|exact Hfits].
    unfold rows_done in Hst. rewrite Nat.sub_diag in Hst. simpl in Hst.
    rewrite app_nil_r in Hst. injection Hst as -> ->. reflexivity.
  - simpl. split; [|split; [lia | intros i Hi; lia]].
    unfold rows_done. rewrite take_0, Nat.sub_0_r. reflexivity.
  - intros pre x post st st' Hseq (-> & Hlen & Hfits) Hbody.
    apply seq_split_inv in Hseq as (_ & Hx & Hpre). rewrite Hpre in *.
    rewrite pad_row_next in Hbody by lia.
    rewrite length_app. simpl. rewrite Hpre, Nat.add_1_r.
    destruct (sketch_strokes !! x) as [sketch|] eqn:Hsk; [|discriminate].
    assert (Hlt : S x ≤ length sketch_strokes) by (by eapply lookup_lt_Some).
    assert (Hstep : st' = rows_done self sketch_strokes j (S x) ∧
                    ∀ stroke, sketch !! j = Some stroke →
                              length stroke ≤ max_seq_length self).
    { destruct (sketch !! j) as [stroke|].
      - destruct (decide _) as [Hl|]; [|discriminate]. injection Hbody as <-.
        split; [reflexivity | by intros ? [= <-]].
      - injection Hbody as <-. split; [reflexivity | discriminate]. }
    destruct Hstep as [-> Hfit]. split; [reflexivity | split; [exact Hlt|]].
    intros i Hi. destruct (decide (i = x)) as [->|Hne].
    + exists sketch. by split.
    + apply Hfits. lia.
Qed.

Lemma pad_batch_j_total (self : DataLoader) (sketch_strokes : list (list (list Point3)))
    (j : nat) (batches : list MiniBatch) :
  (∀ i, i < batch_size self → row_fits self sketch_strokes j i) →
  pad_batch_j self sketch_strokes j batches
  = Ok (batches ++ [stroke_batch self sketch_strokes j]).
Proof.
  intros Hfits. unfold pad_batch_j.
  destruct (for_each_total (pad_row self sketch_strokes j)
              (λ pre st, st = rows_done self sketch_strokes j (length pre) ∧
                         length pre ≤ length sketch_strokes)
              (seq 0 (batch_size self))
              (replicate (batch_size self) (np_zeros5 (max_seq_length self + 1)), []))
    as (st & -> & -> & _).
  - simpl. split; [|lia].
    unfold rows_done. rewrite take_0, Nat.sub_0_r. reflexivity.
  - intros pre x post st Hseq (-> & Hlen).
    apply seq_split_inv in Hseq as (_ & Hx & Hpre). rewrite Hpre in *.
    destruct (Hfits x Hx) as (sketch & Hsk & Hfit).
    rewrite pad_row_next, Hsk by lia.
    rewrite length_app. simpl. rewrite Hpre, Nat.add_1_r.
    assert (Hlt : S x ≤ length sketch_strokes) by (by eapply lookup_lt_Some).
    exists (rows_done self sketch_strokes j (S x)). split; [|by split].
    destruct (sketch !! j) as [stroke|]; [|reflexivity].
    by rewrite decide_True by (by apply Hfit).
  - rewrite length_seq. unfold rows_done. rewrite Nat.sub_diag. simpl.
    rewrite app_nil_r. reflexivity.
Qed.

(** The run that [pad_stroke_batch] returns. *)
Lemma pad_stroke_batch_inv (self : DataLoader) (sketch_strokes : list (list (list Point3)))
    (batches : list MiniBatch) :
  pad_stroke_batch self sketch_strokes = Ok batches →
  sketch_strokes ≠ [] ∧
  batches = stroke_batch self sketch_strokes <$> seq 0 (max_num_strokes sketch_strokes) ∧
  ∀ j i, j < max_num_strokes sketch_strokes → i < batch_size self →
         row_fits self sketch_strokes j i.
Proof.
  unfold pad_stroke_batch. intros Hrun.
  apply bind_Ok in Hrun as (k & Hk & Hloop).
  apply py_max_Ok in Hk as [Hne Hk]. fold (max_num_strokes sketch_strokes) in Hk.
  subst k. split; [by destruct sketch_strokes|].
  apply (for_each_inv _ (λ pre bs,
           bs = stroke_batch self sketch_strokes <$> pre ∧
           ∀ j i, j < length pre → i < batch_size self →
                  row_fits self sketch_strokes j i)) in Hloop.
  - destruct Hloop as [-> Hfits]. rewrite length_seq in Hfits. by split.
  - split; [reflexivity | simpl; intros; lia].
  - intros pre x post bs bs' Hseq [-> Hfits] Hbody.
    apply seq_split_inv in Hseq as (_ & Hx & Hpre).
    apply pad_batch_j_inv in Hbody as [-> Hfit].
    split; [by rewrite fmap_app|].
    intros j i Hj Hi. rewrite length_app in Hj. simpl in Hj.
    destruct (decide (j = x)) as [->|Hjx]; [by apply Hfit|].
    apply Hfits; lia.
Qed.

(** [pad_stroke_batch] returns when the cohort is not empty and every row
    of every mini-batch fits. *)
Lemma pad_stroke_batch_total (self : DataLoader)
    (sketch_strokes : list (list (list Point3))) :
  sketch_strokes ≠ [] →
  (∀ j i, j < max_num_strokes sketch_strokes → i < batch_size self →
          row_fits self sketch_strokes j i) →
  pad_stroke_batch self sketch_strokes
  = Ok (stroke_batch self sketch_strokes <$> seq 0 (max_num_strokes sketch_strokes)).
Proof.
  intros Hne Hfits. unfold pad_stroke_batch.
  assert (Hk : py_max (length <$> sketch_strokes) = Ok (max_num_strokes sketch_strokes)).
  { apply py_max_Ok. split; [by destruct sketch_strokes | reflexivity]. }
  rewrite Hk. cbn [mbind res_bind].
  destruct (for_each_total (pad_batch_j self sketch_strokes)
              (λ pre bs, bs = stroke_batch self sketch_strokes <$> pre)
              (seq 0 (max_num_strokes sketch_strokes)) [])
    as (bs & -> & ->); [reflexivity | | reflexivity].
  intros pre x post bs Hseq ->.
  apply seq_split_inv in Hseq as (_ & Hx & _).
  exists (stroke_batch self sketch_strokes <$> (pre ++ [x])).
  split; [|reflexivity]. rewrite fmap_app. apply pad_batch_j_total.
  intros i Hi. by apply Hfits.
Qed.

(** Row [i] of mini-batch [j] of a run, and its recorded length. *)
Lemma pad_stroke_batch_row (self : DataLoader)
    (sketch_strokes : list (list (list Point3))) (batches : list MiniBatch)
    (j i : nat) (batch : MiniBatch) (sketch : list (list Point3)) :
  pad_stroke_batch self sketch_strokes = Ok batches →
  batches !! j = Some batch →
  i < batch_size self →
  sketch_strokes !! i = Some sketch →
  mb_strokes5 batch !! i = Some (stroke_row (max_seq_length self) sketch j) ∧
  mb_seq_len batch !! i = Some (stroke_len sketch j).
Proof.
  intros Hrun Hj Hi Hsk.
  apply pad_stroke_batch_inv in Hrun as (_ & -> & _).
  rewrite list_lookup_fmap in Hj.
  destruct (seq 0 _ !! j) as [j'|] eqn:Hj'; [|discriminate].
  apply lookup_seq in Hj' as [-> _]. injection Hj as <-. simpl.
  rewrite !list_lookup_fmap, lookup_take_lt by exact Hi. rewrite Hsk. by split.
Qed.

(** ** The start token and the recorded length (C2) *)

(** C2, the claim as stated fails: with two rows, the first sketch of two
    pen-strokes and the second of one, row 1 of mini-batch 1 has no
    pen-stroke; its position 0 is the end-of-sketch point, not the start
    token, and its recorded length is 0, not 1. *)
Lemma row_without_stroke_gets_no_start_token :
  ∃ batches batch row,
    pad_stroke_batch (mkLoader [] 2 2 1 0 1000 0 [] 0)
      [[[mk3 1 1 1]; [mk3 2 2 1]]; [[mk3 3 3 1]]] = Ok batches ∧
    batches !! 1 = Some batch ∧
    mb_strokes5 batch !! 1 = Some row ∧
    row !! 0 = Some (mk5 0 0 0 0 1) ∧
    row !! 0 ≠ Some start_stroke_token ∧
    mb_seq_len batch !! 1 = Some 0.
Proof.
  eexists _, _, _. split; [vm_compute; reflexivity|].
  split; [reflexivity|]. split; [reflexivity|].
  split; [reflexivity|]. split; [discriminate | reflexivity].
Qed.

(** C2 (amended): in every mini-batch [j] that [pad_stroke_batch] returns,
    a row [i] whose sketch has a [j]-th pen-stroke is the row of the stroke
    points and padding shifted right by one step (its last point is lost),
    with the start token at position 0, and its recorded length is the length
    of the pen-stroke plus 1; a row whose sketch has no [j]-th pen-stroke is
    end-of-sketch points throughout, with no start token and recorded
    length 0. *)
Theorem start_token_on_rows_with_stroke (self : DataLoader)
    (sketch_strokes : list (list (list Point3))) (batches : list MiniBatch)
    (j i : nat) (batch : MiniBatch) (sketch : list (list Point3)) :
  pad_stroke_batch self sketch_strokes = Ok batches →
  batches !! j = Some batch →
  i < batch_size self →
  sketch_strokes !! i = Some sketch →
  match sketch !! j with
  | Some stroke =>
      mb_strokes5 batch !! i
      = Some (start_stroke_token ::
              take (max_seq_length self)
                ((big_point <$> stroke) ++
                 replicate (max_seq_length self + 1 - length stroke)
                   (if bool_decide (length sketch ≤ j + 1)
                    then end_of_sketch else end_of_stroke))) ∧
      mb_seq_len batch !! i = Some (length stroke + 1)
  | None =>
      mb_strokes5 batch !! i = Some (replicate (max_seq_length self + 1) end_of_sketch) ∧
      mb_seq_len batch !! i = Some 0
  end.
Proof.
  intros Hrun Hj Hi Hsk.
  destruct (pad_stroke_batch_row self sketch_strokes batches j i batch sketch
              Hrun Hj Hi Hsk) as [Hrow Hlen].
  unfold stroke_row, stroke_len, unshifted_row, padding_of in *.
  destruct (sketch !! j); by split.
Qed.

Lemma start_token_on_rows_with_stroke_witness :
  ∃ batches batch,
    pad_stroke_batch (mkLoader [] 2 2 1 0 1000 0 [] 0)
      [[[mk3 1 1 1]; [mk3 2 2 1]]; [[mk3 3 3 1]]] = Ok batches ∧
    batches !! 1 = Some batch ∧
    mb_strokes5 batch !! 0
    = Some [start_stroke_token; mk5 2 2 (1 - 1)%Q 1 0; end_of_sketch] ∧
    mb_seq_len batch !! 0 = Some 2.
Proof.
  eexists _, _. split; [vm_compute; reflexivity|]. split; [reflexivity|].
  eapply (start_token_on_rows_with_stroke (mkLoader [] 2 2 1 0 1000 0 [] 0)
           [[[mk3 1 1 1]; [mk3 2 2 1]]; [[mk3 3 3 1]]] _ 1 0 _
           [[mk3 1 1 1]; [mk3 2 2 1]]);
    [reflexivity | reflexivity | simpl; lia | reflexivity].
Defined.

(** ** The scenario of three pen-strokes against one (C3) *)

(** The row of a pen-stroke that fits: start token, stroke points, padding. *)
Lemma stroke_row_Some (n : nat) (sketch : list (list Point3)) (j : nat)
    (stroke : list Point3) :
  sketch !! j = Some stroke → length stroke ≤ n →
  stroke_row n sketch j
  = start_stroke_token :: (big_point <$> stroke)
      ++ replicate (n - length stroke) (padding_of sketch j).
Proof.
  intros Hst Hl. unfold stroke_row, unshifted_row. rewrite Hst. f_equal.
  rewrite take_app_ge by (rewrite length_fmap; lia).
  rewrite length_fmap, take_replicate. do 2 f_equal. lia.
Qed.

(** C3: for a cohort of two sketches and [batch_size = 2], sketch A of the
    three pen-strokes [a0], [a1], [a2] and sketch B of the one pen-stroke
    [b0], none longer than [max_seq_length], [pad_stroke_batch] returns
    exactly three mini-batches.  Mini-batch 0 holds the stroke points of [a0]
    and of [b0] after the start token.  In mini-batches 1 and 2 the row of B
    is the end-of-sketch point throughout, with recorded length 0.  The
    positions after the stroke points of A hold the end-of-stroke point in
    mini-batches 0 and 1, and the end-of-sketch point in mini-batch 2. *)
Theorem scenario_three_strokes_and_one (self : DataLoader) (a0 a1 a2 b0 : list Point3) :
  batch_size self = 2 →
  length a0 ≤ max_seq_length self →
  length a1 ≤ max_seq_length self →
  length a2 ≤ max_seq_length self →
  length b0 ≤ max_seq_length self →
  pad_stroke_batch self [[a0; a1; a2]; [b0]]
  = Ok [ mkBatch None
           [ start_stroke_token :: (big_point <$> a0)
               ++ replicate (max_seq_length self - length a0) end_of_stroke;
             start_stroke_token :: (big_point <$> b0)
               ++ replicate (max_seq_length self - length b0) end_of_sketch ]
           [ length a0 + 1; length b0 + 1 ];
         mkBatch None
           [ start_stroke_token :: (big_point <$> a1)
               ++ replicate (max_seq_length self - length a1) end_of_stroke;
             replicate (max_seq_length self + 1) end_of_sketch ]
           [ length a1 + 1; 0 ];
         mkBatch None
           [ start_stroke_token :: (big_point <$> a2)
               ++ replicate (max_seq_length self - length a2) end_of_sketch;
             replicate (max_seq_length self + 1) end_of_sketch ]
           [ length a2 + 1; 0 ] ].
Proof.
  intros Hbs Ha0 Ha1 Ha2 Hb0.
  rewrite pad_stroke_batch_total.
  - unfold max_num_strokes, stroke_batch. rewrite Hbs. simpl.
    rewrite (stroke_row_Some _ [a0; a1; a2] 0 a0),
      (stroke_row_Some _ [a0; a1; a2] 1 a1),
      (stroke_row_Some _ [a0; a1; a2] 2 a2),
      (stroke_row_Some _ [b0] 0 b0) by (reflexivity || assumption).
    reflexivity.
  - discriminate.
  - unfold max_num_strokes. rewrite Hbs. simpl. intros j i Hj Hi.
    destruct i as [|[|i]]; [| |lia].
    + exists [a0; a1; a2]. split; [reflexivity|].
      destruct j as [|[|[|j]]]; [| | |lia]; by intros ? [= <-].
    + exists [b0]. split; [reflexivity|].
      destruct j as [|j]; [by intros ? [= <-] | discriminate].
Qed.

Lemma scenario_three_strokes_and_one_witness :
  pad_stroke_batch (mkLoader [] 2 2 1 0 1000 0 [] 0)
    [[[mk3 1 1 0; mk3 2 2 1]; [mk3 3 3 1]; [mk3 4 4 1]]; [[mk3 5 5 1]]]
  = Ok [ mkBatch None
           [ [start_stroke_token; mk5 1 1 (1 - 0)%Q 0 0; mk5 2 2 (1 - 1)%Q 1 0];
             [start_stroke_token; mk5 5 5 (1 - 1)%Q 1 0; end_of_sketch] ]
           [ 3; 2 ];
         mkBatch None
           [ [start_stroke_token; mk5 3 3 (1 - 1)%Q 1 0; end_of_stroke];
             [end_of_sketch; end_of_sketch; end_of_sketch] ]
           [ 2; 0 ];
         mkBatch None
           [ [start_stroke_token; mk5 4 4 (1 - 1)%Q 1 0; end_of_sketch];
             [end_of_sketch; end_of_sketch; end_of_sketch] ]
           [ 2; 0 ] ].
Proof.
  apply (scenario_three_strokes_and_one (mkLoader [] 2 2 1 0 1000 0 [] 0)
           [mk3 1 1 0; mk3 2 2 1] [mk3 3 3 1] [mk3 4 4 1] [mk3 5 5 1]);
    [reflexivity | simpl; lia ..].
Defined.

(** ** One pen state per point (C4) *)

Lemma one_hot_big_point (p : Point3) : valid_pen p → one_hot (big_point p).
Proof.
  intros [Hp|Hp]; [left | right; left]; simpl; rewrite Hp; repeat split; reflexivity.
Qed.

Lemma one_hot_stroke_row (n : nat) (sketch : list (list Point3)) (j : nat) (r : Point5) :
  (∀ stroke p, stroke ∈ sketch → p ∈ stroke → valid_pen p) →
  r ∈ stroke_row n sketch j → one_hot r.
Proof.
  intros Hvalid. unfold stroke_row.
  assert (Hend : one_hot end_of_sketch) by (right; right; repeat split; reflexivity).
  assert (Hstroke : one_hot end_of_stroke) by (right; left; repeat split; reflexivity).
  destruct (sketch !! j) as [stroke|] eqn:Hst.
  - intros [->|Hr]%elem_of_cons; [left; repeat split; reflexivity|].
    apply elem_of_take in Hr as (t & Hr & _).
    apply list_elem_of_lookup_2 in Hr. unfold unshifted_row, padding_of in Hr.
    apply elem_of_app in Hr as [Hr|Hr].
    + apply list_elem_of_fmap in Hr as (p & -> & Hp).
      apply one_hot_big_point. apply (Hvalid stroke); [|exact Hp].
      by eapply list_elem_of_lookup_2.
    + apply elem_of_replicate in Hr as [-> _]. by destruct (bool_decide _).
  - intros [-> _]%elem_of_replicate. exact Hend.
Qed.

Lemma length_stroke_row (n : nat) (sketch : list (list Point3)) (j : nat) :
  length (stroke_row n sketch j) = n + 1.
Proof.
  unfold stroke_row, unshifted_row. destruct (sketch !! j) as [stroke|].
  - simpl. rewrite length_take, length_app, length_fmap, length_replicate. lia.
  - apply length_replicate.
Qed.

(** C4: for every cohort of valid stroke-3 sketches (every pen lift is 0 or
    1), every array that [pad_stroke_batch] returns has [batch_size] rows of
    [max_seq_length + 1] points, and at every point exactly one of the three
    pen-state channels is 1 and the other two are 0. *)
Theorem pad_stroke_batch_one_hot (self : DataLoader)
    (sketch_strokes : list (list (list Point3))) (batches : list MiniBatch)
    (batch : MiniBatch) :
  (∀ sketch stroke p,
     sketch ∈ sketch_strokes → stroke ∈ sketch → p ∈ stroke → valid_pen p) →
  pad_stroke_batch self sketch_strokes = Ok batches →
  batch ∈ batches →
  length (mb_strokes5 batch) = batch_size self ∧
  ∀ row, row ∈ mb_strokes5 batch →
    length row = max_seq_length self + 1 ∧ ∀ r, r ∈ row → one_hot r.
Proof.
  intros Hvalid Hrun Hb.
  apply pad_stroke_batch_inv in Hrun as (_ & -> & Hfits).
  apply list_elem_of_fmap in Hb as (j & -> & Hj).
  apply elem_of_seq in Hj as [_ Hj]. simpl in *. split.
  - rewrite length_fmap, length_take.
    destruct (decide (batch_size self ≤ length sketch_strokes)) as [|Hshort]; [lia|].
    destruct (Hfits j (length sketch_strokes)) as (sketch & Hsk & _); [lia | lia |].
    apply lookup_lt_Some in Hsk. lia.
  - intros row Hrow. apply list_elem_of_fmap in Hrow as (sketch & -> & Hsk).
    split; [apply length_stroke_row|].
    intros r Hr. apply (one_hot_stroke_row (max_seq_length self) sketch j); [|exact Hr].
    intros stroke p. apply Hvalid.
    apply elem_of_take in Hsk as (i & Hsk & _). by eapply list_elem_of_lookup_2.
Qed.

Lemma pad_stroke_batch_one_hot_witness :
  length [ [start_stroke_token; mk5 3 3 (1 - 1)%Q 1 0; end_of_stroke];
           [end_of_sketch; end_of_sketch; end_of_sketch] ] = 2 ∧
  ∀ row, row ∈ [ [start_stroke_token; mk5 3 3 (1 - 1)%Q 1 0; end_of_stroke];
                 [end_of_sketch; end_of_sketch; end_of_sketch] ] →
    length row = 3 ∧ ∀ r, r ∈ row → one_hot r.
Proof.
  apply (pad_stroke_batch_one_hot (mkLoader [] 2 2 1 0 1000 0 [] 0)
           [[[mk3 1 1 0; mk3 2 2 1]; [mk3 3 3 1]; [mk3 4 4 1]]; [[mk3 5 5 1]]]
           [ mkBatch None
               [ [start_stroke_token; mk5 1 1 (1 - 0)%Q 0 0; mk5 2 2 (1 - 1)%Q 1 0];
                 [start_stroke_token; mk5 5 5 (1 - 1)%Q 1 0; end_of_sketch] ]
               [ 3; 2 ];
             mkBatch None
               [ [start_stroke_token; mk5 3 3 (1 - 1)%Q 1 0; end_of_stroke];
                 [end_of_sketch; end_of_sketch; end_of_sketch] ]
               [ 2; 0 ];
             mkBatch None
               [ [start_stroke_token; mk5 4 4 (1 - 1)%Q 1 0; end_of_sketch];
                 [end_of_sketch; end_of_sketch; end_of_sketch] ]
               [ 2; 0 ] ]
           (mkBatch None
               [ [start_stroke_token; mk5 3 3 (1 - 1)%Q 1 0; end_of_stroke];
                 [end_of_sketch; end_of_sketch; end_of_sketch] ]
               [ 2; 0 ])).
  - intros sketch stroke p Hsk Hst Hp. unfold valid_pen.
    repeat (apply elem_of_cons in Hsk as [->|Hsk];
            [repeat (apply elem_of_cons in Hst as [->|Hst];
                     [repeat (apply elem_of_cons in Hp as [->|Hp];
                              [simpl; (by left) || (by right)|]);
                      by apply elem_of_nil in Hp|]);
             by apply elem_of_nil in Hst|]).
    by apply elem_of_nil in Hsk.
  - reflexivity.
  - apply elem_of_cons. right. apply elem_of_cons. by left.
Defined.

(** ** A pen-stroke of full length (C9) *)

(** Before the shift, a row of [n + 1] points filled with a pen-stroke of [n]
    points holds one padding point, at index [n]; the shift drops it. *)
Lemma full_row_before_shift (stroke : list Point3) (pad : Point5 → Point5) :
  let row :=
    upd_from (length stroke) pad
      (upd_upto (length stroke) (λ r, set_p1 r (1 - p2 r)%Q)
         (assign_rows (λ r s, set_p2 r (pen s)) stroke
            (assign_rows (λ r s, set_xy r (x3 s) (y3 s)) stroke
               (np_zeros5 (length stroke + 1))))) in
  row = (big_point <$> stroke) ++ [pad zero5] ∧
  shift_right row = take 1 row ++ (big_point <$> stroke).
Proof.
  simpl. rewrite fill_row by lia.
  replace (length stroke + 1 - length stroke) with 1 by lia. simpl.
  split; [reflexivity|]. unfold shift_right. f_equal.
  rewrite length_app, length_fmap. simpl.
  replace (length stroke + 1 - 1) with (length (big_point <$> stroke))
    by (rewrite length_fmap; lia).
  apply take_app_length.
Qed.

(** C9: in a run that [pad_stroke_batch] returns, a row whose [j]-th
    pen-stroke has exactly [max_seq_length] points is the start token
    followed by all the stroke points, with no padding point, and its
    recorded length is [max_seq_length + 1], the length of the row. *)
Theorem full_length_stroke_has_no_padding (self : DataLoader)
    (sketch_strokes : list (list (list Point3))) (batches : list MiniBatch)
    (j i : nat) (batch : MiniBatch) (sketch : list (list Point3))
    (stroke : list Point3) :
  pad_stroke_batch self sketch_strokes = Ok batches →
  batches !! j = Some batch →
  i < batch_size self →
  sketch_strokes !! i = Some sketch →
  sketch !! j = Some stroke →
  length stroke = max_seq_length self →
  mb_strokes5 batch !! i = Some (start_stroke_token :: (big_point <$> stroke)) ∧
  mb_seq_len batch !! i = Some (max_seq_length self + 1) ∧
  length (start_stroke_token :: (big_point <$> stroke)) = max_seq_length self + 1.
Proof.
  intros Hrun Hj Hi Hsk Hst Hl.
  destruct (pad_stroke_batch_row self sketch_strokes batches j i batch sketch
              Hrun Hj Hi Hsk) as [Hrow Hlen].
  rewrite (stroke_row_Some _ _ _ stroke Hst) in Hrow by lia.
  unfold stroke_len in Hlen. rewrite Hst, Hl in Hlen.
  rewrite <- Hl, Nat.sub_diag in Hrow. simpl in Hrow. rewrite app_nil_r in Hrow.
  split; [exact Hrow|]. split; [exact Hlen|].
  simpl. rewrite length_fmap. lia.
Qed.

Lemma full_length_stroke_has_no_padding_witness :
  ∃ batches batch,
    pad_stroke_batch (mkLoader [] 2 2 1 0 1000 0 [] 0)
      [[[mk3 1 1 0; mk3 2 2 1]; [mk3 3 3 1]]; [[mk3 5 5 1]]] = Ok batches ∧
    batches !! 0 = Some batch ∧
    mb_strokes5 batch !! 0
    = Some [start_stroke_token; mk5 1 1 (1 - 0)%Q 0 0; mk5 2 2 (1 - 1)%Q 1 0] ∧
    mb_seq_len batch !! 0 = Some 3 ∧
    length [start_stroke_token; mk5 1 1 (1 - 0)%Q 0 0; mk5 2 2 (1 - 1)%Q 1 0] = 3.
Proof.
  eexists _, _. split; [vm_compute; reflexivity|]. split; [reflexivity|].
  eapply (full_length_stroke_has_no_padding (mkLoader [] 2 2 1 0 1000 0 [] 0)
            [[[mk3 1 1 0; mk3 2 2 1]; [mk3 3 3 1]]; [[mk3 5 5 1]]] _ 0 0 _
            [[mk3 1 1 0; mk3 2 2 1]; [mk3 3 3 1]] [mk3 1 1 0; mk3 2 2 1]);
    [reflexivity | reflexivity | simpl; lia | reflexivity | reflexivity | reflexivity].
Defined.

(** ** Preprocessing of the corpus *)

Lemma preprocess_fold (self : DataLoader) (sketches raw_data : list (list Point3))
    (seq_len : list nat) (count_data : nat) :
  foldl (preprocess_step self) (raw_data, seq_len, count_data) sketches
  = (raw_data ++ (stored_sketch self <$> retained self sketches),
     seq_len ++ (length <$> retained self sketches),
     count_data + length (retained self sketches)).
Proof.
  revert raw_data seq_len count_data.
  induction sketches as [|sketch sketches IH]; intros raw_data seq_len count_data.
  - simpl. by rewrite !app_nil_r, Nat.add_0_r.
  - unfold retained in *. rewrite filter_cons. simpl.
    destruct (decide (get_max_stroke_len sketch ≤ max_seq_length self)) as [Hk|Hk].
    + rewrite IH. simpl. rewrite <- !app_assoc. simpl. f_equal; [f_equal|lia].
      * f_equal. f_equal. unfold stored_sketch, np_float32, np_maximum, np_minimum.
        rewrite <- !list_fmap_compose. apply list_fmap_ext. intros _ p _. reflexivity.
      * f_equal. f_equal.
        unfold np_float32, np_maximum, np_minimum. by rewrite !length_fmap.
    + apply IH.
Qed.

(** The second loop of [preprocess]: [raw_data] taken in the order of an
    index array [idx] whose entries are all valid. *)
Lemma reorder_loop (raw_data : list (list Point3)) (idx : list nat) :
  Forall (λ i, i < length raw_data) idx →
  for_each (λ i strokes,
              idx_i ← py_index idx i;
              sketch ← py_index raw_data idx_i;
              Ok (strokes ++ [sketch]))
           (seq 0 (length idx)) []
  = Ok ((λ i, raw_data !!! i) <$> idx).
Proof.
  intros Hidx.
  edestruct (for_each_total
               (λ i strokes,
                  idx_i ← py_index idx i;
                  sketch ← py_index raw_data idx_i;
                  Ok (strokes ++ [sketch]))
               (λ pre strokes, strokes = (λ i, raw_data !!! i) <$> take (length pre) idx)
               (seq 0 (length idx)) []) as (strokes & Hrun & Hst).
  - reflexivity.
  - intros pre x post strokes Hseq ->.
    apply seq_split_inv in Hseq as (_ & Hx & Hpre). rewrite Hpre.
    destruct (lookup_lt_is_Some_2 idx x Hx) as [idx_x Hix].
    pose proof (proj1 (Forall_lookup _ _) Hidx x idx_x Hix) as Hlt. simpl in Hlt.
    exists (((λ i, raw_data !!! i) <$> take x idx) ++ [raw_data !!! idx_x]). split.
    + unfold py_index. rewrite Hix. cbn [mbind res_bind].
      by rewrite (list_lookup_lookup_total_lt raw_data idx_x Hlt).
    + rewrite length_app. simpl. rewrite Hpre, Nat.add_1_r.
      by rewrite (take_S_r _ _ _ Hix), fmap_app.
  - rewrite Hrun, Hst, length_seq, firstn_all. reflexivity.
Qed.

Section Preprocess.
Context `{NumpySort}.

Lemma np_argsort_bound (a : list nat) : Forall (λ i, i < length a) (np_argsort a).
Proof.
  apply Forall_forall. intros i Hi.
  rewrite (np_argsort_perm a) in Hi. by apply elem_of_seq in Hi as [_ Hi].
Qed.

(** What [preprocess] stores. *)
Lemma preprocess_eq (self : DataLoader) (sketches : list (list Point3)) :
  preprocess self sketches
  = if decide (batch_size self = 0) then Raise ZeroDivisionError
    else Ok (set_strokes self (stored_sketch self <$> stored_order self sketches)
               (length (retained self sketches) / batch_size self)).
Proof.
  unfold preprocess. rewrite preprocess_fold. simpl.
  set (kept := retained self sketches).
  assert (Hlen : length (length <$> kept) = length (np_argsort (length <$> kept))).
  { by rewrite (Permutation_length (np_argsort_perm _)), length_seq. }
  rewrite Hlen, reorder_loop.
  2:{ eapply Forall_impl; [apply np_argsort_bound|].
      intros i Hi. simpl in Hi. by rewrite !length_fmap in *. }
  cbn [mbind res_bind]. destruct (decide _); [reflexivity|]. do 2 f_equal.
  unfold stored_order. fold kept. rewrite <- list_fmap_compose.
  apply Forall_fmap_ext. eapply Forall_impl; [apply np_argsort_bound|].
  intros i Hi. simpl in *. rewrite length_fmap in Hi.
  by apply list_lookup_total_fmap.
Qed.

Lemma stored_order_perm (self : DataLoader) (sketches : list (list Point3)) :
  stored_order self sketches ≡ₚ retained self sketches.
Proof.
  unfold stored_order. rewrite np_argsort_perm, length_fmap.
  set (kept := retained self sketches). clearbody kept.
  assert (Hid : (λ i, kept !!! i) <$> seq 0 (length kept) = kept); [|by rewrite Hid].
  apply list_eq. intros i. rewrite list_lookup_fmap.
  destruct (decide (i < length kept)) as [Hi|Hi].
  - rewrite lookup_seq_lt by exact Hi. simpl.
    by rewrite (list_lookup_lookup_total_lt kept i Hi).
  - rewrite lookup_seq_ge by lia. simpl. symmetry. apply lookup_ge_None. lia.
Qed.

Lemma stored_order_sorted (self : DataLoader) (sketches : list (list Point3)) :
  Sorted le (length <$> stored_order self sketches).
Proof.
  unfold stored_order. set (kept := retained self sketches).
  pose proof (np_argsort_sorted (length <$> kept)) as Hsorted.
  rewrite <- list_fmap_compose.
  assert (Heq : (length ∘ (λ i, kept !!! i)) <$> np_argsort (length <$> kept)
                = (λ i, (length <$> kept) !!! i) <$> np_argsort (length <$> kept));
    [|by rewrite Heq].
  apply Forall_fmap_ext. eapply Forall_impl; [apply np_argsort_bound|].
  intros i Hi. simpl in *. rewrite length_fmap in Hi.
  symmetry. by apply list_lookup_total_fmap.
Qed.

End Preprocess.

(** ** An index sort within the contract of [np.argsort] *)

Lemma insert_index_perm (a : list nat) (i : nat) (sorted : list nat) :
  insert_index a i sorted ≡ₚ i :: sorted.
Proof.
  induction sorted as [|j rest IH]; simpl; [reflexivity|].
  destruct (decide _); [reflexivity|]. rewrite IH. apply perm_swap.
Qed.

Lemma insert_index_sorted (a : list nat) (i : nat) (sorted : list nat) :
  Sorted le ((λ k, a !!! k) <$> sorted) →
  Sorted le ((λ k, a !!! k) <$> insert_index a i sorted).
Proof.
  induction sorted as [|j rest IH]; simpl; intros Hs.
  - repeat constructor.
  - destruct (decide (a !!! i < a !!! j)) as [Hlt|Hge]; simpl.
    + constructor; [exact Hs | constructor; lia].
    + apply Sorted_inv in Hs as [Hs Hhd]. constructor; [by apply IH|].
      destruct rest as [|k rest]; simpl.
      * constructor. lia.
      * destruct (decide (a !!! i < a !!! k)); simpl; constructor;
          [lia | by apply HdRel_inv in Hhd].
Qed.

Lemma insertion_argsort_perm (a : list nat) :
  insertion_argsort a ≡ₚ seq 0 (length a).
Proof.
  unfold insertion_argsort.
  assert (Hgen : ∀ xs acc, foldl (λ sorted i, insert_index a i sorted) acc xs ≡ₚ acc ++ xs).
  { induction xs as [|x xs IH]; intros acc; simpl; [by rewrite app_nil_r|].
    rewrite IH, insert_index_perm. simpl. apply Permutation_middle. }
  apply Hgen.
Qed.

Lemma insertion_argsort_sorted (a : list nat) :
  Sorted le ((λ i, a !!! i) <$> insertion_argsort a).
Proof.
  unfold insertion_argsort.
  assert (Hgen : ∀ xs acc,
             Sorted le ((λ k, a !!! k) <$> acc) →
             Sorted le ((λ k, a !!! k) <$> foldl (λ sorted i, insert_index a i sorted) acc xs)).
  { induction xs as [|x xs IH]; intros acc Hacc; simpl; [exact Hacc|].
    apply IH. by apply insert_index_sorted. }
  apply Hgen. constructor.
Qed.

Definition insertion_sort : NumpySort :=
  {| np_argsort := insertion_argsort;
     np_argsort_perm := insertion_argsort_perm;
     np_argsort_sorted := insertion_argsort_sorted |}.

(** ** The stored corpus *)

Lemma binary32_Qeq (x y : Q) : (x == y)%Q → binary32 x = binary32 y.
Proof. intros Hxy. unfold binary32. by rewrite (Qred_complete x y Hxy). Qed.


Lemma stored_sketch_pen (self : DataLoader) (sketch : list Point3) :
  length (stored_sketch self sketch) = length sketch ∧
  pen <$> stored_sketch self sketch
  = (λ p, binary32 (clamp (limit self) (pen p))) <$> sketch.
Proof.
  unfold stored_sketch. split; [by rewrite length_fmap|].
  rewrite <- list_fmap_compose. by apply list_fmap_ext.
Qed.

(** X30: for every input corpus and every index sort within the contract of
    [np.argsort], [preprocess] keeps exactly the sketches whose longest
    pen-stroke has at most [max_seq_length] points (the filter is on
    pen-strokes, not on the total length) and stores them in the order of
    the index array of [np.argsort] on their point counts, which is
    ascending in the point count.  A stored sketch has the points of the
    sketch it comes from, one for one, its pen column clamped and, for a
    [limit] within single precision, cast to single precision. *)
Theorem preprocess_filters_and_sorts `{NumpySort} (self : DataLoader)
    (sketches : list (list Point3)) :
  batch_size self ≠ 0 →
  ∃ self' kept,
    preprocess self sketches = Ok self' ∧
    kept ≡ₚ filter (λ sketch, get_max_stroke_len sketch ≤ max_seq_length self) sketches ∧
    kept = (λ i, retained self sketches !!! i)
             <$> np_argsort (length <$> retained self sketches) ∧
    Forall2 (λ stored sketch,
               length stored = length sketch ∧
               ((Qabs (limit self) <= binary32_max)%Q →
                pen <$> stored = (λ p, binary32 (clamp (limit self) (pen p))) <$> sketch))
            (strokes self') kept ∧
    Sorted le (length <$> kept) ∧
    Sorted le (length <$> strokes self').
Proof.
  intros Hbs. rewrite preprocess_eq, decide_False by exact Hbs.
  eexists _, (stored_order self sketches). split; [reflexivity|]. simpl.
  split; [apply stored_order_perm|]. split; [reflexivity|].
  assert (Heq : length <$> (stored_sketch self <$> stored_order self sketches)
                = length <$> stored_order self sketches).
  { rewrite <- list_fmap_compose. apply list_fmap_ext. intros _ sketch _. simpl.
    apply stored_sketch_pen. }
  split_and!.
  - apply Forall2_fmap_l, Forall_Forall2_diag, Forall_true. intros sketch.
    split; [|intros _]; apply stored_sketch_pen.
  - apply stored_order_sorted.
  - rewrite Heq. apply stored_order_sorted.
Qed.

(** A sketch of four points in two pen-strokes of two is kept with
    [max_seq_length = 2]; one pen-stroke of three points is not.  The two
    sketches that are kept have 4 points and 1 point: every index sort puts
    them in the same order. *)
Lemma preprocess_filters_and_sorts_witness :
  let self := mkLoader [] 1 2 1 0 1000 0 [] 0 in
  let sketches := [ [mk3 1 0 0; mk3 1 0 1; mk3 2 0 0; mk3 2 0 1];
                    [mk3 3 0 0; mk3 3 0 0; mk3 3 0 1];
                    [mk3 4 0 1] ] in
  ∃ self' kept,
    @preprocess insertion_sort self sketches = Ok self' ∧
    kept ≡ₚ [ [mk3 1 0 0; mk3 1 0 1; mk3 2 0 0; mk3 2 0 1]; [mk3 4 0 1] ] ∧
    kept = (λ i, retained self sketches !!! i)
             <$> insertion_argsort (length <$> retained self sketches) ∧
    Forall2 (λ stored sketch,
               length stored = length sketch ∧
               ((Qabs 1000 <= binary32_max)%Q →
                pen <$> stored = (λ p, binary32 (clamp 1000 (pen p))) <$> sketch))
            (strokes self') kept ∧
    Sorted le (length <$> kept) ∧
    Sorted le (length <$> strokes self').
Proof.
  apply (@preprocess_filters_and_sorts insertion_sort
           (mkLoader [] 1 2 1 0 1000 0 [] 0)
           [ [mk3 1 0 0; mk3 1 0 1; mk3 2 0 0; mk3 2 0 1];
             [mk3 3 0 0; mk3 3 0 0; mk3 3 0 1];
             [mk3 4 0 1] ]).
  simpl. lia.
Defined.

(** ** The clamp and the pen column (C10) *)

Lemma clamp_within (lim v : Q) :
  (- lim <= v)%Q → (v <= lim)%Q → clamp lim v = v.
Proof.
  intros Hlo Hhi. unfold clamp, Qmin, Qmax, GenericMinMax.gmin, GenericMinMax.gmax.
  destruct (v ?= lim)%Q eqn:Hc;
    try (apply Qgt_alt in Hc; exfalso; apply (Qlt_not_le _ _ Hc), Hhi);
    destruct (v ?= - lim)%Q eqn:Hc'; try reflexivity;
    apply Qlt_alt in Hc'; exfalso; apply (Qlt_not_le _ _ Hc'), Hlo.
Qed.

(** A clamped number is no larger in magnitude than [limit]: with a
    [limit] within the range of single precision, so is every number that
    is cast. *)
Lemma clamp_range (lim v : Q) : (Qabs (clamp lim v) <= Qabs lim)%Q.
Proof.
  apply Qabs_Qle_condition. unfold clamp. split.
  - apply Qle_trans with (- lim)%Q; [|apply Q.le_max_r].
    apply Qopp_le_compat, Qle_Qabs.
  - apply Q.max_lub.
    + apply Qle_trans with lim; [apply Q.le_min_r | apply Qle_Qabs].
    + rewrite <- (Qabs_opp lim). apply Qle_Qabs.
Qed.









(** ** A random generator that reads its draws off a tape *)

Lemma tape_permutation_perm (n : nat) (g : list Q) :
  (tape_permutation n g).1 ≡ₚ seq 0 n.
Proof. simpl. apply reverse_Permutation. Qed.

Lemma tape_rand_range (g : list Q) :
  (0 <= (tape_rand g).1)%Q ∧ ((tape_rand g).1 < 1)%Q.
Proof.
  destruct g as [|x g]; simpl; [split; [discriminate | reflexivity]|].
  destruct (Qle_bool 0 x) eqn:Hlo; simpl; [|split; [discriminate | reflexivity]].
  unfold Qltb. destruct (Qle_bool 1 x) eqn:Hhi; simpl;
    [split; [discriminate | reflexivity]|].
  split; [by apply Qle_bool_iff|].
  apply Qnot_le_lt. intros Hle. apply Qle_bool_iff in Hle. congruence.
Qed.

#[global] Instance tape_random : NumpyRandom (list Q) :=
  {| np_permutation := tape_permutation;
     np_rand := tape_rand;
     np_permutation_perm := tape_permutation_perm;
     np_rand_range := tape_rand_range |}.

(** ** Point dropping: the groups of [augment_strokes] (C7) *)

Lemma last_point_snoc (pre : list Point3) (c : Point3) : last_point (pre ++ [c]) = c.
Proof. unfold last_point. by rewrite last_snoc. Qed.

Lemma merged_snoc (h : Point3) (t : list Point3) (c : Point3) :
  merged ((h :: t) ++ [c])
  = mk3 (x3 (merged (h :: t)) + x3 c)%Q (y3 (merged (h :: t)) + y3 c)%Q
        (pen (merged (h :: t))).
Proof. simpl. by rewrite foldl_snoc. Qed.

Lemma pen_merged (h : Point3) (t : list Point3) : pen (merged (h :: t)) = pen h.
Proof.
  simpl. revert h. induction t as [|c t IH]; intros h; simpl; [reflexivity|].
  by rewrite IH.
Qed.

Lemma merged_singleton (p : Point3) : merged [p] = p.
Proof. reflexivity. Qed.

Lemma groups_ok_nil : groups_ok [].
Proof. intros gs g gs' Heq. by destruct gs. Qed.

(** Splitting a list that ends with a given element. *)
Lemma snoc_split_inv {A} (xs ys : list A) (x y : A) (zs : list A) :
  xs ++ [x] = ys ++ y :: zs →
  (zs = [] ∧ xs = ys ∧ x = y) ∨ (∃ zs', zs = zs' ++ [x] ∧ xs = ys ++ y :: zs').
Proof.
  intros Heq. destruct (decide (zs = [])) as [->|Hne].
  - left. apply app_inj_tail in Heq as [-> ->]. done.
  - right. destruct (exists_last Hne) as (zs' & z & ->).
    change (ys ++ y :: zs' ++ [z]) with (ys ++ (y :: zs') ++ [z]) in Heq.
    rewrite app_assoc in Heq. apply app_inj_tail in Heq as [-> ->]. eauto.
Qed.

Lemma groups_ok_new_group (groups : list (list Point3)) (c : Point3) :
  groups_ok groups → groups_ok (groups ++ [[c]]).
Proof.
  intros Hok gs g gs' Heq.
  apply snoc_split_inv in Heq as [(-> & -> & <-)|(zs & -> & ->)].
  - simpl. done.
  - by eapply Hok.
Qed.

Lemma groups_ok_drop_into_last (gs : list (list Point3)) (h : Point3)
    (t : list Point3) (c : Point3) :
  groups_ok (gs ++ [h :: t]) →
  (pen h == 0)%Q → (pen c == 0)%Q → ¬ (pen (last_point (concat gs)) == 1)%Q →
  groups_ok (gs ++ [(h :: t) ++ [c]]).
Proof.
  intros Hok Hh Hc Hbefore gs1 g gs2 Heq.
  apply snoc_split_inv in Heq as [(-> & <- & <-)|(zs & -> & ->)].
  - simpl. intros _. split; [exact Hh|]. split; [|exact Hbefore].
    apply Forall_app. split; [|by constructor].
    destruct t as [|c' t]; [constructor|].
    specialize (Hok gs (h :: c' :: t) [] eq_refl). simpl in Hok.
    by destruct Hok as (_ & Ht & _).
  - apply (Hok gs1 g (zs ++ [h :: t])). by rewrite <- app_assoc.
Qed.

Lemma aug_inv_init : aug_inv [] augment_init [].
Proof.
  split; simpl; try done.
  - apply groups_ok_nil.
  - constructor.
  - lia.
  - lia.
  - lia.
Qed.

Lemma Qeq_bool_0_1 (x : Q) : (x == 0)%Q → Qeq_bool x 1 = false.
Proof.
  intros Hx. apply not_true_iff_false. intros H1. apply Qeq_bool_iff in H1.
  rewrite Hx in H1. discriminate.
Qed.

Lemma deref_alloc_old (h : list Point3) (p : Point3) (a : nat) :
  a < length h → deref (h ++ [p]) a = deref h a.
Proof. intros Ha. unfold deref. by apply lookup_total_app_l. Qed.

Lemma deref_alloc_new (h : list Point3) (p : Point3) :
  deref (h ++ [p]) (length h) = p.
Proof. unfold deref. by apply list_lookup_total_middle. Qed.

Lemma deref_fmap_alloc (h : list Point3) (p : Point3) (addrs : list nat) :
  Forall (λ a, a < length h) addrs →
  deref (h ++ [p]) <$> addrs = deref h <$> addrs.
Proof.
  intros Hb. apply Forall_fmap_ext. eapply Forall_impl; [exact Hb|].
  intros a Ha. by apply deref_alloc_old.
Qed.

Lemma deref_alter_eq (f : Point3 → Point3) (h : list Point3) (a : nat) :
  a < length h → deref (alter f a h) a = f (deref h a).
Proof. intros Ha. unfold deref. by apply list_lookup_total_alter_eq. Qed.

Lemma deref_alter_ne (f : Point3 → Point3) (h : list Point3) (a b : nat) :
  a ≠ b → deref (alter f a h) b = deref h b.
Proof. intros Hab. unfold deref. by apply list_lookup_total_alter_ne. Qed.

(** The iteration that emits its candidate. *)
Lemma aug_inv_emit (pre : list Point3) (s : AugState) (groups : list (list Point3))
    (row : Point3) (count : nat) :
  aug_inv pre s groups →
  (0 < count → ¬ (pen (deref (a_heap s) (a_prev_stroke s)) == 1)%Q) →
  aug_inv (pre ++ [row])
    (mkAug (a_heap s ++ [row]) (a_result s ++ [length (a_heap s)])
       (length (a_heap s)) count (length (a_heap s)))
    (groups ++ [[row]]).
Proof.
  intros [Hcat Hok Hres Hnd Hb Hpb Hsb Hlast Hpen Hcnt] Hcount.
  split; simpl.
  - rewrite concat_app, Hcat. reflexivity.
  - by apply groups_ok_new_group.
  - rewrite !fmap_app, deref_fmap_alloc, Hres by exact Hb. simpl.
    by rewrite deref_alloc_new.
  - apply NoDup_app. split; [exact Hnd|]. split; [|apply NoDup_singleton].
    intros a Ha ->%list_elem_of_singleton.
    apply (proj1 (Forall_forall _ _) Hb) in Ha. simpl in Ha. lia.
  - rewrite length_app. simpl. apply Forall_app. split.
    + eapply Forall_impl; [exact Hb|]. simpl. intros; lia.
    + constructor; [lia | constructor].
  - rewrite length_app. simpl. lia.
  - rewrite length_app. simpl. lia.
  - intros _. split; [reflexivity | eauto].
  - by rewrite deref_alloc_new, last_point_snoc.
  - intros Hc gs g Heq. apply app_inj_tail in Heq as [<- _].
    rewrite Hcat, <- Hpen. by apply Hcount.
Qed.

(** The iteration that drops its candidate into [stroke]. *)
Lemma aug_inv_drop (pre : list Point3) (s : AugState) (groups : list (list Point3))
    (row : Point3) (count : nat) :
  aug_inv pre s groups →
  (pen row == 0)%Q →
  (pen (deref (a_heap s) (a_prev_stroke s)) == 0)%Q →
  0 < a_count s →
  let candidate := length (a_heap s) in
  let h := a_heap s ++ [row] in
  let h1 := alter (λ p, set_xy3 p (x3 p + x3 (deref h candidate))%Q (y3 p)) (a_stroke s) h in
  let h2 := alter (λ p, set_xy3 p (x3 p) (y3 p + y3 (deref h1 candidate))%Q) (a_stroke s) h1 in
  ∃ gs g,
    groups = gs ++ [g] ∧
    aug_inv (pre ++ [row])
      (mkAug h2 (a_result s) (a_prev_stroke s) count (a_stroke s))
      (gs ++ [g ++ [row]]).
Proof.
  intros [Hcat Hok Hres Hnd Hb Hpb Hsb Hlast Hpen Hcnt] Hrow Hprev Hpos.
  intros candidate h h1 h2.
  assert (Hne : groups ≠ []).
  { intros ->. simpl in Hcat. subst pre. rewrite Hprev in Hpen. discriminate. }
  destruct (exists_last Hne) as (gs & g & ->). exists gs, g. split; [reflexivity|].
  destruct (Hlast Hne) as (Hps & r0 & Hr0).
  pose proof (Hok gs g [] eq_refl) as Hg.
  destruct g as [|h0 t0]; [done|].
  rewrite Hr0, !fmap_app in Hres. simpl in Hres.
  apply app_inj_tail in Hres as [Hres0 Hlast0].
  change (foldl _ h0 t0) with (merged (h0 :: t0)) in Hlast0.
  assert (Hstroke_ne : a_stroke s ≠ candidate) by (unfold candidate; lia).
  assert (Hcand1 : deref h1 candidate = row).
  { unfold h1. rewrite deref_alter_ne by exact Hstroke_ne. apply deref_alloc_new. }
  assert (Hlen : length h2 = length (a_heap s) + 1).
  { unfold h2, h1, h. rewrite !length_alter, length_app. reflexivity. }
  assert (Hnew : deref h2 (a_stroke s) = merged ((h0 :: t0) ++ [row])).
  { unfold h2. rewrite deref_alter_eq
      by (unfold h1, h; rewrite length_alter, length_app; simpl; lia).
    rewrite Hcand1. unfold h1. rewrite deref_alter_eq
      by (unfold h; rewrite length_app; simpl; lia).
    unfold h, candidate. rewrite deref_alloc_new, deref_alloc_old by exact Hsb.
    rewrite Hlast0, merged_snoc. reflexivity. }
  assert (Hold : ∀ a, a < length (a_heap s) → a ≠ a_stroke s →
                      deref h2 a = deref (a_heap s) a).
  { intros a Ha Hna. unfold h2, h1.
    rewrite !deref_alter_ne by (intros Heq; by apply Hna).
    by apply deref_alloc_old. }
  assert (Hh0 : (pen h0 == 0)%Q).
  { rewrite <- (pen_merged h0 t0), <- Hlast0, <- Hps. exact Hprev. }
  assert (Hbefore : ¬ (pen (last_point (concat gs)) == 1)%Q) by (by eapply Hcnt).
  split; simpl.
  - rewrite concat_app in *. simpl in *. rewrite !app_nil_r in *.
    by rewrite <- Hcat, <- !app_assoc.
  - by apply groups_ok_drop_into_last.
  - rewrite Hr0, !fmap_app. simpl. rewrite Hnew. f_equal.
    rewrite <- Hres0. apply Forall_fmap_ext, Forall_forall. intros a Ha.
    apply Hold.
    + apply (proj1 (Forall_forall _ _) Hb). rewrite Hr0. apply elem_of_app. by left.
    + intros ->. rewrite Hr0 in Hnd. apply NoDup_app in Hnd as (_ & Hdisj & _).
      apply (Hdisj _ Ha). by apply list_elem_of_singleton.
  - exact Hnd.
  - rewrite Hlen. eapply Forall_impl; [exact Hb|]. simpl. intros; lia.
  - lia.
  - lia.
  - intros _. split; [exact Hps | eauto].
  - rewrite last_point_snoc, Hrow, Hps, Hnew.
    change ((h0 :: t0) ++ [row]) with (h0 :: (t0 ++ [row])).
    by rewrite pen_merged.
  - intros _ gs1 g1 Heq. by apply app_inj_tail in Heq as [<- _].
Qed.

Section Augment.
Context `{NumpyRandom G}.

Lemma augment_step_inv (prob : Q) (pre : list Point3) (s : AugState) (g : G)
    (groups : list (list Point3)) (row : Point3) :
  aug_inv pre s groups →
  ∃ groups', aug_inv (pre ++ [row]) (augment_step prob (s, g) row).1 groups'.
Proof.
  intros Hinv. unfold augment_step, alloc.
  destruct row as [x y p]. cbn [x3 y3 pen].
  destruct (np_rand g) as [urnd g'].
  rewrite deref_alloc_new, deref_alloc_old by apply Hinv. cbn [pen].
  set (prev := deref (a_heap s) (a_prev_stroke s)).
  destruct (Qeq_bool p 0 && Qeq_bool (pen prev) 0
            && bool_decide (2 < (if Qeq_bool p 1 || Qeq_bool (pen prev) 1
                                 then 0 else a_count s + 1))
            && Qltb urnd prob) eqn:Hcond; cbn [fst].
  - apply andb_true_iff in Hcond as [Hcond _].
    apply andb_true_iff in Hcond as [Hcond Hcount].
    apply andb_true_iff in Hcond as [Hp Hprev].
    apply Qeq_bool_iff in Hp, Hprev.
    rewrite (Qeq_bool_0_1 p Hp), (Qeq_bool_0_1 _ Hprev) in Hcount |- *.
    cbn [orb] in Hcount |- *. apply bool_decide_eq_true in Hcount.
    destruct (aug_inv_drop pre s groups (mk3 x y p) (a_count s + 1) Hinv Hp Hprev)
      as (gs & g0 & _ & Hinv'); [lia|].
    rewrite deref_alloc_new in Hinv'. eauto.
  - exists (groups ++ [[mk3 x y p]]). apply aug_inv_emit; [exact Hinv|].
    intros Hpos Hprev. fold prev in Hprev. apply Qeq_bool_iff in Hprev.
    rewrite Hprev, orb_true_r in Hpos. lia.
Qed.

Lemma augment_loop_inv (prob : Q) (strokes : list Point3) (g : G) :
  ∃ groups, aug_inv strokes (foldl (augment_step prob) (augment_init, g) strokes).1 groups.
Proof.
  induction strokes as [|row strokes IH] using rev_ind.
  - exists []. apply aug_inv_init.
  - destruct IH as [groups Hinv]. rewrite foldl_snoc.
    destruct (foldl (augment_step prob) (augment_init, g) strokes) as [s g'].
    by eapply augment_step_inv.
Qed.

End Augment.

(** A point of a concatenation lies in one of the lists. *)
Lemma concat_split_inv {A} (groups : list (list A)) (pre : list A) (p : A)
    (post : list A) :
  concat groups = pre ++ p :: post →
  ∃ gs g1 g2 gs',
    groups = gs ++ (g1 ++ p :: g2) :: gs' ∧ pre = concat gs ++ g1 ∧
    post = g2 ++ concat gs'.
Proof.
  revert pre. induction groups as [|g rest IH]; intros pre Heq; simpl in Heq.
  - by destruct pre.
  - apply app_eq_app in Heq as (l & [[Hg Hrest]|[Hpre Hrest]]).
    + destruct l as [|x l].
      * simpl in Hrest. rewrite app_nil_r in Hg. subst g.
        destruct (IH [] (eq_sym Hrest)) as (gs & g1 & g2 & gs' & -> & Hnil & ->).
        exists (pre :: gs), g1, g2, gs'. simpl.
        by rewrite <- app_assoc, <- Hnil, app_nil_r.
      * injection Hrest as <- ->. exists [], pre, l, rest. by subst g.
    + destruct (IH l Hrest) as (gs & g1 & g2 & gs' & -> & -> & ->).
      exists (g :: gs), g1, g2, gs'. simpl. by rewrite Hpre, <- app_assoc.
Qed.

(** In well-formed groups, a point that starts or ends a pen-stroke is a
    group of its own. *)
Lemma stroke_end_is_group (groups : list (list Point3)) (pre : list Point3)
    (p : Point3) (post : list Point3) :
  groups_ok groups →
  concat groups = pre ++ p :: post →
  (pen (last_point pre) == 1)%Q ∨ (pen p == 1)%Q →
  ∃ gs gs', groups = gs ++ [p] :: gs' ∧ concat gs = pre.
Proof.
  intros Hok Hcat Hend.
  apply concat_split_inv in Hcat as (gs & g1 & g2 & gs' & -> & -> & ->).
  pose proof (Hok gs _ gs' eq_refl) as Hg.
  assert (Hzero : ∀ q : Q, (q == 0)%Q → ¬ (q == 1)%Q).
  { intros q Hq H1. rewrite Hq in H1. discriminate. }
  destruct g1 as [|h t1]; simpl in Hg.
  - rewrite app_nil_r in Hend. destruct g2 as [|c g2].
    + exists gs, gs'. by rewrite app_nil_r.
    + destruct Hg as (Hp & _ & Hbefore); [done|].
      destruct Hend as [Hend|Hend]; [done | by apply Hzero in Hp].
  - exfalso. destruct Hg as (Hh & Ht & _); [by destruct t1|].
    apply Forall_app in Ht as [Ht1 Hp]. apply Forall_cons in Hp as [Hp _].
    destruct Hend as [Hend|Hend]; [|by apply Hzero in Hp].
    revert Hend. apply Hzero. unfold last_point.
    rewrite last_app_cons.
    destruct t1 as [|c t1 _] using rev_ind; [exact Hh|].
    change (h :: t1 ++ [c]) with ((h :: t1) ++ [c]). rewrite last_snoc. simpl.
    apply Forall_app in Ht1 as [_ Hc]. by apply Forall_cons in Hc as [Hc _].
Qed.

(** C7: for every stroke-3 sequence, every [prob] and every realisation of
    the random draws, the input of [augment_strokes] is cut into consecutive
    groups, each an emitted point followed by the points dropped after it,
    and the output has one point per group: the emitted point with the
    offsets of the dropped points of its group added to it one after the
    other ([merged]).  When a group has dropped points, none of its points is
    a pen lift, so all of them lie in one pen-stroke and no offset crosses a
    pen lift; its emitted point does not follow a pen lift either.  The first
    point of every pen-stroke (the first point of the input, or a point right
    after a pen lift) and the last point of every pen-stroke (a point with
    pen lift 1) is a group of its own: it is in the output, unchanged, at its
    place. *)
Theorem augment_strokes_keeps_stroke_ends `{NumpyRandom G} (strokes : list Point3)
    (prob : Q) (g : G) :
  ∃ groups : list (list Point3),
    concat groups = strokes ∧
    (augment_strokes strokes prob g).1 = merged <$> groups ∧
    (∀ gs group gs',
       groups = gs ++ group :: gs' →
       ∃ h t, group = h :: t ∧
              (t ≠ [] →
               Forall (λ c, (pen c == 0)%Q) (h :: t) ∧
               ¬ (pen (last_point (concat gs)) == 1)%Q)) ∧
    (∀ pre p post,
       strokes = pre ++ p :: post →
       (pen (last_point pre) == 1)%Q ∨ (pen p == 1)%Q →
       ∃ gs gs',
         groups = gs ++ [p] :: gs' ∧ concat gs = pre ∧
         (augment_strokes strokes prob g).1
         = (merged <$> gs) ++ p :: (merged <$> gs')).
Proof.
  destruct (augment_loop_inv prob strokes g) as [groups Hinv].
  unfold augment_strokes.
  destruct (foldl (augment_step prob) (augment_init, g) strokes) as [s g'].
  simpl in *. destruct Hinv as [Hcat Hok Hres _ _ _ _ _ _ _].
  exists groups. split; [exact Hcat|]. split; [exact Hres|]. split.
  - intros gs group gs' Heq. pose proof (Hok gs group gs' Heq) as Hg.
    destruct group as [|h t]; [done|]. exists h, t. split; [reflexivity|].
    intros Ht. destruct (Hg Ht) as (Hh & Hdropped & Hbefore).
    split; [by constructor | exact Hbefore].
  - intros pre p post Hsplit Hend. rewrite Hsplit in Hcat.
    destruct (stroke_end_is_group groups pre p post Hok Hcat Hend)
      as (gs & gs' & -> & Hpre).
    exists gs, gs'. split; [reflexivity|]. split; [exact Hpre|].
    rewrite Hres, fmap_app. reflexivity.
Qed.

(** With draws that always fall below [prob], the fourth and fifth point of
    a pen-stroke of six are dropped into the third, and the three points
    after the pen lift are kept. *)
Example augment_strokes_example :
  (augment_strokes
     [mk3 1 0 0; mk3 2 0 0; mk3 3 0 0; mk3 4 1 0; mk3 5 1 0; mk3 6 0 1;
      mk3 7 0 0; mk3 8 0 0; mk3 9 0 1]
     (1 # 2) ([] : list Q)).1
  = [mk3 1 0 0; mk3 2 0 0; mk3 (3 + 4 + 5) (0 + 1 + 1) 0; mk3 6 0 1;
     mk3 7 0 0; mk3 8 0 0; mk3 9 0 1].
Proof. reflexivity. Qed.

(** ** Pen-stroke lengths *)

(** [split_sketch] cuts after every pen lift but the last one: the points
    after the last pen lift stay with the last pen-stroke. *)
Example split_sketch_example :
  split_sketch [mk3 1 2 0; mk3 3 4 1; mk3 5 6 1; mk3 7 8 0; mk3 9 1 1; mk3 1 1 0]
  = [ [mk3 1 2 0; mk3 3 4 1]; [mk3 5 6 1]; [mk3 7 8 0; mk3 9 1 1; mk3 1 1 0] ].
Proof. reflexivity. Qed.

Lemma np_split_lengths {A} (ary : list A) (start : nat) (indices : list nat) :
  Forall (λ i, i ≤ length ary) indices →
  length <$> np_split ary start indices = gaps (length ary) start indices.
Proof.
  revert start. induction indices as [|i indices IH]; intros start Hb; simpl.
  - by rewrite length_drop.
  - apply Forall_cons in Hb as [Hi Hb]. rewrite IH by exact Hb.
    rewrite length_take, length_drop. f_equal. lia.
Qed.

Lemma where_succ_bound (p : nat) (flags : list bool) :
  Forall (λ i, i ≤ p + length flags) (where_succ p flags).
Proof.
  revert p. induction flags as [|b flags IH]; intros p; simpl; [constructor|].
  specialize (IH (S p)).
  assert (Hrest : Forall (λ i, i ≤ p + S (length flags)) (where_succ (S p) flags)).
  { eapply Forall_impl; [exact IH|]. simpl. intros; lia. }
  destruct b; [constructor; [lia | exact Hrest] | exact Hrest].
Qed.

Lemma where_succ_nil (p : nat) (flags : list bool) :
  where_succ p flags = [] ↔ existsb id flags = false.
Proof.
  revert p. induction flags as [|b flags IH]; intros p; simpl; [done|].
  destruct b; simpl; [split; discriminate | apply IH].
Qed.

Lemma seglens_from_no_lift (cur : nat) (flags : list bool) :
  existsb id flags = false → seglens_from cur flags = [cur + length flags].
Proof.
  revert cur. induction flags as [|b flags IH]; intros cur Hex; simpl in *.
  - f_equal. lia.
  - apply orb_false_iff in Hex as [Hb Hex]. unfold id in Hb. subst b. simpl.
    rewrite IH by exact Hex. f_equal. lia.
Qed.

Lemma but_last_cons {A} (x : A) (xs : list A) :
  but_last (x :: xs) = if decide (xs = []) then [] else x :: but_last xs.
Proof.
  unfold but_last. destruct xs as [|y xs]; simpl; [reflexivity|].
  by rewrite Nat.sub_0_r.
Qed.

Lemma Forall_but_last {A} (P : A → Prop) (xs : list A) :
  Forall P xs → Forall P (but_last xs).
Proof. unfold but_last. apply Forall_take. Qed.

Lemma gaps_where_succ (s p : nat) (flags : list bool) :
  s ≤ p →
  gaps (p + length flags) s (but_last (where_succ p flags))
  = seglens_from (p - s) flags.
Proof.
  revert s p. induction flags as [|b flags IH]; intros s p Hs; simpl.
  - f_equal. lia.
  - destruct b; simpl.
    + rewrite but_last_cons.
      destruct (decide (where_succ (S p) flags = [])) as [Hnil|Hnil].
      * apply where_succ_nil in Hnil. rewrite Hnil. simpl.
        rewrite seglens_from_no_lift by exact Hnil. f_equal. lia.
      * assert (Hex : existsb id flags = true).
        { destruct (existsb id flags) eqn:Hex; [reflexivity|].
          by apply (where_succ_nil (S p)) in Hex. }
        rewrite Hex. simpl. f_equal; [lia|].
        replace (p + S (length flags)) with (S p + length flags) by lia.
        rewrite (IH (S p) (S p)) by lia. by rewrite Nat.sub_diag.
    + replace (p + S (length flags)) with (S p + length flags) by lia.
      rewrite (IH s (S p)) by lia. f_equal. lia.
Qed.

(** The lengths of the pen-strokes that [split_sketch] returns. *)
Lemma split_sketch_lengths (data : list Point3) :
  length <$> split_sketch data = seglens_from 0 (is_lift <$> data).
Proof.
  unfold split_sketch. rewrite np_split_lengths.
  - rewrite <- (length_fmap is_lift data).
    apply (gaps_where_succ 0 0). lia.
  - apply Forall_but_last. rewrite <- (length_fmap is_lift data).
    apply (where_succ_bound 0).
Qed.

Lemma seglens_from_nonempty (cur : nat) (flags : list bool) :
  seglens_from cur flags ≠ [].
Proof.
  revert cur. induction flags as [|b flags IH]; intros cur; simpl; [done|].
  destruct (b && existsb id flags); [done | apply IH].
Qed.

Lemma split_sketch_nonempty (data : list Point3) : split_sketch data ≠ [].
Proof.
  intros Hnil. apply (seglens_from_nonempty 0 (is_lift <$> data)).
  by rewrite <- split_sketch_lengths, Hnil.
Qed.

Lemma dropped_refl (flags : list bool) : dropped flags flags.
Proof. induction flags; by constructor. Qed.

Lemma dropped_existsb (inp out : list bool) :
  dropped inp out → existsb id out = existsb id inp.
Proof. induction 1; simpl; congruence. Qed.

Lemma dropped_seglens (inp out : list bool) :
  dropped inp out →
  ∀ c c', c' ≤ c → Forall2 le (seglens_from c' out) (seglens_from c inp).
Proof.
  induction 1 as [|b inp out Hd IH|inp out Hd IH]; intros c c' Hc; simpl.
  - by repeat constructor.
  - rewrite (dropped_existsb inp out Hd).
    destruct (b && existsb id inp).
    + constructor; [lia | by apply IH].
    + apply IH. lia.
  - apply IH. lia.
Qed.

Lemma max_list_le (xs ys : list nat) :
  Forall2 le xs ys → max_list xs ≤ max_list ys.
Proof. induction 1; simpl; lia. Qed.

(** Leaving out points that are not pen lifts makes no pen-stroke longer. *)
Lemma get_max_stroke_len_dropped (inp out : list Point3) :
  dropped (is_lift <$> inp) (is_lift <$> out) →
  get_max_stroke_len out ≤ get_max_stroke_len inp.
Proof.
  intros Hd. unfold get_max_stroke_len. rewrite !split_sketch_lengths.
  apply max_list_le. by apply dropped_seglens.
Qed.

Lemma is_lift_merged (h : Point3) (t : list Point3) :
  is_lift (merged (h :: t)) = is_lift h.
Proof. unfold is_lift. by rewrite pen_merged. Qed.

Lemma dropped_groups (groups : list (list Point3)) :
  groups_ok groups →
  dropped (is_lift <$> concat groups) (is_lift <$> (merged <$> groups)).
Proof.
  intros Hok.
  assert (Htails : Forall (λ g, ∃ h t, g = h :: t ∧ Forall (λ c, (pen c == 0)%Q) t) groups).
  { apply Forall_forall. intros g Hg.
    apply list_elem_of_split in Hg as (gs & gs' & ->).
    specialize (Hok gs g gs' eq_refl). destruct g as [|h t]; [done|].
    exists h, t. split; [reflexivity|]. destruct t as [|c t]; [constructor|].
    by destruct Hok as (_ & Ht & _). }
  clear Hok. induction Htails as [|g groups (h & t & -> & Ht) _ IH]; simpl.
  - constructor.
  - rewrite fmap_app. change (foldl _ h t) with (merged (h :: t)).
    rewrite is_lift_merged. constructor.
    induction Ht as [|c t Hc _ IHt]; simpl; [exact IH|].
    unfold is_lift at 1. rewrite (Qeq_bool_0_1 _ Hc). by constructor.
Qed.

Section AugmentLengths.
Context `{NumpyRandom G}.

(** What [augment_strokes] returns is no longer, pen-stroke by pen-stroke,
    than its input, and is not empty when its input is not. *)
Lemma augment_strokes_max_stroke_len (strokes : list Point3) (prob : Q) (g : G) :
  get_max_stroke_len (augment_strokes strokes prob g).1 ≤ get_max_stroke_len strokes.
Proof.
  destruct (augment_loop_inv prob strokes g) as [groups Hinv].
  unfold augment_strokes.
  destruct (foldl (augment_step prob) (augment_init, g) strokes) as [s g'].
  simpl in *. destruct Hinv as [Hcat Hok Hres _ _ _ _ _ _ _].
  apply get_max_stroke_len_dropped. rewrite Hres, <- Hcat.
  by apply dropped_groups.
Qed.

Lemma augment_strokes_nonempty (strokes : list Point3) (prob : Q) (g : G) :
  strokes ≠ [] → (augment_strokes strokes prob g).1 ≠ [].
Proof.
  intros Hne. destruct (augment_loop_inv prob strokes g) as [groups Hinv].
  unfold augment_strokes.
  destruct (foldl (augment_step prob) (augment_init, g) strokes) as [s g'].
  simpl in *. destruct Hinv as [Hcat _ Hres _ _ _ _ _ _ _].
  rewrite Hres. destruct groups; [by subst strokes | done].
Qed.

Lemma random_scale_flags (self : DataLoader) (data : list Point3) (g : G) :
  is_lift <$> (random_scale self data g).1 = is_lift <$> data ∧
  length (random_scale self data g).1 = length data.
Proof.
  unfold random_scale. destruct (np_rand g) as [r1 g1].
  destruct (np_rand g1) as [r2 g2]. simpl. split.
  - rewrite <- !list_fmap_compose. apply list_fmap_ext. intros _ p _. reflexivity.
  - by rewrite !length_fmap.
Qed.

End AugmentLengths.

(** ** The stroke-batch queue (C1) *)

Lemma set_queue_id (self : DataLoader) :
  set_queue self (stroke_batch_queue self) = self.
Proof. by destruct self. Qed.

Lemma set_queue_twice (self : DataLoader) (q q' : list MiniBatch) :
  set_queue (set_queue self q) q' = set_queue self q'.
Proof. reflexivity. Qed.

Section Queue.
Context `{NumpyRandom G}.

Lemma get_sketch_step_total (self : DataLoader) (i : nat)
    (sketches : list (list Point3)) (num_strokes : list Q) (g : G) :
  corpus_ready self → i < length (strokes self) →
  ∃ sketch num g',
    get_sketch_step self i (sketches, num_strokes, g)
    = Ok (sketches ++ [sketch], num_strokes ++ [num], g') ∧
    get_max_stroke_len sketch ≤ max_seq_length self.
Proof.
  intros [Hfit Haug] Hi. unfold get_sketch_step, py_index.
  destruct (lookup_lt_is_Some_2 _ _ Hi) as [sketch Hsk]. rewrite Hsk.
  cbn [mbind res_bind].
  pose proof (proj1 (Forall_lookup _ _) Hfit i sketch Hsk) as Hlen. simpl in Hlen.
  pose proof (random_scale_flags self sketch g) as [Hflags Hsame].
  destruct (random_scale self sketch g) as [data g1]. simpl in *.
  assert (Hdata : get_max_stroke_len data ≤ max_seq_length self).
  { etrans; [|exact Hlen]. apply get_max_stroke_len_dropped.
    rewrite Hflags. apply dropped_refl. }
  destruct (Qltb 0 (augment_stroke_prob self)) eqn:Hprob.
  - pose proof (augment_strokes_max_stroke_len data (augment_stroke_prob self) g1) as Hmax.
    pose proof (augment_strokes_nonempty data (augment_stroke_prob self) g1) as Hne.
    destruct (augment_strokes data (augment_stroke_prob self) g1) as [data_copy g2].
    simpl in *. rewrite decide_False.
    + eexists _, _, _. split; [reflexivity | lia].
    + apply Hne. destruct Haug as [Hle|Hall].
      * apply Qle_bool_iff in Hle. unfold Qltb in Hprob. by rewrite Hle in Hprob.
      * pose proof (proj1 (Forall_lookup _ _) Hall i sketch Hsk) as Hsketch.
        simpl in Hsketch. intros ->. destruct sketch; [done | discriminate].
  - eexists _, _, _. split; [reflexivity | exact Hdata].
Qed.

Lemma get_sketches_total (self : DataLoader) (indices : list nat) (g : G) :
  corpus_ready self →
  Forall (λ i, i < length (strokes self)) indices →
  ∃ sketches num_strokes g',
    _get_sketches_from_indices self indices g = Ok (sketches, num_strokes, g') ∧
    length sketches = length indices ∧
    Forall (λ sketch, get_max_stroke_len sketch ≤ max_seq_length self) sketches.
Proof.
  intros Hready Hidx. unfold _get_sketches_from_indices.
  destruct (for_each_total (get_sketch_step self)
              (λ pre st, length st.1.1 = length pre ∧
                         Forall (λ sketch, get_max_stroke_len sketch ≤ max_seq_length self)
                                st.1.1)
              indices ([], [], g)) as ([[sketches nums] g'] & Hrun & Hlen & Hfit).
  - simpl. split; [reflexivity | constructor].
  - intros pre i post [[sketches nums] g1] Hsplit [Hlen Hfit]. simpl in *.
    assert (Hi : i < length (strokes self)).
    { apply (proj1 (Forall_forall _ _) Hidx). rewrite Hsplit.
      apply elem_of_app. right. by left. }
    destruct (get_sketch_step_total self i sketches nums g1 Hready Hi)
      as (sketch & num & g2 & Hstep & Hsk).
    eexists. split; [exact Hstep|]. simpl. split.
    + rewrite !length_app, Hlen. reflexivity.
    + apply Forall_app. split; [exact Hfit | by constructor].
  - simpl in *. rewrite Hrun. cbn [mbind res_bind].
    eexists _, _, _. split; [reflexivity|]. by split.
Qed.

(** A call on a queue that is not empty takes its head and draws nothing. *)
Lemma random_stroke_batch_dequeue (self : DataLoader) (g : G)
    (batch : MiniBatch) (queue : list MiniBatch) :
  stroke_batch_queue self = batch :: queue →
  random_stroke_batch self g = Ok (batch, set_queue self queue, g).
Proof.
  intros Hq. unfold random_stroke_batch.
  rewrite decide_False by (by rewrite Hq). cbn [mbind res_bind]. by rewrite Hq.
Qed.

Lemma successive_calls_drain (queue : list MiniBatch) (self : DataLoader) (g : G) :
  stroke_batch_queue self = queue →
  successive_calls (length queue) self g = Ok (queue, set_queue self [], g).
Proof.
  revert self. induction queue as [|batch queue IH]; intros self Hq; simpl.
  - by rewrite <- Hq, set_queue_id.
  - rewrite (random_stroke_batch_dequeue self g batch queue Hq).
    cbn [mbind res_bind]. rewrite (IH (set_queue self queue)) by reflexivity.
    reflexivity.
Qed.

End Queue.

(** A loader straight out of [preprocess] is ready when the clamp leaves the
    pen column alone: with [limit >= 1] and pen lifts that are 0 or 1, the
    stored sketches have the pen-strokes of the input sketches, which the
    filter bounds. *)
Lemma preprocess_ready `{NumpySort} (self self' : DataLoader)
    (sketches : list (list Point3)) :
  preprocess self sketches = Ok self' →
  (1 <= limit self)%Q →
  Forall (Forall valid_pen) sketches →
  Forall (λ sketch, get_max_stroke_len sketch ≤ max_seq_length self') (strokes self') ∧
  (Forall (λ sketch, sketch ≠ []) sketches → Forall (λ sketch, sketch ≠ []) (strokes self')).
Proof.
  intros Hrun Hlim Hvalid. rewrite preprocess_eq in Hrun.
  destruct (decide (batch_size self = 0)); [discriminate|]. injection Hrun as <-.
  simpl. pose proof (stored_order_perm self sketches) as Hperm.
  assert (Hkept : Forall (λ sketch, Forall valid_pen sketch ∧
                                    get_max_stroke_len sketch ≤ max_seq_length self)
                         (stored_order self sketches)).
  { rewrite Hperm. unfold retained. apply Forall_forall. intros sketch Hsk.
    apply list_elem_of_filter in Hsk as [Hlen Hsk]. split; [|exact Hlen].
    by apply (proj1 (Forall_forall _ _) Hvalid). }
  split.
  - apply Forall_fmap. eapply Forall_impl; [exact Hkept|].
    intros sketch [Hpen Hlen]. simpl. etrans; [|exact Hlen].
    apply get_max_stroke_len_dropped.
    assert (Hflags : is_lift <$> stored_sketch self sketch = is_lift <$> sketch);
      [|rewrite Hflags; apply dropped_refl].
    unfold stored_sketch. rewrite <- list_fmap_compose.
    apply Forall_fmap_ext. eapply Forall_impl; [exact Hpen|].
    intros p Hp. unfold is_lift. simpl. rewrite clamp_within.
    + destruct Hp as [Hp|Hp]; rewrite (binary32_Qeq _ _ Hp);
        symmetry; [|by apply Qeq_bool_iff].
      destruct (Qeq_bool (pen p) 1) eqn:E; [|done].
      apply Qeq_bool_iff in E. rewrite Hp in E. discriminate.
    + apply Qle_trans with 0%Q.
      * apply (Qopp_le_compat 0 (limit self)). by apply Qle_trans with 1%Q.
      * destruct Hp as [Hp|Hp]; rewrite Hp; discriminate.
    + apply Qle_trans with 1%Q; [|exact Hlim].
      destruct Hp as [Hp|Hp]; rewrite Hp; discriminate.
  - intros Hne. apply Forall_fmap, Forall_forall. intros sketch Hsk. simpl.
    rewrite Hperm in Hsk. unfold retained in Hsk.
    apply list_elem_of_filter in Hsk as [_ Hsk].
    pose proof (proj1 (Forall_forall _ _) Hne sketch Hsk) as Hsketch.
    simpl in Hsketch. unfold stored_sketch. by destruct sketch.
Qed.

(** C1, the claim as stated fails: a loader built from a corpus of one
    sketch with [batch_size = 2] has a preprocessed corpus that is not empty
    and an empty queue; the cohort drawn from a permutation of one index has
    one sketch only, [pad_stroke_batch] looks for the sketch of row 1, and
    the call raises [IndexError]. *)
Lemma random_stroke_batch_small_corpus :
  ∃ self,
    @DataLoader_init insertion_sort [[mk3 1 1 1]] 2 5 1 0 0 1000 = Ok self ∧
    strokes self ≠ [] ∧
    stroke_batch_queue self = [] ∧
    random_stroke_batch self ([] : list Q) = Raise IndexError.
Proof.
  eexists. split; [reflexivity|]. split; [discriminate|]. split; reflexivity.
Qed.

(** C1 (amended): for every loader whose corpus has at least [batch_size]
    sketches ([batch_size > 0]), each with pen-strokes of at most
    [max_seq_length] points (and none empty if augmentation is on): when the
    queue is empty, a call of [random_stroke_batch] draws a cohort of
    [batch_size] sketches (the first [batch_size] indices of a random
    permutation), builds a run of exactly [k] mini-batches, [k] the largest
    number of pen-strokes in the cohort, enqueues them in the order
    [0 .. k-1], and returns the first; [k] successive calls return the [k]
    mini-batches of the run in that order, with no further draw from the
    random generator, and leave the queue empty. *)
Theorem random_stroke_batch_run `{NumpyRandom G} (self : DataLoader) (g : G) :
  stroke_batch_queue self = [] →
  0 < batch_size self →
  batch_size self ≤ length (strokes self) →
  Forall (λ sketch, get_max_stroke_len sketch ≤ max_seq_length self) (strokes self) →
  (augment_stroke_prob self <= 0)%Q ∨ Forall (λ sketch, sketch ≠ []) (strokes self) →
  ∃ sketches num_strokes g' run,
    _get_sketches_from_indices self
      (take (batch_size self) (np_permutation (length (strokes self)) g).1)
      (np_permutation (length (strokes self)) g).2
    = Ok (sketches, num_strokes, g') ∧
    length sketches = batch_size self ∧
    pad_stroke_batch self (split_sketch <$> sketches) = Ok run ∧
    length run = max_list ((λ sketch, length (split_sketch sketch)) <$> sketches) ∧
    (∀ j, j < length run →
          run !! j = Some (stroke_batch self (split_sketch <$> sketches) j)) ∧
    (∃ batch queue,
       run = batch :: queue ∧
       random_stroke_batch self g = Ok (batch, set_queue self queue, g')) ∧
    successive_calls (length run) self g = Ok (run, set_queue self [], g').
Proof.
  intros Hq Hbs Hn Hfit Haug.
  pose proof (np_permutation_perm (length (strokes self)) g) as Hperm.
  destruct (np_permutation (length (strokes self)) g) as [perm g0] eqn:Hdraw.
  simpl in *.
  assert (Hidx : Forall (λ i, i < length (strokes self)) (take (batch_size self) perm)).
  { apply Forall_take, Forall_forall. intros i Hi. rewrite Hperm in Hi.
    by apply elem_of_seq in Hi as [_ Hi]. }
  destruct (get_sketches_total self (take (batch_size self) perm) g0
              (conj Hfit Haug) Hidx) as (sketches & nums & g' & Hget & Hlen & Hsk).
  rewrite length_take, (Permutation_length Hperm), length_seq in Hlen.
  assert (Hcohort : length sketches = batch_size self) by lia. clear Hlen.
  set (cohort := split_sketch <$> sketches).
  assert (Hne : cohort ≠ []).
  { intros Hnil. apply (f_equal length) in Hnil. unfold cohort in Hnil.
    rewrite length_fmap in Hnil. simpl in Hnil. lia. }
  assert (Hpad : pad_stroke_batch self cohort
                 = Ok (stroke_batch self cohort <$> seq 0 (max_num_strokes cohort))).
  { apply pad_stroke_batch_total; [exact Hne|]. intros j i _ Hi.
    destruct (lookup_lt_is_Some_2 sketches i) as [sketch Hsketch]; [lia|].
    exists (split_sketch sketch). split.
    - unfold cohort. by rewrite list_lookup_fmap, Hsketch.
    - intros stroke Hstroke.
      pose proof (proj1 (Forall_lookup _ _) Hsk i sketch Hsketch) as Hmax.
      simpl in Hmax. etrans; [|exact Hmax]. unfold get_max_stroke_len.
      apply max_list_elem_of_le, list_elem_of_fmap. exists stroke.
      split; [reflexivity | by eapply list_elem_of_lookup_2]. }
  set (run := stroke_batch self cohort <$> seq 0 (max_num_strokes cohort)) in *.
  assert (Hk : 0 < max_num_strokes cohort).
  { destruct sketches as [|sketch sketches]; [simpl in Hcohort; lia|].
    unfold max_num_strokes, cohort. simpl.
    pose proof (split_sketch_nonempty sketch).
    destruct (split_sketch sketch); [done | simpl; lia]. }
  assert (Hrun : length run = max_num_strokes cohort)
    by (unfold run; by rewrite length_fmap, length_seq).
  destruct run as [|batch queue] eqn:Erun; [simpl in Hrun; lia|].
  assert (Hcall : random_stroke_batch self g = Ok (batch, set_queue self queue, g')).
  { unfold random_stroke_batch. rewrite decide_True by exact Hq.
    rewrite Hdraw, Hget. cbn [mbind res_bind]. fold cohort. rewrite Hpad.
    cbn [mbind res_bind]. rewrite Hq. reflexivity. }
  exists sketches, nums, g', (batch :: queue).
  split; [exact Hget|]. split; [exact Hcohort|]. split; [exact Hpad|]. split.
  { rewrite Hrun. unfold max_num_strokes, cohort.
    by rewrite <- list_fmap_compose. }
  split.
  { intros j Hj. rewrite <- Erun. unfold run.
    rewrite list_lookup_fmap, lookup_seq_lt by lia. reflexivity. }
  split; [by exists batch, queue|].
  change (length (batch :: queue)) with (S (length queue)).
  cbn [successive_calls]. rewrite Hcall. cbn [mbind res_bind].
  rewrite (successive_calls_drain queue (set_queue self queue) g') by reflexivity.
  reflexivity.
Qed.

Lemma random_stroke_batch_run_witness :
  let self := mkLoader [] 2 3 1 (1 # 10) 1000 (1 # 2)
                [ [mk3 1 0 0; mk3 2 0 1; mk3 3 0 1];
                  [mk3 4 0 1];
                  [mk3 5 0 0; mk3 6 0 0; mk3 7 0 1; mk3 8 0 1; mk3 9 0 1] ] 1 in
  let g : list Q := [1 # 4; 3 # 4]%Q in
  ∃ sketches num_strokes g' run,
    _get_sketches_from_indices self
      (take (batch_size self) (np_permutation (length (strokes self)) g).1)
      (np_permutation (length (strokes self)) g).2
    = Ok (sketches, num_strokes, g') ∧
    length sketches = batch_size self ∧
    pad_stroke_batch self (split_sketch <$> sketches) = Ok run ∧
    length run = max_list ((λ sketch, length (split_sketch sketch)) <$> sketches) ∧
    (∀ j, j < length run →
          run !! j = Some (stroke_batch self (split_sketch <$> sketches) j)) ∧
    (∃ batch queue,
       run = batch :: queue ∧
       random_stroke_batch self g = Ok (batch, set_queue self queue, g')) ∧
    successive_calls (length run) self g = Ok (run, set_queue self [], g').
Proof.
  apply (random_stroke_batch_run (G := list Q)
           (mkLoader [] 2 3 1 (1 # 10) 1000 (1 # 2)
              [ [mk3 1 0 0; mk3 2 0 1; mk3 3 0 1];
                [mk3 4 0 1];
                [mk3 5 0 0; mk3 6 0 0; mk3 7 0 1; mk3 8 0 1; mk3 9 0 1] ] 1)
           [1 # 4; 3 # 4]%Q).
  - reflexivity.
  - simpl. lia.
  - simpl. lia.
  - simpl. repeat (constructor; [vm_compute; lia|]). constructor.
  - right. simpl. repeat (constructor; [discriminate|]). constructor.
Defined.

(** ** Spherical interpolation at a zero angle (C8) *)

Lemma is_nan_spec (x : float) : Prim2SF x = S754_nan → PrimFloat.is_nan x = true.
Proof.
  intros Hx. unfold PrimFloat.is_nan. rewrite FloatAxioms.eqb_spec, Hx. reflexivity.
Qed.

Lemma mul_zero_is_zero_or_nan (x : float) : zero_or_nan (x * 0)%float = true.
Proof.
  unfold zero_or_nan. rewrite FloatAxioms.mul_spec.
  change (Prim2SF 0) with (S754_zero false). by destruct (Prim2SF x).
Qed.

Lemma div_zero_or_nan (a b : float) :
  zero_or_nan a = true → zero_or_nan b = true → Prim2SF (a / b)%float = S754_nan.
Proof.
  unfold zero_or_nan. rewrite FloatAxioms.div_spec.
  by destruct (Prim2SF a), (Prim2SF b).
Qed.

Lemma nan_mul (c x : float) : Prim2SF c = S754_nan → Prim2SF (c * x)%float = S754_nan.
Proof. intros Hc. rewrite FloatAxioms.mul_spec, Hc. reflexivity. Qed.

Lemma nan_add (a b : float) :
  Prim2SF a = S754_nan → Prim2SF (a + b)%float = S754_nan.
Proof. intros Ha. rewrite FloatAxioms.add_spec, Ha. reflexivity. Qed.

(** C8, the claim as stated fails: [slerp] has no test of the angle and no
    [raise].  On the vector [[1, 0]] taken twice, two collinear vectors, it
    raises nothing, whatever [np.arccos], [np.sin], [np.dot] and
    [np.linalg.norm] compute. *)
Lemma slerp_zero_angle_does_not_raise :
  ¬ ∃ (np_arccos np_sin : float → float) (np_dot_sum : list float → list float → float)
      (np_linalg_norm : list float → float) (e : exn),
      slerp np_arccos np_sin np_dot_sum np_linalg_norm
        [1; 0]%float [1; 0]%float 0.5%float = Raise e.
Proof. intros (np_arccos & np_sin & np_dot_sum & np_linalg_norm & e & He). discriminate. Qed.

(** C8 (amended): for every two vectors of one length and every [t],
    collinear or not, [slerp] raises nothing and returns an array of that
    length.  Whenever the angle it computes is 0, and [np.sin] takes zeros
    and NaN to zeros or NaN, both quotients by [sin(0)] are NaN and every
    component of the array is NaN.  (The angle computed for two collinear
    vectors is 0 when the dot product of the normalized vectors comes out as
    1; rounding can leave it below 1, and the array then holds numbers.) *)
Theorem slerp_zero_angle_is_nan (np_arccos np_sin : float → float)
    (np_dot_sum : list float → list float → float)
    (np_linalg_norm : list float → float) (p0 p1 : list float) (t : float) :
  length p0 = length p1 →
  ∃ v, slerp np_arccos np_sin np_dot_sum np_linalg_norm p0 p1 t = Ok v ∧
       length v = length p0 ∧
       ((∀ x, zero_or_nan x = true → zero_or_nan (np_sin x) = true) →
        np_arccos (np_dot_sum (np_div p0 (np_linalg_norm p0))
                              (np_div p1 (np_linalg_norm p1))) = 0%float →
        Forall (λ x, PrimFloat.is_nan x = true) v).
Proof.
  intros Hlen. unfold slerp, np_dot, np_div.
  rewrite decide_True by (by rewrite !length_fmap).
  cbn [mbind res_bind]. fold (np_div p0 (np_linalg_norm p0)).
  fold (np_div p1 (np_linalg_norm p1)).
  eexists. split; [reflexivity|]. unfold np_add, np_scale. split.
  - rewrite length_zip_with, !length_fmap. lia.
  - intros Hsin Homega. rewrite Homega.
    set (a := (np_sin ((1 - t) * 0) / np_sin 0)%float).
    set (b := (np_sin (t * 0) / np_sin 0)%float).
    assert (Hso : zero_or_nan (np_sin 0%float) = true) by (by apply Hsin).
    assert (Ha : Prim2SF a = S754_nan).
    { apply div_zero_or_nan; [|exact Hso]. apply Hsin, mul_zero_is_zero_or_nan. }
    apply Forall_forall. intros x Hx.
    apply list_elem_of_lookup in Hx as [i Hx].
    rewrite lookup_zip_with in Hx.
    destruct (((λ x, a * x)%float <$> p0) !! i) as [y|] eqn:Hy; [|discriminate].
    simpl in Hx. destruct (((λ x, b * x)%float <$> p1) !! i) as [z|]; [|discriminate].
    injection Hx as <-. rewrite list_lookup_fmap in Hy.
    destruct (p0 !! i) as [w|]; [|discriminate]. injection Hy as <-.
    by apply is_nan_spec, nan_add, nan_mul.
Qed.

(** The vector [[1, 0]] taken twice, at [t = 0.5].  The parameters are
    functions that agree with the library on the numbers met here: the norm
    of [[1, 0]] is 1, the dot product of [[1, 0]] with itself is 1, the arc
    cosine of 1 is 0 and the sine of 0 is 0. *)
Lemma slerp_zero_angle_is_nan_witness :
  ∃ v, slerp (λ x, 1 - x)%float (λ x, x) dot_sum norm_sum
         [1; 0]%float [1; 0]%float 0.5%float = Ok v ∧
       length v = 2 ∧
       Forall (λ x, PrimFloat.is_nan x = true) v.
Proof.
  destruct (slerp_zero_angle_is_nan (λ x, 1 - x)%float (λ x, x) dot_sum norm_sum
              [1; 0]%float [1; 0]%float 0.5%float eq_refl) as (v & Hv & Hlen & Hnan).
  exists v. split; [exact Hv|]. split; [exact Hlen|].
  apply Hnan; [intros x Hx; exact Hx | reflexivity].
Defined.

(** ** The pen-strokes of a sketch *)

Lemma concat_np_split {A} (ary : list A) (indices : list nat) (start : nat) :
  ascending_from start indices → concat (np_split ary start indices) = drop start ary.
Proof.
  revert start. induction indices as [|i indices IH]; intros start Hasc; simpl.
  - apply app_nil_r.
  - destruct Hasc as [Hle Hasc]. rewrite IH by done.
    replace (drop i ary) with (drop (i - start) (drop start ary))
      by (rewrite drop_drop; f_equal; lia).
    apply take_drop.
Qed.

Lemma where_succ_ascending (flags : list bool) (p start : nat) :
  start ≤ p → ascending_from start (where_succ p flags).
Proof.
  revert p start. induction flags as [|b flags IH]; intros p start Hle; simpl; [done|].
  destruct b; simpl.
  - split; [lia|]. apply IH. lia.
  - apply IH. lia.
Qed.

Lemma ascending_from_take (indices : list nat) (start n : nat) :
  ascending_from start indices → ascending_from start (take n indices).
Proof.
  revert start n. induction indices as [|i indices IH]; intros start [|n]; simpl; try done.
  intros [Hle Hasc]. split; [done|]. by apply IH.
Qed.

Lemma length_np_split {A} (ary : list A) (start : nat) (indices : list nat) :
  length (np_split ary start indices) = S (length indices).
Proof. revert start. induction indices; intros start; simpl; [done|]. by rewrite IHindices. Qed.

Lemma length_where_succ (p : nat) (flags : list bool) :
  length (where_succ p flags) = length (filter (λ b, b = true) flags).
Proof.
  revert p. induction flags as [|b flags IH]; intros p; [done|].
  destruct b.
  - rewrite filter_cons_True by done. simpl. by rewrite IH.
  - rewrite filter_cons_False by done. apply IH.
Qed.

Lemma concat_split_sketch (data : list Point3) : concat (split_sketch data) = data.
Proof.
  unfold split_sketch. rewrite concat_np_split; [done|].
  apply ascending_from_take, where_succ_ascending. lia.
Qed.

(** X1: the pen-strokes of [split_sketch] are consecutive pieces of the
    sketch: put end to end they give the sketch back, point for point, and
    there is one pen-stroke for every pen lift, and one for a sketch without
    any. *)
Theorem split_sketch_partition (data : list Point3) :
  concat (split_sketch data) = data ∧
  length (split_sketch data) = Nat.max 1 (num_lifts data).
Proof.
  split; [apply concat_split_sketch|]. unfold split_sketch, num_lifts.
  rewrite length_np_split. unfold but_last.
  rewrite length_take, length_where_succ. lia.
Qed.

Lemma pieces_unique {A} (l1 l2 : list (list A)) :
  concat l1 = concat l2 → length <$> l1 = length <$> l2 → l1 = l2.
Proof.
  revert l2. induction l1 as [|a l1 IH]; intros [|b l2] Hcat Hlen; try done.
  simpl in *. injection Hlen as Hab Hlen.
  apply app_inj_1 in Hcat as [-> Hcat]; [|done]. f_equal. by apply IH.
Qed.

Lemma existsb_is_lift (data : list Point3) :
  existsb id (is_lift <$> data) = existsb is_lift data.
Proof.
  induction data as [|p data IH]; [done|].
  rewrite fmap_cons. cbn [existsb]. by rewrite IH.
Qed.

Lemma concat_pen_strokes_from (cur data : list Point3) :
  concat (pen_strokes_from cur data) = cur ++ data.
Proof.
  revert cur. induction data as [|p data IH]; intros cur; simpl.
  - by rewrite app_nil_r.
  - destruct (is_lift p && existsb is_lift data); simpl; rewrite IH.
    + by rewrite <- app_assoc.
    + by rewrite <- app_assoc.
Qed.

Lemma lengths_pen_strokes_from (cur data : list Point3) :
  length <$> pen_strokes_from cur data = seglens_from (length cur) (is_lift <$> data).
Proof.
  revert cur. induction data as [|p data IH]; intros cur; [done|].
  rewrite fmap_cons. cbn [seglens_from pen_strokes_from].
  rewrite existsb_is_lift.
  destruct (is_lift p && existsb is_lift data); rewrite ?fmap_cons, IH, ?length_app; simpl.
  - f_equal. lia.
  - f_equal. lia.
Qed.

Lemma split_sketch_pieces (data : list Point3) :
  split_sketch data = pen_strokes_from [] data.
Proof.
  apply pieces_unique.
  - rewrite concat_pen_strokes_from. apply concat_split_sketch.
  - rewrite lengths_pen_strokes_from. apply split_sketch_lengths.
Qed.

Lemma pen_strokes_from_no_lift (cur data : list Point3) :
  existsb is_lift data = false → pen_strokes_from cur data = [cur ++ data].
Proof.
  revert cur. induction data as [|p data IH]; intros cur Hno; simpl.
  - by rewrite app_nil_r.
  - simpl in Hno. apply orb_false_iff in Hno as [Hp Hno].
    rewrite Hp. cbn [andb]. rewrite IH by done. by rewrite <- app_assoc.
Qed.

Lemma num_lifts_app (a b : list Point3) : num_lifts (a ++ b) = num_lifts a + num_lifts b.
Proof. unfold num_lifts. by rewrite fmap_app, filter_app, length_app. Qed.

Lemma num_lifts_no_lift (data : list Point3) :
  existsb is_lift data = false ↔ num_lifts data = 0.
Proof.
  unfold num_lifts. induction data as [|p data IH]; [done|].
  rewrite fmap_cons. cbn [existsb]. destruct (is_lift p).
  - rewrite filter_cons_True by done. simpl. split; [done | lia].
  - rewrite filter_cons_False by done. apply IH.
Qed.

Lemma num_lifts_Forall (data : list Point3) :
  Forall (λ q, is_lift q = false) data → num_lifts data = 0.
Proof.
  intros Hall. apply num_lifts_no_lift.
  induction Hall as [|p data Hp _ IH]; [done|]. simpl. by rewrite Hp, IH.
Qed.

Lemma pen_strokes_from_shape (cur data : list Point3) :
  Forall (λ q, is_lift q = false) cur →
  ∃ closed last,
    pen_strokes_from cur data = closed ++ [last] ∧
    Forall closed_stroke closed ∧
    num_lifts last ≤ 1 ∧
    (cur ++ data ≠ [] → last ≠ []).
Proof.
  revert cur. induction data as [|p data IH]; intros cur Hcur.
  - exists [], cur. simpl. rewrite app_nil_r, num_lifts_Forall by done.
    repeat split; [constructor | lia | done].
  - simpl. destruct (is_lift p) eqn:Hp; [destruct (existsb is_lift data) eqn:Hmore|]; simpl.
    + destruct (IH [] (Forall_nil_2 _)) as (closed & last & -> & Hclosed & Hlast & Hne).
      exists ((cur ++ [p]) :: closed), last. repeat split; [|done|].
      * constructor; [|done]. by exists cur, p.
      * intros _. apply Hne. simpl. destruct data; [done | discriminate].
    + rewrite pen_strokes_from_no_lift by done.
      exists [], ((cur ++ [p]) ++ data). repeat split; [constructor| |].
      * rewrite !num_lifts_app, (num_lifts_Forall cur) by done.
        apply num_lifts_no_lift in Hmore. rewrite Hmore.
        unfold num_lifts. simpl. rewrite Hp. rewrite filter_cons_True by done. simpl. lia.
      * intros _. destruct cur; discriminate.
    + destruct (IH (cur ++ [p])) as (closed & last & -> & Hclosed & Hlast & Hne).
      { apply Forall_app. split; [done|]. by constructor. }
      exists closed, last. repeat split; [done..|].
      intros _. apply Hne. destruct cur; discriminate.
Qed.

(** X2: every pen-stroke of [split_sketch] but the last one ends with a pen
    lift and holds no other; the last pen-stroke holds at most one pen lift
    (the last of the sketch, with the points after it), and it is empty for
    the empty sketch only. *)
Theorem split_sketch_shape (data : list Point3) :
  ∃ closed last,
    split_sketch data = closed ++ [last] ∧
    Forall closed_stroke closed ∧
    num_lifts last ≤ 1 ∧
    (data ≠ [] → last ≠ []).
Proof. rewrite split_sketch_pieces. by apply pen_strokes_from_shape. Qed.

(** ** The stroke-5 array of a sketch *)

Lemma one_hot_end_of_sketch : one_hot end_of_sketch.
Proof. right. right. by vm_compute. Qed.

(** X3: [to_big_strokes] raises [AssertionError] exactly when the sketch has
    more than [max_len] points.  Otherwise the array has [max_len] rows: row
    [i] is the stroke-5 point of point [i] of the sketch, every row after
    them is the end-of-sketch point, and every row is one-hot when the pen
    lifts of the sketch are 0 or 1. *)
Theorem to_big_strokes_rows (s : list Point3) (max_len : nat) :
  (to_big_strokes s max_len = Raise AssertionError ↔ max_len < length s) ∧
  ∀ big, to_big_strokes s max_len = Ok big →
    length big = max_len ∧
    (∀ i p, s !! i = Some p → big !! i = Some (big_point p)) ∧
    (∀ i, length s ≤ i < max_len → big !! i = Some end_of_sketch) ∧
    (Forall valid_pen s → Forall one_hot big).
Proof.
  destruct (decide (length s ≤ max_len)) as [Hle|Hgt].
  - rewrite to_big_strokes_Ok by done. split; [split; [done | lia]|].
    intros big [= <-]. repeat split.
    + rewrite length_app, length_fmap, length_replicate. lia.
    + intros i p Hi. rewrite lookup_app_l by (rewrite length_fmap; by eapply lookup_lt_Some).
      by rewrite list_lookup_fmap, Hi.
    + intros i Hi. rewrite lookup_app_r by (rewrite length_fmap; lia).
      rewrite length_fmap. apply lookup_replicate_2. lia.
    + intros Hvalid. apply Forall_app. split.
      * apply Forall_fmap. eapply Forall_impl; [exact Hvalid|]. apply one_hot_big_point.
      * apply Forall_replicate, one_hot_end_of_sketch.
  - unfold to_big_strokes. rewrite decide_False by done.
    split; [split; [lia | done]|]. discriminate.
Qed.

(** ** The export of a sample *)




(** ** The batches of whole sketches *)

Lemma pad_batch_row_eq (batch : list (list Point3)) (max_len i : nat)
    (result : list (list Point5)) :
  result !! i = Some (np_zeros5 (max_len + 1)) →
  pad_batch_row batch max_len i result
  = match batch !! i with
    | None => Raise IndexError
    | Some s =>
        if decide (length s ≤ max_len)
        then Ok (<[i := sketch_row max_len s]> result)
        else Raise AssertionError
    end.
Proof.
  intros Hrow.
  assert (Hi : i < length result) by (by eapply lookup_lt_Some).
  assert (Halter : ∀ f, alter f i result = <[i := f (np_zeros5 (max_len + 1))]> result).
  { intros f. rewrite <- (list_insert_id result i _ Hrow) at 1.
    by rewrite alter_insert. }
  unfold pad_batch_row, py_index, sketch_row.
  destruct (batch !! i) as [s|]; [|reflexivity].
  cbv zeta. cbn [mbind res_bind].
  destruct (decide (length s ≤ max_len)) as [Hl|Hl]; [|reflexivity].
  rewrite !list_alter_alter_eq, Halter. do 2 f_equal. unfold compose.
  rewrite fill_row by lia.
  rewrite start_token_prefix
    by (intros Hnil; apply (f_equal length) in Hnil;
        rewrite length_app, length_fmap, length_replicate in Hnil;
        simpl in Hnil; lia).
  rewrite length_app, length_fmap, length_replicate. f_equal.
  replace (length s + (max_len + 1 - length s) - 1) with
    (length (big_point <$> s) + (max_len - length s)) by (rewrite length_fmap; lia).
  rewrite take_app_add'  by done.
  f_equal. rewrite take_replicate. f_equal. lia.
Qed.

Lemma pad_batch_row_next (self : DataLoader) (batch : list (list Point3))
    (max_len m : nat) :
  m < batch_size self → m ≤ length batch →
  pad_batch_row batch max_len m (sketch_rows_done self batch max_len m)
  = match batch !! m with
    | None => Raise IndexError
    | Some s =>
        if decide (length s ≤ max_len)
        then Ok (sketch_rows_done self batch max_len (S m))
        else Raise AssertionError
    end.
Proof.
  intros Hm Hlen. unfold sketch_rows_done.
  set (rows := sketch_row max_len <$> take m batch).
  assert (Hrows : length rows = m)
    by (unfold rows; rewrite length_fmap, length_take; lia).
  rewrite pad_batch_row_eq.
  2:{ rewrite lookup_app_r by lia. rewrite Hrows, Nat.sub_diag.
      apply lookup_replicate_2. lia. }
  destruct (batch !! m) as [s|] eqn:Hs; [|reflexivity].
  destruct (decide _); [|reflexivity]. f_equal.
  rewrite (take_S_r _ _ _ Hs), fmap_app. fold rows. simpl.
  rewrite <- (Nat.add_0_r m) at 1. rewrite <- Hrows at 1.
  rewrite insert_app_r.
  replace (batch_size self - m) with (S (batch_size self - S m)) by lia.
  simpl. by rewrite <- app_assoc.
Qed.

Lemma sketch_row_big (max_len : nat) (s : list Point3) (row : list Point5) :
  (∃ big, to_big_strokes s max_len = Ok big ∧ row = start_stroke_token :: big)
  ↔ length s ≤ max_len ∧ row = sketch_row max_len s.
Proof.
  split.
  - intros (big & Hbig & ->). destruct (decide (length s ≤ max_len)) as [Hl|Hl].
    + rewrite to_big_strokes_Ok in Hbig by done. injection Hbig as <-. by split.
    + unfold to_big_strokes in Hbig. by rewrite decide_False in Hbig.
  - intros [Hl ->]. eexists. split; [by apply to_big_strokes_Ok | done].
Qed.

(** X6: [pad_batch] returns exactly when the batch has [batch_size] sketches
    of at most [max_len] points each; row [i] of the array is then the start
    token followed by the rows of [to_big_strokes] for sketch [i] at length
    [max_len].  It raises nothing but [AssertionError]. *)
Theorem pad_batch_rows (self : DataLoader) (batch : list (list Point3)) (max_len : nat) :
  (∀ result,
     pad_batch self batch max_len = Ok result ↔
     length batch = batch_size self ∧
     Forall2 (λ s row, ∃ big, to_big_strokes s max_len = Ok big ∧
                              row = start_stroke_token :: big) batch result) ∧
  (∀ e, pad_batch self batch max_len = Raise e → e = AssertionError).
Proof.
  assert (Hrel : ∀ result,
    Forall2 (λ s row, ∃ big, to_big_strokes s max_len = Ok big ∧
                             row = start_stroke_token :: big) batch result
    ↔ Forall (λ s, length s ≤ max_len) batch ∧ result = sketch_row max_len <$> batch).
  { intros result. split.
    - intros Hall. induction Hall as [|s row b r Hrow _ [IH1 IH2]]; [by split|].
      apply sketch_row_big in Hrow as [Hl ->]. split; [by constructor|].
      simpl. by rewrite IH2.
    - intros [Hall ->]. induction Hall as [|s b Hl _ IH]; simpl; constructor; [|done].
      by apply sketch_row_big. }
  unfold pad_batch.
  destruct (decide (length batch = batch_size self)) as [Hlen|Hlen];
    [|split; [intros result; split; [discriminate | by intros [? _]] | by intros e [= <-]]].
  assert (Hend : sketch_rows_done self batch max_len (batch_size self)
                 = sketch_row max_len <$> batch).
  { unfold sketch_rows_done. rewrite Nat.sub_diag, <- Hlen, firstn_all. apply app_nil_r. }
  set (init := replicate (batch_size self) (np_zeros5 (max_len + 1))).
  assert (Hinit : init = sketch_rows_done self batch max_len 0).
  { unfold sketch_rows_done. by rewrite take_0, Nat.sub_0_r. }
  destruct (decide (Forall (λ s, length s ≤ max_len) batch)) as [Hall|Hnot].
  - assert (Hrun : for_each (pad_batch_row batch max_len) (seq 0 (batch_size self)) init
                   = Ok (sketch_row max_len <$> batch)).
    { destruct (for_each_total (pad_batch_row batch max_len)
                  (λ pre st, st = sketch_rows_done self batch max_len (length pre))
                  (seq 0 (batch_size self)) init) as (st & -> & ->).
      - exact Hinit.
      - intros pre x post st Hseq ->.
        apply seq_split_inv in Hseq as (_ & Hx & Hpre). rewrite Hpre.
        rewrite pad_batch_row_next by lia.
        destruct (batch !! x) as [s|] eqn:Hs; [|apply lookup_ge_None in Hs; lia].
        rewrite decide_True by (by eapply (Forall_lookup_1 _ _ _ _ Hall)).
        eexists. split; [done|]. rewrite length_app, Hpre. simpl. f_equal. lia.
      - rewrite length_seq. by rewrite Hend. }
    rewrite Hrun. split; [|discriminate].
    intros result. rewrite Hrel. split.
    + by intros [= <-].
    + by intros (_ & _ & ->).
  - assert (Hrun : ∀ pre post st,
        seq 0 (batch_size self) = pre ++ post →
        Forall (λ s, length s ≤ max_len) (take (length pre) batch) →
        st = sketch_rows_done self batch max_len (length pre) →
        for_each (pad_batch_row batch max_len) post st = Raise AssertionError).
    { intros pre post. revert pre. induction post as [|x post IH]; intros pre st Hseq Hpre ->.
      - exfalso. apply Hnot. rewrite app_nil_r in Hseq. rewrite <- Hseq, length_seq in Hpre.
        by rewrite <- Hlen, firstn_all in Hpre.
      - pose proof (seq_split_inv _ _ _ _ Hseq) as (_ & Hx & Hlpre). simpl.
        rewrite Hlpre in *. rewrite pad_batch_row_next by lia.
        destruct (batch !! x) as [s|] eqn:Hs; [|apply lookup_ge_None in Hs; lia].
        destruct (decide (length s ≤ max_len)) as [Hl|Hl]; [|reflexivity].
        cbn [mbind res_bind]. apply (IH (pre ++ [x])).
        + by rewrite <- app_assoc.
        + rewrite length_app, Hlpre. simpl. rewrite Nat.add_1_r, (take_S_r _ _ _ Hs).
          apply Forall_app. split; [done | by constructor].
        + rewrite length_app, Hlpre. simpl. by rewrite Nat.add_1_r. }
    rewrite (Hrun [] (seq 0 (batch_size self)) init); [|done|constructor|done].
    split; [|by intros e [= <-]].
    intros result. rewrite Hrel. split; [discriminate | by intros (_ & ? & _)].
Qed.

(** ** When [pad_stroke_batch] returns, and what it raises *)





(** ** Reading a run back *)

Lemma decode_stroke_row (n : nat) (sketch : list (list Point3)) (j : nat) :
  (∀ stroke, sketch !! j = Some stroke → length stroke ≤ n) →
  decode_row (stroke_row n sketch j) (stroke_len sketch j) = default [] (sketch !! j).
Proof.
  intros Hfit. unfold decode_row, stroke_len.
  destruct (sketch !! j) as [stroke|] eqn:Hst.
  - rewrite (stroke_row_Some n sketch j stroke Hst) by (by apply Hfit).
    simpl. rewrite Nat.add_sub, drop_0.
    rewrite take_app_length' by (by rewrite length_fmap).
    apply normal_big_point.
  - reflexivity.
Qed.

Lemma lookups_default {A} (l : list (list A)) (k : nat) :
  length l ≤ k →
  (λ j, default [] (l !! j)) <$> seq 0 k = l ++ replicate (k - length l) [].
Proof.
  intros Hk. apply list_eq. intros m. rewrite list_lookup_fmap.
  destruct (decide (m < k)) as [Hm|Hm].
  - rewrite lookup_seq_lt by done. simpl.
    destruct (decide (m < length l)) as [Hl|Hl].
    + rewrite lookup_app_l by done.
      destruct (lookup_lt_is_Some_2 l m Hl) as [x Hx]. by rewrite Hx.
    + rewrite lookup_app_r by lia.
      rewrite (proj2 (lookup_ge_None l m)) by lia. simpl.
      symmetry. apply lookup_replicate_2. lia.
  - rewrite lookup_seq_ge by lia. simpl. symmetry. apply lookup_ge_None.
    rewrite length_app, length_replicate. lia.
Qed.

Lemma concat_replicate_nil {A} (n : nat) : concat (replicate n ([] : list A)) = [].
Proof. induction n; simpl; done. Qed.

Lemma decode_run_eq (self : DataLoader) (sketch_strokes : list (list (list Point3)))
    (run : list MiniBatch) (i : nat) (sketch : list (list Point3)) :
  pad_stroke_batch self sketch_strokes = Ok run →
  i < batch_size self →
  sketch_strokes !! i = Some sketch →
  decode_run run i = sketch ++ replicate (length run - length sketch) [].
Proof.
  intros Hrun Hi Hsk.
  apply pad_stroke_batch_inv in Hrun as (_ & -> & Hfits).
  rewrite length_fmap, length_seq.
  assert (Hk : length sketch ≤ max_num_strokes sketch_strokes).
  { apply max_list_elem_of_le, list_elem_of_fmap. exists sketch.
    split; [done | by eapply list_elem_of_lookup_2]. }
  rewrite <- lookups_default by done.
  unfold decode_run. rewrite <- list_fmap_compose.
  apply Forall_fmap_ext_1, Forall_forall. intros j Hj. simpl.
  apply elem_of_seq in Hj as [_ Hj]. simpl in Hj.
  rewrite (list_lookup_total_correct _ i (stroke_row (max_seq_length self) sketch j))
    by (by rewrite list_lookup_fmap, lookup_take_lt, Hsk).
  rewrite (list_lookup_total_correct _ i (stroke_len sketch j))
    by (by rewrite list_lookup_fmap, lookup_take_lt, Hsk).
  apply decode_stroke_row.
  destruct (Hfits j i Hj Hi) as (sketch' & Hsk' & Hfit).
  rewrite Hsk in Hsk'. by injection Hsk' as <-.
Qed.

(** X8: a run of [pad_stroke_batch] on the pen-strokes of [split_sketch]
    holds every sketch of the cohort without loss: reading row [i] of each
    mini-batch after its start token, up to the recorded length, gives the
    pen-strokes of sketch [i] in order (and nothing for the mini-batches
    after its last pen-stroke), and these put end to end are sketch [i]. *)
Theorem stroke_run_reads_back (self : DataLoader) (sketches : list (list Point3))
    (run : list MiniBatch) (i : nat) (data : list Point3) :
  pad_stroke_batch self (split_sketch <$> sketches) = Ok run →
  i < batch_size self →
  sketches !! i = Some data →
  decode_run run i
  = split_sketch data ++ replicate (length run - length (split_sketch data)) [] ∧
  concat (decode_run run i) = data.
Proof.
  intros Hrun Hi Hdata.
  assert (Heq : decode_run run i
    = split_sketch data ++ replicate (length run - length (split_sketch data)) []).
  { eapply decode_run_eq; [done..|]. by rewrite list_lookup_fmap, Hdata. }
  split; [done|].
  by rewrite Heq, concat_app, concat_replicate_nil, app_nil_r, concat_split_sketch.
Qed.

Lemma stroke_run_reads_back_witness :
  let self := mkLoader [] 2 3 1 0 1000 0 [] 0 in
  let data := [mk3 1 0 0; mk3 2 0 1; mk3 3 0 1] in
  ∃ run,
    pad_stroke_batch self (split_sketch <$> [data; [mk3 4 0 1]]) = Ok run ∧
    decode_run run 0
    = split_sketch data ++ replicate (length run - length (split_sketch data)) [] ∧
    concat (decode_run run 0) = data.
Proof.
  eexists. split; [reflexivity|].
  apply (stroke_run_reads_back (mkLoader [] 2 3 1 0 1000 0 [] 0)
           [[mk3 1 0 0; mk3 2 0 1; mk3 3 0 1]; [mk3 4 0 1]]);
    [reflexivity | simpl; lia | reflexivity].
Defined.

(** ** The mini-batches of a slice of the corpus *)

Lemma cohort_run (self : DataLoader) (sketches : list (list Point3)) :
  0 < batch_size self →
  length sketches = batch_size self →
  Forall (λ sketch, get_max_stroke_len sketch ≤ max_seq_length self) sketches →
  pad_stroke_batch self (split_sketch <$> sketches)
  = Ok (stroke_batch self (split_sketch <$> sketches)
          <$> seq 0 (max_num_strokes (split_sketch <$> sketches))) ∧
  0 < max_num_strokes (split_sketch <$> sketches).
Proof.
  intros Hbs Hlen Hfit. split.
  - apply pad_stroke_batch_total.
    + destruct sketches; [simpl in Hlen; lia | discriminate].
    + intros j i _ Hi.
      destruct (lookup_lt_is_Some_2 sketches i) as [sketch Hsketch]; [lia|].
      exists (split_sketch sketch). split; [by rewrite list_lookup_fmap, Hsketch|].
      intros stroke Hstroke.
      pose proof (proj1 (Forall_lookup _ _) Hfit i sketch Hsketch) as Hmax.
      simpl in Hmax. etrans; [|exact Hmax]. unfold get_max_stroke_len.
      apply max_list_elem_of_le, list_elem_of_fmap. exists stroke.
      split; [reflexivity | by eapply list_elem_of_lookup_2].
  - destruct sketches as [|sketch sketches]; [simpl in Hlen; lia|].
    unfold max_num_strokes. simpl.
    pose proof (split_sketch_nonempty sketch).
    destruct (split_sketch sketch); [done | simpl; lia].
Qed.

Section Slice.
Context `{NumpyRandom G}.

Lemma get_sketch_step_outcome (self : DataLoader) (i : nat)
    (st : list (list Point3) * list Q * G) :
  match get_sketch_step self i st with
  | Ok _ => i < length (strokes self)
  | Raise e => e = IndexError
  end.
Proof.
  destruct st as [[sketches nums] g]. unfold get_sketch_step, py_index.
  destruct (strokes self !! i) as [sketch|] eqn:Hsk; [|done].
  apply lookup_lt_Some in Hsk. cbn [mbind res_bind].
  destruct (random_scale self sketch g) as [data g1].
  destruct (Qltb 0 (augment_stroke_prob self)); [|done].
  destruct (augment_strokes data (augment_stroke_prob self) g1) as [data_copy g2].
  by destruct (decide (data_copy = [])).
Qed.

Lemma get_sketches_out_of_range (self : DataLoader) (indices : list nat)
    (st : list (list Point3) * list Q * G) :
  Exists (λ i, length (strokes self) ≤ i) indices →
  for_each (get_sketch_step self) indices st = Raise IndexError.
Proof.
  intros Hex. revert st. induction Hex as [i indices Hi|i indices _ IH]; intros st; simpl.
  - pose proof (get_sketch_step_outcome self i st) as Hout.
    destruct (get_sketch_step self i st); [lia | by subst].
  - pose proof (get_sketch_step_outcome self i st) as Hout.
    destruct (get_sketch_step self i st); [apply IH | by subst].
Qed.

(** X9: on a loader whose stored sketches have no pen-stroke of more than
    [max_seq_length] points (and none is empty when augmentation is on),
    [get_stroke_batches(idx)] returns for every slice that lies within the
    corpus: it takes the [batch_size] sketches from index
    [idx * batch_size] on, and the run has one mini-batch for each
    pen-stroke index of the cohort, at least one. *)
Theorem get_stroke_batches_in_range (self : DataLoader) (idx : nat) (g : G) :
  corpus_ready self →
  0 < batch_size self →
  (idx + 1) * batch_size self ≤ length (strokes self) →
  ∃ sketches num_strokes g',
    _get_sketches_from_indices self (seq (idx * batch_size self) (batch_size self)) g
    = Ok (sketches, num_strokes, g') ∧
    length sketches = batch_size self ∧
    get_stroke_batches self idx g
    = Ok (stroke_batch self (split_sketch <$> sketches)
            <$> seq 0 (max_num_strokes (split_sketch <$> sketches)), g') ∧
    0 < max_num_strokes (split_sketch <$> sketches).
Proof.
  intros Hready Hbs Hidx.
  destruct (get_sketches_total self (seq (idx * batch_size self) (batch_size self)) g Hready)
    as (sketches & nums & g' & Hget & Hlen & Hfit).
  { apply Forall_forall. intros i Hi. apply elem_of_seq in Hi. lia. }
  rewrite length_seq in Hlen.
  destruct (cohort_run self sketches Hbs Hlen Hfit) as [Hpad Hk].
  exists sketches, nums, g'. split_and!; [done..| |done].
  unfold get_stroke_batches. rewrite Hget. cbn [mbind res_bind]. by rewrite Hpad.
Qed.

(** X10: [get_stroke_batches(idx)] raises [IndexError] whenever the slice
    reaches beyond the stored corpus. *)
Theorem get_stroke_batches_out_of_range (self : DataLoader) (idx : nat) (g : G) :
  0 < batch_size self →
  length (strokes self) < (idx + 1) * batch_size self →
  get_stroke_batches self idx g = Raise IndexError.
Proof.
  intros Hbs Hidx. unfold get_stroke_batches, _get_sketches_from_indices.
  rewrite get_sketches_out_of_range; [done|].
  apply Exists_exists. exists (idx * batch_size self + (batch_size self - 1)).
  split; [|lia]. apply elem_of_seq. lia.
Qed.

End Slice.

Lemma get_stroke_batches_out_of_range_witness :
  get_stroke_batches (mkLoader [] 2 3 1 0 1000 0 [[mk3 1 0 1]] 0) 0 ([] : list Q)
  = Raise IndexError.
Proof.
  apply (get_stroke_batches_out_of_range (G := list Q)
           (mkLoader [] 2 3 1 0 1000 0 [[mk3 1 0 1]] 0) 0 []); simpl; lia.
Defined.

Lemma get_stroke_batches_in_range_witness :
  let self := mkLoader [] 2 3 1 0 1000 0
                [[mk3 1 0 0; mk3 2 0 1; mk3 3 0 1]; [mk3 4 0 1]; [mk3 5 0 1]] 1 in
  let g : list Q := [] in
  ∃ sketches num_strokes g',
    _get_sketches_from_indices self (seq (0 * batch_size self) (batch_size self)) g
    = Ok (sketches, num_strokes, g') ∧
    length sketches = batch_size self ∧
    get_stroke_batches self 0 g
    = Ok (stroke_batch self (split_sketch <$> sketches)
            <$> seq 0 (max_num_strokes (split_sketch <$> sketches)), g') ∧
    0 < max_num_strokes (split_sketch <$> sketches).
Proof.
  apply (get_stroke_batches_in_range (G := list Q)
           (mkLoader [] 2 3 1 0 1000 0
              [[mk3 1 0 0; mk3 2 0 1; mk3 3 0 1]; [mk3 4 0 1]; [mk3 5 0 1]] 1) 0 []).
  - split; [|left; discriminate].
    simpl. repeat (constructor; [vm_compute; lia|]). constructor.
  - simpl. lia.
  - simpl. lia.
Defined.

(** X11: a loader that [preprocess] returns is ready for the stroke-wise
    protocol when the clamp leaves the pen column alone ([limit >= 1], pen
    lifts 0 or 1): no stored sketch has a pen-stroke of more than
    [max_seq_length] points, [num_batches] is the number of whole slices of
    [batch_size] stored sketches, so every [idx < num_batches] is a slice
    within the corpus, and the queue and the batch size are untouched. *)
Theorem preprocess_loader_ready `{NumpySort} (self self' : DataLoader)
    (sketches : list (list Point3)) :
  preprocess self sketches = Ok self' →
  (1 <= limit self)%Q →
  Forall (Forall valid_pen) sketches →
  (augment_stroke_prob self <= 0)%Q ∨ Forall (λ sketch, sketch ≠ []) sketches →
  corpus_ready self' ∧
  0 < batch_size self' ∧
  batch_size self' = batch_size self ∧
  stroke_batch_queue self' = stroke_batch_queue self ∧
  num_batches self' = length (strokes self') / batch_size self' ∧
  ∀ idx, idx < num_batches self' → (idx + 1) * batch_size self' ≤ length (strokes self').
Proof.
  intros Hrun Hlim Hvalid Haug.
  destruct (preprocess_ready self self' sketches Hrun Hlim Hvalid) as [Hfit Hne].
  rewrite preprocess_eq in Hrun.
  destruct (decide (batch_size self = 0)) as [|Hbs]; [discriminate|].
  injection Hrun as <-. simpl in *.
  assert (Hcount : length (stored_sketch self <$> stored_order self sketches)
                   = length (retained self sketches)).
  { by rewrite length_fmap, (Permutation_length (stored_order_perm self sketches)). }
  split_and!; [split; [done|]| lia | done | done | by rewrite Hcount |].
  - destruct Haug as [Hle|Hall]; [by left | right; by apply Hne].
  - intros idx Hidx. rewrite Hcount.
    pose proof (Nat.Div0.mul_div_le (length (retained self sketches)) (batch_size self)).
    nia.
Qed.

Lemma preprocess_loader_ready_witness :
  let self := mkLoader [] 2 2 1 0 1000 0 [] 0 in
  let sketches := [ [mk3 1 0 0; mk3 1 0 1; mk3 2 0 0; mk3 2 0 1];
                    [mk3 3 0 0; mk3 3 0 0; mk3 3 0 1];
                    [mk3 4 0 1] ] in
  ∃ self',
    @preprocess insertion_sort self sketches = Ok self' ∧
    corpus_ready self' ∧
    0 < batch_size self' ∧
    batch_size self' = batch_size self ∧
    stroke_batch_queue self' = stroke_batch_queue self ∧
    num_batches self' = length (strokes self') / batch_size self' ∧
    ∀ idx, idx < num_batches self' → (idx + 1) * batch_size self' ≤ length (strokes self').
Proof.
  eexists. split; [reflexivity|].
  apply (preprocess_loader_ready (H := insertion_sort)
           (mkLoader [] 2 2 1 0 1000 0 [] 0) _
           [ [mk3 1 0 0; mk3 1 0 1; mk3 2 0 0; mk3 2 0 1];
             [mk3 3 0 0; mk3 3 0 0; mk3 3 0 1];
             [mk3 4 0 1] ]).
  - reflexivity.
  - discriminate.
  - repeat (constructor;
            [repeat (constructor; [first [by left | by right]|]); constructor|]).
    constructor.
  - left. discriminate.
Defined.

(** ** What point dropping keeps *)

Lemma foldl_Qplus (c : Q) (a : list Q) : (foldl Qplus c a == c + np_sum a)%Q.
Proof.
  unfold np_sum. revert c. induction a as [|x a IH]; intros c; simpl.
  - ring.
  - rewrite (IH (c + x)%Q), (IH (0 + x)%Q). ring.
Qed.

Lemma np_sum_app (a b : list Q) : (np_sum (a ++ b) == np_sum a + np_sum b)%Q.
Proof. unfold np_sum at 1. rewrite foldl_app. apply foldl_Qplus. Qed.

Lemma np_sum_cons (x : Q) (a : list Q) : (np_sum (x :: a) == x + np_sum a)%Q.
Proof. unfold np_sum at 1. simpl. rewrite foldl_Qplus. ring. Qed.

Lemma xy_merged (h : Point3) (t : list Point3) :
  (x3 (merged (h :: t)) == np_sum (x3 <$> h :: t))%Q ∧
  (y3 (merged (h :: t)) == np_sum (y3 <$> h :: t))%Q.
Proof.
  induction t as [|c t [IHx IHy]] using rev_ind.
  - simpl. unfold np_sum. simpl. split; ring.
  - change (h :: t ++ [c]) with ((h :: t) ++ [c]).
    rewrite merged_snoc, !fmap_app, !np_sum_app. cbn [x3 y3].
    rewrite IHx, IHy.
    change (x3 <$> [c]) with [x3 c]. change (y3 <$> [c]) with [y3 c].
    rewrite !(np_sum_cons _ []). change (np_sum []) with 0%Q. split; ring.
Qed.

Lemma groups_ok_nonempty (groups : list (list Point3)) :
  groups_ok groups → Forall (λ g, g ≠ []) groups.
Proof.
  intros Hok. apply Forall_forall. intros g Hg ->.
  apply list_elem_of_split in Hg as (gs & gs' & ->).
  exact (Hok gs [] gs' eq_refl).
Qed.

Lemma sum_merged (groups : list (list Point3)) :
  Forall (λ g, g ≠ []) groups →
  (np_sum (x3 <$> (merged <$> groups)) == np_sum (x3 <$> concat groups))%Q ∧
  (np_sum (y3 <$> (merged <$> groups)) == np_sum (y3 <$> concat groups))%Q.
Proof.
  induction 1 as [|g groups Hg _ [IHx IHy]]; [by split|].
  destruct g as [|h t]; [done|].
  rewrite !fmap_cons, !np_sum_cons. cbn [concat].
  rewrite !fmap_app, !np_sum_app, IHx, IHy.
  destruct (xy_merged h t) as [-> ->]. by split.
Qed.

Lemma length_concat_le {A} (groups : list (list A)) :
  Forall (λ g, g ≠ []) groups → length groups ≤ length (concat groups).
Proof.
  induction 1 as [|g groups Hg _ IH]; simpl; [lia|].
  rewrite length_app. destruct g; [done | simpl; lia].
Qed.

Section Dropping.
Context `{NumpyRandom G}.

(** X12: [augment_strokes] moves no ink: the offsets of the points it
    returns add up to the same total displacement as the offsets of its
    input, in [x] and in [y], and it returns at most as many points as it is
    given. *)
Theorem augment_strokes_keeps_displacement (strokes : list Point3) (prob : Q) (g : G) :
  (np_sum (x3 <$> (augment_strokes strokes prob g).1) == np_sum (x3 <$> strokes))%Q ∧
  (np_sum (y3 <$> (augment_strokes strokes prob g).1) == np_sum (y3 <$> strokes))%Q ∧
  length (augment_strokes strokes prob g).1 ≤ length strokes.
Proof.
  destruct (augment_loop_inv prob strokes g) as [groups Hinv].
  unfold augment_strokes.
  destruct (foldl (augment_step prob) (augment_init, g) strokes) as [s g'].
  simpl in *. rewrite (inv_result _ _ _ Hinv), <- (inv_concat _ _ _ Hinv).
  pose proof (groups_ok_nonempty groups (inv_ok _ _ _ Hinv)) as Hne.
  destruct (sum_merged groups Hne) as [Hx Hy].
  split_and!; [done | done |]. rewrite length_fmap. by apply length_concat_le.
Qed.


Lemma augment_step_keeps (prob : Q) (pre : list Point3) (s : AugState) (g : G)
    (groups : list (list Point3)) (row : Point3) :
  (prob <= 0)%Q →
  aug_inv pre s groups →
  aug_inv (pre ++ [row]) (augment_step prob (s, g) row).1 (groups ++ [[row]]).
Proof.
  intros Hprob Hinv. unfold augment_step, alloc.
  destruct row as [x y p]. cbn [x3 y3 pen].
  pose proof (np_rand_range g) as [Hrnd _].
  destruct (np_rand g) as [urnd g']. simpl in Hrnd.
  rewrite deref_alloc_new, deref_alloc_old by apply Hinv. cbn [pen].
  assert (Hno : Qltb urnd prob = false).
  { unfold Qltb. apply negb_false_iff, Qle_bool_iff. by apply Qle_trans with 0%Q. }
  rewrite Hno, andb_false_r. cbn [fst].
  apply aug_inv_emit; [exact Hinv|].
  intros Hpos Hprev. apply Qeq_bool_iff in Hprev.
  rewrite Hprev, orb_true_r in Hpos. lia.
Qed.

(** X14: with a dropping probability of zero, or a negative one,
    [augment_strokes] returns its input, point for point, whatever the
    random draws. *)
Theorem augment_strokes_zero_prob (strokes : list Point3) (prob : Q) (g : G) :
  (prob <= 0)%Q → (augment_strokes strokes prob g).1 = strokes.
Proof.
  intros Hprob.
  assert (Hinv : aug_inv strokes (foldl (augment_step prob) (augment_init, g) strokes).1
                   ((λ p, [p]) <$> strokes)).
  { induction strokes as [|row strokes IH] using rev_ind.
    - apply aug_inv_init.
    - rewrite foldl_snoc, fmap_app.
      destruct (foldl (augment_step prob) (augment_init, g) strokes) as [s g'].
      by apply augment_step_keeps. }
  unfold augment_strokes.
  destruct (foldl (augment_step prob) (augment_init, g) strokes) as [s g'].
  simpl in *. rewrite (inv_result _ _ _ Hinv), <- list_fmap_compose.
  rewrite <- (list_fmap_id strokes) at 2. by apply list_fmap_ext.
Qed.

End Dropping.

Lemma augment_strokes_zero_prob_witness :
  (augment_strokes [mk3 1 0 0; mk3 2 0 0; mk3 3 0 0; mk3 4 1 0; mk3 5 1 0; mk3 6 0 1]
     0 ([] : list Q)).1
  = [mk3 1 0 0; mk3 2 0 0; mk3 3 0 0; mk3 4 1 0; mk3 5 1 0; mk3 6 0 1].
Proof.
  apply (augment_strokes_zero_prob (G := list Q)
           [mk3 1 0 0; mk3 2 0 0; mk3 3 0 0; mk3 4 1 0; mk3 5 1 0; mk3 6 0 1] 0 []).
  discriminate.
Defined.

(** ** The bounds of a sketch *)

Lemma Qltb_lt (x y : Q) : Qltb x y = true ↔ (x < y)%Q.
Proof.
  unfold Qltb. rewrite negb_true_iff. split.
  - intros Hle. apply Qnot_le_lt. intros Hyx. apply Qle_bool_iff in Hyx. congruence.
  - intros Hlt. destruct (Qle_bool y x) eqn:Hle; [|done].
    apply Qle_bool_iff in Hle. exfalso. by apply (Qlt_not_le x y).
Qed.

Lemma Qltb_ge (x y : Q) : Qltb x y = false ↔ (y <= x)%Q.
Proof. unfold Qltb. rewrite negb_false_iff. apply Qle_bool_iff. Qed.

Lemma py_min2_spec (a b : Q) :
  (py_min2 a b <= a)%Q ∧ (py_min2 a b <= b)%Q ∧ (py_min2 a b = a ∨ py_min2 a b = b).
Proof.
  unfold py_min2. destruct (Qltb b a) eqn:Hlt.
  - apply Qltb_lt in Hlt. split_and!; [by apply Qlt_le_weak | apply Qle_refl | by right].
  - apply Qltb_ge in Hlt. split_and!; [apply Qle_refl | done | by left].
Qed.

Lemma py_max2_spec (a b : Q) :
  (a <= py_max2 a b)%Q ∧ (b <= py_max2 a b)%Q ∧ (py_max2 a b = a ∨ py_max2 a b = b).
Proof.
  unfold py_max2. destruct (Qltb a b) eqn:Hlt.
  - apply Qltb_lt in Hlt. split_and!; [by apply Qlt_le_weak | apply Qle_refl | by right].
  - apply Qltb_ge in Hlt. split_and!; [apply Qle_refl | done | by left].
Qed.

Lemma track_spec (vs : list Q) :
  let '(mn, mx, ab) := foldl track (0%Q, 0%Q, 0%Q) vs in
  (ab == np_sum vs)%Q ∧
  (∀ k, (mn <= np_sum (take k vs))%Q ∧ (np_sum (take k vs) <= mx)%Q) ∧
  (∃ k, (mn == np_sum (take k vs))%Q) ∧
  (∃ k, (mx == np_sum (take k vs))%Q).
Proof.
  induction vs as [|v vs IH] using rev_ind.
  - simpl. split_and!; [done | | by exists 0 | by exists 0].
    intros k. rewrite take_nil. by split.
  - rewrite foldl_snoc. destruct (foldl track (0%Q, 0%Q, 0%Q) vs) as [[mn mx] ab].
    destruct IH as (Hab & Hall & [kn Hkn] & [kx Hkx]). cbn [track].
    destruct (py_min2_spec mn (ab + v)) as (Hmn1 & Hmn2 & Hmn).
    destruct (py_max2_spec mx (ab + v)) as (Hmx1 & Hmx2 & Hmx).
    assert (Hsum : (ab + v == np_sum (vs ++ [v]))%Q).
    { rewrite np_sum_app, Hab, (np_sum_cons v []). change (np_sum []) with 0%Q. ring. }
    assert (Hpre : ∀ k, k ≤ length vs → take k (vs ++ [v]) = take k vs).
    { intros k Hk. by rewrite take_app_le. }
    assert (Hfull : ∀ k, length vs < k → take k (vs ++ [v]) = vs ++ [v]).
    { intros k Hk. apply take_ge. rewrite length_app. simpl. lia. }
    split_and!; [done | | |].
    + intros k. destruct (decide (k ≤ length vs)) as [Hk|Hk].
      * rewrite Hpre by done. destruct (Hall k) as [H1 H2]. split.
        -- by apply Qle_trans with mn.
        -- by apply Qle_trans with mx.
      * rewrite Hfull by lia. rewrite <- Hsum. by split.
    + destruct Hmn as [->| ->].
      * exists (kn `min` length vs). rewrite Hpre by lia.
        rewrite Hkn. destruct (decide (kn ≤ length vs)).
        -- by rewrite Nat.min_l.
        -- by rewrite Nat.min_r, !take_ge by lia.
      * exists (S (length vs)). by rewrite Hfull by lia.
    + destruct Hmx as [->| ->].
      * exists (kx `min` length vs). rewrite Hpre by lia.
        rewrite Hkx. destruct (decide (kx ≤ length vs)).
        -- by rewrite Nat.min_l.
        -- by rewrite Nat.min_r, !take_ge by lia.
      * exists (S (length vs)). by rewrite Hfull by lia.
Qed.

Lemma get_bounds_step_Ok (factor : Q) (row : Point3) (st : BoundsState) :
  Qeq_bool factor 0 = false →
  get_bounds_step factor row st
  = Ok (mkBounds (py_min2 (min_x st) (abs_x st + x3 row / factor))
                 (py_max2 (max_x st) (abs_x st + x3 row / factor))
                 (py_min2 (min_y st) (abs_y st + y3 row / factor))
                 (py_max2 (max_y st) (abs_y st + y3 row / factor))
                 (abs_x st + x3 row / factor) (abs_y st + y3 row / factor)).
Proof. intros Hf. unfold get_bounds_step. by rewrite Hf. Qed.

Lemma get_bounds_loop (factor : Q) (data : list Point3) (st : BoundsState) :
  Qeq_bool factor 0 = false →
  ∃ st', for_each (get_bounds_step factor) data st = Ok st' ∧
    (min_x st', max_x st', abs_x st')
    = foldl track (min_x st, max_x st, abs_x st) ((λ p, (x3 p / factor)%Q) <$> data) ∧
    (min_y st', max_y st', abs_y st')
    = foldl track (min_y st, max_y st, abs_y st) ((λ p, (y3 p / factor)%Q) <$> data).
Proof.
  intros Hf. revert st. induction data as [|row data IH]; intros st.
  - exists st. by split_and!.
  - cbn [for_each]. rewrite get_bounds_step_Ok by done. cbn [mbind res_bind].
    destruct (IH (mkBounds (py_min2 (min_x st) (abs_x st + x3 row / factor))
                           (py_max2 (max_x st) (abs_x st + x3 row / factor))
                           (py_min2 (min_y st) (abs_y st + y3 row / factor))
                           (py_max2 (max_y st) (abs_y st + y3 row / factor))
                           (abs_x st + x3 row / factor) (abs_y st + y3 row / factor)))
      as (st' & Hrun & Hx & Hy).
    exists st'. split_and!; [exact Hrun | exact Hx | exact Hy].
Qed.

Lemma get_bounds_spec (data : list Point3) (factor : Q) :
  ¬ (factor == 0)%Q →
  ∃ mnx mxx mny mxy,
    get_bounds data factor = Ok (mnx, mxx, mny, mxy) ∧
    (∀ k, (mnx <= position_x factor data k)%Q ∧ (position_x factor data k <= mxx)%Q ∧
          (mny <= position_y factor data k)%Q ∧ (position_y factor data k <= mxy)%Q) ∧
    (∃ k, (mnx == position_x factor data k)%Q) ∧
    (∃ k, (mxx == position_x factor data k)%Q) ∧
    (∃ k, (mny == position_y factor data k)%Q) ∧
    (∃ k, (mxy == position_y factor data k)%Q).
Proof.
  intros Hf.
  assert (Hfb : Qeq_bool factor 0 = false).
  { destruct (Qeq_bool factor 0) eqn:E; [|done]. by apply Qeq_bool_iff in E. }
  destruct (get_bounds_loop factor data (mkBounds 0 0 0 0 0 0) Hfb) as (st & Hrun & Hx & Hy).
  pose proof (track_spec ((λ p, (x3 p / factor)%Q) <$> data)) as Htx.
  pose proof (track_spec ((λ p, (y3 p / factor)%Q) <$> data)) as Hty.
  cbn [min_x max_x abs_x min_y max_y abs_y] in Hx, Hy.
  rewrite <- Hx in Htx. rewrite <- Hy in Hty.
  destruct Htx as (_ & Hallx & Hmnx & Hmxx). destruct Hty as (_ & Hally & Hmny & Hmxy).
  exists (min_x st), (max_x st), (min_y st), (max_y st).
  unfold get_bounds. rewrite Hrun. split_and!; [done | | done..].
  intros k. destruct (Hallx k), (Hally k). by split_and!.
Qed.

(** X15: for a factor other than zero [get_bounds] returns the bounding box
    of the path of the pen from the origin: the position after any number of
    points lies between [min_x] and [max_x] and between [min_y] and
    [max_y], and each bound is the position after some number of points (the
    origin, after none, is one of the positions). *)
Theorem get_bounds_encloses (data : list Point3) (factor : Q) :
  ¬ (factor == 0)%Q →
  ∃ mnx mxx mny mxy,
    get_bounds data factor = Ok (mnx, mxx, mny, mxy) ∧
    (∀ k, (mnx <= position_x factor data k)%Q ∧ (position_x factor data k <= mxx)%Q ∧
          (mny <= position_y factor data k)%Q ∧ (position_y factor data k <= mxy)%Q) ∧
    (∃ k, (mnx == position_x factor data k)%Q) ∧
    (∃ k, (mxx == position_x factor data k)%Q) ∧
    (∃ k, (mny == position_y factor data k)%Q) ∧
    (∃ k, (mxy == position_y factor data k)%Q).
Proof.
  intros Hf. by apply get_bounds_spec.
Qed.

Lemma get_bounds_encloses_witness :
  let data := [mk3 10 0 0; mk3 (-30) 20 1] in
  ∃ mnx mxx mny mxy,
    get_bounds data 10 = Ok (mnx, mxx, mny, mxy) ∧
    (∀ k, (mnx <= position_x 10 data k)%Q ∧ (position_x 10 data k <= mxx)%Q ∧
          (mny <= position_y 10 data k)%Q ∧ (position_y 10 data k <= mxy)%Q) ∧
    (∃ k, (mnx == position_x 10 data k)%Q) ∧
    (∃ k, (mxx == position_x 10 data k)%Q) ∧
    (∃ k, (mny == position_y 10 data k)%Q) ∧
    (∃ k, (mxy == position_y 10 data k)%Q).
Proof. apply (get_bounds_encloses [mk3 10 0 0; mk3 (-30) 20 1] 10). done. Defined.

(** X16: dividing by a [factor] of zero, [get_bounds] raises
    [ZeroDivisionError] on every sketch that has a point; on the empty
    sketch it returns four zeros whatever the factor. *)
Theorem get_bounds_zero_factor (data : list Point3) (factor : Q) :
  (factor == 0)%Q →
  get_bounds data factor
  = if decide (data = []) then Ok (0%Q, 0%Q, 0%Q, 0%Q) else Raise ZeroDivisionError.
Proof.
  intros Hf. apply Qeq_bool_iff in Hf. unfold get_bounds.
  destruct data as [|row data]; [done|].
  rewrite decide_False by done. simpl. unfold get_bounds_step. by rewrite Hf.
Qed.

Lemma get_bounds_zero_factor_witness :
  get_bounds [mk3 1 1 0] 0
  = if decide ([mk3 1 1 0] = []) then Ok (0%Q, 0%Q, 0%Q, 0%Q) else Raise ZeroDivisionError.
Proof. apply (get_bounds_zero_factor [mk3 1 1 0] 0). reflexivity. Defined.

(** ** Scaling a sketch to a size *)

Lemma np_sum_Qeq (a b : list Q) : Forall2 Qeq a b → (np_sum a == np_sum b)%Q.
Proof.
  induction 1 as [|x y a b Hxy _ IH]; [done|].
  by rewrite !np_sum_cons, Hxy, IH.
Qed.

Lemma np_sum_scale (c : Q) (vs : list Q) :
  (np_sum ((λ v, v * c)%Q <$> vs) == np_sum vs * c)%Q.
Proof.
  induction vs as [|v vs IH].
  - change (np_sum []) with 0%Q. simpl. change (np_sum []) with 0%Q. ring.
  - rewrite fmap_cons, !np_sum_cons, IH. ring.
Qed.

Lemma position_scaled (proj : Point3 → Q) (d : Q) (stroke : list Point3) (k : nat)
    (scaled : list Point3) :
  Forall2 (λ q p, (proj q == proj p / d)%Q) scaled stroke →
  (np_sum (take k ((λ p, (proj p / 1)%Q) <$> scaled))
   == np_sum (take k ((λ p, (proj p / 1)%Q) <$> stroke)) * / d)%Q.
Proof.
  intros Hsc. rewrite <- np_sum_scale, <- !fmap_take, <- list_fmap_compose.
  apply np_sum_Qeq. apply Forall2_fmap.
  apply (Forall2_take _ _ _ k) in Hsc.
  eapply Forall2_impl; [exact Hsc|]. intros q p Hqp. unfold compose. rewrite Hqp.
  unfold Qdiv. ring.
Qed.

Lemma lower_bound_scaled (c : Q) (pos pos' : nat → Q) (mn mn' : Q) :
  (0 < c)%Q → (∀ k, (pos' k == pos k * c)%Q) →
  (∀ k, (mn <= pos k)%Q) → (∃ k, (mn == pos k)%Q) →
  (∀ k, (mn' <= pos' k)%Q) → (∃ k, (mn' == pos' k)%Q) →
  (mn' == mn * c)%Q.
Proof.
  intros Hc Hpos Hall [k Hk] Hall' [k' Hk']. apply Qle_antisym.
  - rewrite Hk, <- Hpos. apply Hall'.
  - rewrite Hk', Hpos. apply Qmult_le_r; [done | apply Hall].
Qed.

Lemma upper_bound_scaled (c : Q) (pos pos' : nat → Q) (mx mx' : Q) :
  (0 < c)%Q → (∀ k, (pos' k == pos k * c)%Q) →
  (∀ k, (pos k <= mx)%Q) → (∃ k, (mx == pos k)%Q) →
  (∀ k, (pos' k <= mx')%Q) → (∃ k, (mx' == pos' k)%Q) →
  (mx' == mx * c)%Q.
Proof.
  intros Hc Hpos Hall [k Hk] Hall' [k' Hk']. apply Qle_antisym.
  - rewrite Hk', Hpos. apply Qmult_le_r; [done | apply Hall].
  - rewrite Hk, <- Hpos. apply Hall'.
Qed.

Lemma py_max2_scaled (c a b a' b' : Q) :
  (0 < c)%Q → (a' == a * c)%Q → (b' == b * c)%Q →
  (py_max2 a' b' == py_max2 a b * c)%Q.
Proof.
  intros Hc Ha Hb. unfold py_max2.
  destruct (Qltb a' b') eqn:H', (Qltb a b) eqn:H; try done.
  - apply Qltb_lt in H'. apply Qltb_ge in H. exfalso.
    apply (Qlt_not_le _ _ H'). rewrite Ha, Hb. by apply Qmult_le_r.
  - apply Qltb_ge in H'. apply Qltb_lt in H. exfalso.
    apply (Qlt_not_le _ _ H). rewrite Ha, Hb in H'. by apply Qmult_le_r in H'.
Qed.

(** X17: on a sketch whose bounding box has a positive side, and for a
    positive [average_dimension], [scale_bound] divides every offset, of
    either axis and of every point, by one common positive number, the
    longer side of the bounding box divided by [average_dimension], and
    leaves the pen column alone; afterwards the longer side of the bounding
    box of the sketch is [average_dimension].  Quotients and sums are those
    of exact numbers. *)
Theorem scale_bound_size (stroke : list Point3) (average_dimension : Q)
    (mnx mxx mny mxy : Q) :
  get_bounds stroke 1 = Ok (mnx, mxx, mny, mxy) →
  (0 < average_dimension)%Q →
  (0 < py_max2 (mxx - mnx) (mxy - mny))%Q →
  ∃ scaled mnx' mxx' mny' mxy',
    scale_bound stroke average_dimension = Ok (Some scaled) ∧
    (let d := (py_max2 (mxx - mnx) (mxy - mny) / average_dimension)%Q in
     (0 < d)%Q ∧
     scaled = (λ p, mk3 (x3 p / d) (y3 p / d) (pen p)) <$> stroke) ∧
    pen <$> scaled = pen <$> stroke ∧
    get_bounds scaled 1 = Ok (mnx', mxx', mny', mxy') ∧
    (py_max2 (mxx' - mnx') (mxy' - mny') == average_dimension)%Q.
Proof.
  intros Hb Havg Hm.
  set (m := py_max2 (mxx - mnx) (mxy - mny)) in *.
  set (d := (m / average_dimension)%Q).
  assert (Hd : (0 < d)%Q).
  { unfold d, Qdiv. apply Qmult_lt_0_compat; [done | by apply Qinv_lt_0_compat]. }
  assert (Hc : (0 < / d)%Q) by (by apply Qinv_lt_0_compat).
  assert (Hne : ∀ q, (0 < q)%Q → Qeq_bool q 0 = false).
  { intros q Hq. destruct (Qeq_bool q 0) eqn:E; [|done].
    apply Qeq_bool_iff in E. rewrite E in Hq. by apply Qlt_irrefl in Hq. }
  set (scaled := (λ p, set_xy3 p (x3 p / d)%Q (y3 p / d)%Q) <$> stroke).
  assert (H1 : ¬ (1 == 0)%Q) by done.
  destruct (get_bounds_spec stroke 1 H1)
    as (a & b & a0 & b0 & Hb' & Hall & Hmnx & Hmxx & Hmny & Hmxy).
  rewrite Hb in Hb'. injection Hb' as <- <- <- <-.
  destruct (get_bounds_spec scaled 1 H1)
    as (mnx' & mxx' & mny' & mxy' & Hbs & Hall' & Hmnx' & Hmxx' & Hmny' & Hmxy').
  exists scaled, mnx', mxx', mny', mxy'. split_and!; [|split; [exact Hd | done]| |done|].
  - unfold scale_bound. rewrite Hb. cbn [mbind res_bind]. fold m.
    rewrite (Hne _ Havg). fold d. by rewrite (Hne _ Hd).
  - unfold scaled. rewrite <- list_fmap_compose. by apply list_fmap_ext.
  - assert (Hpx : ∀ k, (position_x 1 scaled k == position_x 1 stroke k * / d)%Q).
    { intros k. apply (position_scaled x3). unfold scaled.
      apply Forall2_fmap_l, Forall_Forall2_diag, Forall_true. by intros p. }
    assert (Hpy : ∀ k, (position_y 1 scaled k == position_y 1 stroke k * / d)%Q).
    { intros k. apply (position_scaled y3). unfold scaled.
      apply Forall2_fmap_l, Forall_Forall2_diag, Forall_true. by intros p. }
    assert (Emnx : (mnx' == mnx * / d)%Q).
    { apply (lower_bound_scaled _ _ _ _ _ Hc Hpx); [|done| |done]; intros k.
      - apply (Hall k). - apply (Hall' k). }
    assert (Emxx : (mxx' == mxx * / d)%Q).
    { apply (upper_bound_scaled _ _ _ _ _ Hc Hpx); [|done| |done]; intros k.
      - apply (Hall k). - apply (Hall' k). }
    assert (Emny : (mny' == mny * / d)%Q).
    { apply (lower_bound_scaled _ _ _ _ _ Hc Hpy); [|done| |done]; intros k.
      - apply (Hall k). - apply (Hall' k). }
    assert (Emxy : (mxy' == mxy * / d)%Q).
    { apply (upper_bound_scaled _ _ _ _ _ Hc Hpy); [|done| |done]; intros k.
      - apply (Hall k). - apply (Hall' k). }
    rewrite (py_max2_scaled (/ d) (mxx - mnx) (mxy - mny)); [|done|..].
    + fold m. unfold d.
      assert (Hm0 : ¬ (m == 0)%Q)
        by (intros E; rewrite E in Hm; by apply Qlt_irrefl in Hm).
      assert (Ha0 : ¬ (average_dimension == 0)%Q)
        by (intros E; rewrite E in Havg; by apply Qlt_irrefl in Havg).
      field. by split.
    + rewrite Emnx, Emxx. ring.
    + rewrite Emny, Emxy. ring.
Qed.

Lemma scale_bound_size_witness :
  let stroke := [mk3 10 0 0; mk3 0 20 1] in
  ∃ scaled mnx' mxx' mny' mxy',
    scale_bound stroke 10 = Ok (Some scaled) ∧
    ((0 < py_max2 (10 - 0) (20 - 0) / 10)%Q ∧
     scaled = (λ p, mk3 (x3 p / (py_max2 (10 - 0) (20 - 0) / 10))
                        (y3 p / (py_max2 (10 - 0) (20 - 0) / 10)) (pen p)) <$> stroke) ∧
    pen <$> scaled = pen <$> stroke ∧
    get_bounds scaled 1 = Ok (mnx', mxx', mny', mxy') ∧
    (py_max2 (mxx' - mnx') (mxy' - mny') == 10)%Q.
Proof.
  eapply (scale_bound_size [mk3 10 0 0; mk3 0 20 1] 10);
    [reflexivity | reflexivity | vm_compute; reflexivity].
Defined.

(** X18: on a sketch whose bounding box has no extent (the pen never leaves
    the origin) [scale_bound] divides the offsets by zero: it does not
    raise, and the offsets of a sketch that has points are not finite numbers
    afterwards.  With an [average_dimension] of zero it raises
    [ZeroDivisionError]. *)
Theorem scale_bound_degenerate (stroke : list Point3) (average_dimension : Q)
    (mnx mxx mny mxy : Q) :
  get_bounds stroke 1 = Ok (mnx, mxx, mny, mxy) →
  (py_max2 (mxx - mnx) (mxy - mny) == 0)%Q ∨ (average_dimension == 0)%Q →
  scale_bound stroke average_dimension
  = if Qeq_bool average_dimension 0 then Raise ZeroDivisionError
    else if decide (stroke = []) then Ok (Some []) else Ok None.
Proof.
  intros Hb Hzero. unfold scale_bound. rewrite Hb. cbn [mbind res_bind].
  destruct (Qeq_bool average_dimension 0) eqn:Havg; [done|].
  destruct Hzero as [Hm|Ha]; [|apply Qeq_bool_iff in Ha; congruence].
  assert (Hd : Qeq_bool (py_max2 (mxx - mnx) (mxy - mny) / average_dimension) 0 = true).
  { apply Qeq_bool_iff. rewrite Hm. unfold Qdiv. ring. }
  rewrite Hd. by destruct (decide (stroke = [])).
Qed.

Lemma scale_bound_degenerate_witness :
  scale_bound [mk3 0 0 1] 10
  = if Qeq_bool 10 0 then Raise ZeroDivisionError
    else if decide ([mk3 0 0 1] = []) then Ok (Some []) else Ok None.
Proof.
  eapply (scale_bound_degenerate [mk3 0 0 1] 10); [reflexivity | left; reflexivity].
Defined.

(** ** Polylines and stroke-3 sketches *)

Lemma foldl_append {A B} (f : B → A) (acc : list A) (xs : list B) :
  foldl (λ acc x, acc ++ [f x]) acc xs = acc ++ (f <$> xs).
Proof.
  revert acc. induction xs as [|x xs IH]; intros acc; simpl.
  - by rewrite app_nil_r.
  - by rewrite IH, <- app_assoc.
Qed.

Lemma tagged_eq (line : list (Q * Q)) :
  (λ i, mk3 (line !!! i).1 (line !!! i).2
            (if decide (i < length line - 1) then 0%Q else 1%Q)) <$> seq 0 (length line)
  = tagged line.
Proof.
  induction line as [|p rest IH]; [done|].
  cbn [length]. rewrite <- cons_seq, fmap_cons, <- fmap_S_seq, <- list_fmap_compose.
  cbn [tagged]. destruct rest as [|q rest]; [done|].
  rewrite decide_True by (simpl; lia). f_equal. rewrite <- IH.
  apply list_fmap_ext. intros i j Hj. apply lookup_seq in Hj as [-> Hj].
  unfold compose. cbn [length lookup_total list_lookup_total]. f_equal.
  repeat case_decide; (done || lia).
Qed.

Lemma append_line_eq (strokes : list Point3) (line : list (Q * Q)) :
  append_line strokes line = strokes ++ tagged line.
Proof. unfold append_line. by rewrite foldl_append, tagged_eq. Qed.

Lemma foldl_append_line (strokes : list Point3) (lines : list (list (Q * Q))) :
  foldl append_line strokes lines = strokes ++ concat (tagged <$> lines).
Proof.
  revert strokes. induction lines as [|line lines IH]; intros strokes; simpl.
  - by rewrite app_nil_r.
  - by rewrite IH, append_line_eq, <- app_assoc.
Qed.

Lemma zip_diffs (prev : Point3) (pts : list Point3) :
  zip_with (λ r s, set_xy3 r (x3 r - x3 s)%Q (y3 r - y3 s)%Q) pts
           (take (length pts) (prev :: pts))
  = diffs prev pts.
Proof.
  revert prev. induction pts as [|p pts IH]; intros prev; [done|].
  simpl. f_equal. apply IH.
Qed.

Lemma lines_to_strokes_eq (lines : list (list (Q * Q))) :
  lines_to_strokes lines = diffs (mk3 0 0 0) (concat (tagged <$> lines)).
Proof.
  unfold lines_to_strokes. rewrite foldl_append_line. cbn [app take drop].
  rewrite take_0, !drop_0. cbn [app].
  unfold but_last. cbn [length]. rewrite Nat.sub_1_r. cbn [Nat.pred].
  by rewrite zip_diffs.
Qed.

Lemma line_eq_refl (a : list (Q * Q)) : line_eq a a.
Proof. apply Forall_Forall2_diag, Forall_true. by intros p. Qed.

Lemma lines_eq_refl (a : list (list (Q * Q))) : lines_eq a a.
Proof. apply Forall_Forall2_diag, Forall_true. intros l. apply line_eq_refl. Qed.

Lemma strokes_to_lines_diffs (pts : list Point3) (prev : Point3) (x y : Q)
    (acc acc' : list (list (Q * Q))) (line line' : list (Q * Q)) :
  lines_eq acc acc' → line_eq line line' →
  (x == x3 prev)%Q → (y == y3 prev)%Q →
  lines_eq (foldl strokes_to_lines_step (x, y, acc, line) (diffs prev pts)).1.2
           (acc' ++ cut line' pts).
Proof.
  revert prev x y acc acc' line line'.
  induction pts as [|p pts IH]; intros prev x y acc acc' line line' Hacc Hline Hx Hy.
  - simpl. by rewrite app_nil_r.
  - cbn [diffs foldl cut]. unfold strokes_to_lines_step at 2. cbn [pen x3 y3].
    assert (Hnew : line_eq (line ++ [((x + (x3 p - x3 prev))%Q, (y + (y3 p - y3 prev))%Q)])
                           (line' ++ [(x3 p, y3 p)])).
    { apply Forall2_app; [done|]. constructor; [|constructor].
      split; simpl; [rewrite Hx | rewrite Hy]; ring. }
    destruct (Qeq_bool (pen p) 1).
    + rewrite (cons_middle _ acc'), app_assoc. apply IH.
      * apply Forall2_app; [done|]. by constructor.
      * constructor.
      * simpl. rewrite Hx. ring.
      * simpl. rewrite Hy. ring.
    + apply IH; [done | done | |].
      * simpl. rewrite Hx. ring.
      * simpl. rewrite Hy. ring.
Qed.

Lemma cut_tagged (line cur : list (Q * Q)) (rest : list Point3) :
  line ≠ [] → cut cur (tagged line ++ rest) = (cur ++ line) :: cut [] rest.
Proof.
  revert cur. induction line as [|p line IH]; intros cur Hne; [done|].
  destruct line as [|q line].
  - destruct p as [px py]. reflexivity.
  - change (tagged (p :: q :: line)) with (mk3 p.1 p.2 0 :: tagged (q :: line)).
    cbn [app cut pen x3 y3]. change (Qeq_bool 0 1) with false. cbv iota.
    rewrite IH by done. destruct p as [px py]. simpl. by rewrite <- app_assoc.
Qed.

Lemma cut_concat_tagged (lines : list (list (Q * Q))) :
  cut [] (concat (tagged <$> lines)) = filter (λ line, line ≠ []) lines.
Proof.
  induction lines as [|line lines IH]; [done|].
  rewrite fmap_cons. cbn [concat]. destruct line as [|p line].
  - rewrite filter_cons_False by (by intros ?). exact IH.
  - rewrite filter_cons_True by done. rewrite cut_tagged by done. by rewrite IH.
Qed.

(** X19: polylines survive the way to stroke-3 and back:
    [strokes_to_lines(lines_to_strokes(lines))] gives the polylines of
    [lines] that have a point, in order and with the same points; a polyline
    without points leaves no trace in the stroke-3 sketch and is lost. *)
Theorem lines_round_trip (lines : list (list (Q * Q))) :
  lines_eq (strokes_to_lines (lines_to_strokes lines)) (filter (λ line, line ≠ []) lines).
Proof.
  rewrite lines_to_strokes_eq, <- cut_concat_tagged. unfold strokes_to_lines.
  pose proof (strokes_to_lines_diffs (concat (tagged <$> lines)) (mk3 0 0 0) 0 0 [] [] [] [])
    as Hrun.
  destruct (foldl strokes_to_lines_step _ _) as [[[x y] out] line].
  apply Hrun; [constructor | constructor | done | done].
Qed.

Lemma strokes_to_lines_cut (strokes : list Point3) (x y : Q)
    (acc : list (list (Q * Q))) (line : list (Q * Q)) :
  (foldl strokes_to_lines_step (x, y, acc, line) strokes).1.2
  = acc ++ cut line (absolute x y strokes).
Proof.
  revert x y acc line. induction strokes as [|p strokes IH]; intros x y acc line.
  - simpl. by rewrite app_nil_r.
  - cbn [foldl absolute cut pen x3 y3]. unfold strokes_to_lines_step at 2.
    destruct (Qeq_bool (pen p) 1).
    + rewrite IH. by rewrite <- app_assoc.
    + by rewrite IH.
Qed.

Lemma strokes_to_lines_eq (strokes : list Point3) :
  strokes_to_lines strokes = cut [] (absolute 0 0 strokes).
Proof.
  unfold strokes_to_lines.
  pose proof (strokes_to_lines_cut strokes 0 0 [] []) as Hcut.
  by destruct (foldl strokes_to_lines_step _ _) as [[[x y] out] line].
Qed.

Lemma tagged_cons (p : Q * Q) (rest : list (Q * Q)) :
  rest ≠ [] → tagged (p :: rest) = mk3 p.1 p.2 0 :: tagged rest.
Proof. by destruct rest. Qed.

Lemma tagged_snoc (cur : list (Q * Q)) (p : Q * Q) :
  tagged (cur ++ [p]) = ((λ q, mk3 q.1 q.2 0) <$> cur) ++ [mk3 p.1 p.2 1].
Proof.
  induction cur as [|q cur IH]; [done|].
  change ((q :: cur) ++ [p]) with (q :: (cur ++ [p])).
  rewrite tagged_cons by (by destruct cur). by rewrite IH.
Qed.

Lemma concat_tagged_cut (pts : list Point3) (cur : list (Q * Q)) :
  (∀ p, last pts = Some p → is_lift p = true) →
  (pts = [] → cur = []) →
  concat (tagged <$> cut cur pts) = ((λ q, mk3 q.1 q.2 0) <$> cur) ++ (binary_pen <$> pts).
Proof.
  revert cur. induction pts as [|p pts IH]; intros cur Hlast Hcur.
  - by rewrite Hcur.
  - assert (Hlast' : ∀ q, last pts = Some q → is_lift q = true).
    { intros q Hq. apply Hlast. destruct pts; [done | exact Hq]. }
    cbn [cut fmap_cons]. fold (is_lift p). destruct (is_lift p) eqn:Hp.
    + rewrite fmap_cons. cbn [concat]. rewrite tagged_snoc, (IH [] Hlast') by done.
      rewrite <- app_assoc. f_equal. cbn [fmap list_fmap app].
      f_equal. unfold binary_pen. by rewrite Hp.
    + rewrite (IH _ Hlast').
      * rewrite fmap_app, <- app_assoc. f_equal. cbn [fmap list_fmap app].
        f_equal. unfold binary_pen. by rewrite Hp.
      * intros ->. specialize (Hlast p eq_refl). congruence.
Qed.

Lemma diffs_absolute (strokes : list Point3) (prev : Point3) (x y : Q) :
  (x3 prev == x)%Q → (y3 prev == y)%Q →
  Forall2 same_point (diffs prev (binary_pen <$> absolute x y strokes)) strokes.
Proof.
  revert prev x y. induction strokes as [|p strokes IH]; intros prev x y Hx Hy.
  - constructor.
  - cbn [absolute]. rewrite fmap_cons. cbn [diffs]. constructor.
    + unfold same_point, binary_pen, is_lift. simpl. split_and!; [| |done].
      * rewrite Hx. ring.
      * rewrite Hy. ring.
    + apply IH; reflexivity.
Qed.

Lemma last_absolute (strokes : list Point3) (x y : Q) (q : Point3) :
  last (absolute x y strokes) = Some q → ∃ p, last strokes = Some p ∧ pen q = pen p.
Proof.
  revert x y. induction strokes as [|p strokes IH]; intros x y Hq; [done|].
  cbn [absolute] in Hq. destruct strokes as [|p' strokes].
  - injection Hq as <-. by exists p.
  - destruct (IH (x + x3 p)%Q (y + y3 p)%Q Hq) as (r & Hr & Hpen). by exists r.
Qed.

(** X20: a stroke-3 sketch that ends with a pen lift (or has no point)
    survives the way to polylines and back:
    [lines_to_strokes(strokes_to_lines(strokes))] has the points of
    [strokes] in order, with equal offsets and with the pen column 1 on the
    pen lifts and 0 elsewhere. *)
Theorem strokes_round_trip (strokes : list Point3) :
  (∀ p, last strokes = Some p → is_lift p = true) →
  Forall2 same_point (lines_to_strokes (strokes_to_lines strokes)) strokes.
Proof.
  intros Hlast. rewrite lines_to_strokes_eq, strokes_to_lines_eq.
  rewrite concat_tagged_cut; [by apply diffs_absolute| |done].
  intros q Hq. apply last_absolute in Hq as (p & Hp & Hpen).
  unfold is_lift. rewrite Hpen. by apply Hlast.
Qed.

Lemma strokes_round_trip_witness :
  Forall2 same_point
    (lines_to_strokes (strokes_to_lines [mk3 1 2 0; mk3 3 4 1; mk3 5 6 1]))
    [mk3 1 2 0; mk3 3 4 1; mk3 5 6 1].
Proof.
  apply (strokes_round_trip [mk3 1 2 0; mk3 3 4 1; mk3 5 6 1]).
  intros p Hp. simpl in Hp. injection Hp as <-. reflexivity.
Defined.

Lemma is_lift_absolute (strokes : list Point3) (x y : Q) :
  is_lift <$> absolute x y strokes = is_lift <$> strokes.
Proof.
  revert x y. induction strokes as [|p strokes IH]; intros x y; [done|].
  cbn [absolute]. rewrite !fmap_cons, IH. done.
Qed.

Lemma absolute_app (strokes tail : list Point3) (x y : Q) :
  ∃ x' y', absolute x y (strokes ++ tail) = absolute x y strokes ++ absolute x' y' tail.
Proof.
  revert x y. induction strokes as [|p strokes IH]; intros x y; [by exists x, y|].
  destruct (IH (x + x3 p)%Q (y + y3 p)%Q) as (x' & y' & Heq).
  exists x', y'. simpl. by rewrite Heq.
Qed.

Lemma cut_no_lift (pts : list Point3) (cur : list (Q * Q)) :
  existsb is_lift pts = false → cut cur pts = [].
Proof.
  revert cur. induction pts as [|p pts IH]; intros cur Hno; [done|].
  simpl in Hno. apply orb_false_iff in Hno as [Hp Hno].
  cbn [cut]. fold (is_lift p). rewrite Hp. by apply IH.
Qed.

Lemma cut_app_no_lift (pts tail : list Point3) (cur : list (Q * Q)) :
  existsb is_lift tail = false → cut cur (pts ++ tail) = cut cur pts.
Proof.
  intros Hno. revert cur. induction pts as [|p pts IH]; intros cur.
  - by apply cut_no_lift.
  - cbn [app cut]. destruct (Qeq_bool (pen p) 1); by rewrite IH.
Qed.

Lemma length_cut (pts : list Point3) (cur : list (Q * Q)) :
  length (cut cur pts) = num_lifts pts.
Proof.
  unfold num_lifts. revert cur. induction pts as [|p pts IH]; intros cur; [done|].
  cbn [cut]. fold (is_lift p). rewrite fmap_cons. destruct (is_lift p).
  - rewrite filter_cons_True by done. simpl. by rewrite IH.
  - rewrite filter_cons_False by done. apply IH.
Qed.

(** X21: [strokes_to_lines] makes one polyline for every pen lift of the
    sketch, and the points after the last pen lift go into none: a tail
    without a pen lift changes nothing of the result. *)
Theorem strokes_to_lines_open_end (strokes : list Point3) :
  length (strokes_to_lines strokes) = num_lifts strokes ∧
  ∀ tail, Forall (λ p, is_lift p = false) tail →
          strokes_to_lines (strokes ++ tail) = strokes_to_lines strokes.
Proof.
  split.
  - rewrite strokes_to_lines_eq, length_cut. unfold num_lifts.
    by rewrite is_lift_absolute.
  - intros tail Htail. rewrite !strokes_to_lines_eq.
    destruct (absolute_app strokes tail 0 0) as (x' & y' & ->).
    apply cut_app_no_lift. apply num_lifts_no_lift. unfold num_lifts.
    rewrite is_lift_absolute. by apply num_lifts_Forall.
Qed.

(** ** The longest pen-stroke of a corpus *)

Lemma foldl_max_len (f : list Point3 → nat) (sketches : list (list Point3)) (a : nat) :
  foldl (λ max_len sketch, let ml := f sketch in
                           if decide (max_len < ml) then ml else max_len) a sketches
  = a `max` max_list (f <$> sketches).
Proof.
  revert a. induction sketches as [|sketch sketches IH]; intros a; [simpl; lia|].
  rewrite fmap_cons. cbn [foldl max_list]. rewrite IH. unfold id.
  destruct (decide (a < f sketch)); lia.
Qed.

Lemma filter_all {A} (P : A → Prop) `{∀ x, Decision (P x)} (l : list A) :
  filter P l = l ↔ Forall P l.
Proof.
  split.
  - intros Heq. apply Forall_forall. intros x Hx. rewrite <- Heq in Hx.
    by apply list_elem_of_filter in Hx as [? _].
  - induction 1 as [|x l Hx _ IH]; [done|]. by rewrite filter_cons_True, IH.
Qed.

Lemma max_list_le_iff (n : nat) (ns : list nat) :
  max_list ns ≤ n ↔ Forall (λ m, m ≤ n) ns.
Proof.
  induction ns as [|m ns IH]; simpl.
  - split; [constructor | lia].
  - rewrite Forall_cons, <- IH. lia.
Qed.

(** X22: [get_max_len] is the length of the longest pen-stroke of the corpus
    (0 for the empty corpus), and it decides what [preprocess] keeps: every
    sketch is kept exactly when [get_max_len] of the corpus is at most
    [max_seq_length]. *)
Theorem get_max_len_decides_filter (sketches : list (list Point3)) :
  get_max_len sketches = max_list (get_max_stroke_len <$> sketches) ∧
  ∀ self, get_max_len sketches ≤ max_seq_length self ↔ retained self sketches = sketches.
Proof.
  assert (Heq : get_max_len sketches = max_list (get_max_stroke_len <$> sketches)).
  { unfold get_max_len. rewrite foldl_max_len. lia. }
  split; [done|]. intros self. rewrite Heq, max_list_le_iff. unfold retained.
  rewrite filter_all, Forall_fmap. done.
Qed.

(** ** Random stretching *)

Lemma scale_factor_range (r f : Q) :
  (0 <= r)%Q → (r < 1)%Q → (0 <= f)%Q →
  (1 - f <= (r - (1 # 2)) * 2 * f + 1)%Q ∧ ((r - (1 # 2)) * 2 * f + 1 <= 1 + f)%Q.
Proof.
  intros Hr0 Hr1 Hf. split; apply Qle_minus_iff.
  - assert (E : ((r - (1 # 2)) * 2 * f + 1 + - (1 - f) == 2 * r * f)%Q) by ring.
    rewrite E. apply Qmult_le_0_compat; [|done]. by apply Qmult_le_0_compat.
  - assert (E : (1 + f + - ((r - (1 # 2)) * 2 * f + 1) == 2 * (1 - r) * f)%Q) by ring.
    rewrite E. apply Qmult_le_0_compat; [|done]. apply Qmult_le_0_compat; [done|].
    apply Qlt_le_weak. unfold Qminus. by rewrite <- Qlt_minus_iff.
Qed.

(** X23: for a [random_scale_factor] [e >= 0], [random_scale] draws two
    random numbers, multiplies every [x] offset by one factor and every [y]
    offset by another, both within [[1 - e, 1 + e]], and copies the pen
    column; with [e = 0] both factors are 1. *)
Theorem random_scale_factors `{NumpyRandom G} (self : DataLoader) (data : list Point3)
    (g : G) :
  (0 <= random_scale_factor self)%Q →
  ∃ fx fy,
    (random_scale self data g).1 = (λ p, mk3 (x3 p * fx)%Q (y3 p * fy)%Q (pen p)) <$> data ∧
    (random_scale self data g).2 = (np_rand (np_rand g).2).2 ∧
    (1 - random_scale_factor self <= fx)%Q ∧ (fx <= 1 + random_scale_factor self)%Q ∧
    (1 - random_scale_factor self <= fy)%Q ∧ (fy <= 1 + random_scale_factor self)%Q.
Proof.
  intros Hf. unfold random_scale.
  pose proof (np_rand_range g) as [Hx0 Hx1].
  destruct (np_rand g) as [rx g1]. cbn [fst snd] in *.
  pose proof (np_rand_range g1) as [Hy0 Hy1].
  destruct (np_rand g1) as [ry g2]. cbn [fst snd] in *.
  destruct (scale_factor_range rx (random_scale_factor self) Hx0 Hx1 Hf) as [Hx Hx'].
  destruct (scale_factor_range ry (random_scale_factor self) Hy0 Hy1 Hf) as [Hy Hy'].
  eexists _, _. split_and!; [|done|exact Hx|exact Hx'|exact Hy|exact Hy'].
  rewrite <- list_fmap_compose. by apply list_fmap_ext.
Qed.

Lemma random_scale_factors_witness :
  let self := mkLoader [] 2 3 1 (1 # 10) 1000 0 [] 0 in
  let data := [mk3 1 2 0; mk3 3 4 1] in
  let g : list Q := [1 # 4; 3 # 4]%Q in
  ∃ fx fy,
    (random_scale self data g).1 = (λ p, mk3 (x3 p * fx)%Q (y3 p * fy)%Q (pen p)) <$> data ∧
    (random_scale self data g).2 = (np_rand (np_rand g).2).2 ∧
    (1 - random_scale_factor self <= fx)%Q ∧ (fx <= 1 + random_scale_factor self)%Q ∧
    (1 - random_scale_factor self <= fy)%Q ∧ (fy <= 1 + random_scale_factor self)%Q.
Proof.
  apply (random_scale_factors (G := list Q) (mkLoader [] 2 3 1 (1 # 10) 1000 0 [] 0)
           [mk3 1 2 0; mk3 3 4 1] [1 # 4; 3 # 4]%Q).
  discriminate.
Defined.

(** ** The stroke counts of a cohort *)

Lemma py_int_inject (q : Q) (n : Z) : (q == inject_Z n)%Q → py_int q = n.
Proof.
  unfold Qeq, py_int. simpl. intros Heq. rewrite Z.mul_1_r in Heq.
  rewrite Heq. apply Z.quot_mul. done.
Qed.

Lemma np_sum_pens (data : list Point3) :
  Forall valid_pen data →
  (np_sum (pen <$> data) == inject_Z (Z.of_nat (num_lifts data)))%Q.
Proof.
  unfold num_lifts. induction 1 as [|p data Hp _ IH]; [done|].
  rewrite !fmap_cons, np_sum_cons, IH. destruct Hp as [Hp|Hp].
  - rewrite filter_cons_False by (unfold is_lift; rewrite Qeq_bool_0_1; done).
    rewrite Hp. ring.
  - rewrite filter_cons_True by (unfold is_lift; by apply Qeq_bool_iff).
    cbn [length]. rewrite Nat2Z.inj_succ, <- Z.add_1_l, inject_Z_plus, Hp. done.
Qed.

Section Counts.
Context `{NumpyRandom G}.

Lemma augment_strokes_valid (strokes : list Point3) (prob : Q) (g : G) :
  Forall valid_pen strokes → Forall valid_pen (augment_strokes strokes prob g).1.
Proof.
  intros Hvalid. destruct (augment_loop_inv prob strokes g) as [groups Hinv].
  unfold augment_strokes.
  destruct (foldl (augment_step prob) (augment_init, g) strokes) as [s g'].
  simpl in *. rewrite (inv_result _ _ _ Hinv).
  rewrite <- (inv_concat _ _ _ Hinv) in Hvalid.
  pose proof (groups_ok_nonempty groups (inv_ok _ _ _ Hinv)) as Hne.
  clear Hinv. induction Hne as [|group groups Hg _ IH]; [constructor|].
  simpl in Hvalid. apply Forall_app in Hvalid as [Hgroup Hrest].
  rewrite fmap_cons. constructor; [|by apply IH].
  destruct group as [|h t]; [done|]. unfold valid_pen. rewrite pen_merged.
  by apply Forall_cons in Hgroup as [? _].
Qed.

Lemma get_sketch_step_valid (self : DataLoader) (i : nat)
    (sketches sketches' : list (list Point3)) (nums nums' : list Q) (g g' : G) :
  Forall (Forall valid_pen) (strokes self) →
  get_sketch_step self i (sketches, nums, g) = Ok (sketches', nums', g') →
  ∃ sketch, sketches' = sketches ++ [sketch] ∧
            nums' = nums ++ [np_sum (pen <$> sketch)] ∧ Forall valid_pen sketch.
Proof.
  intros Hvalid. unfold get_sketch_step, py_index.
  destruct (strokes self !! i) as [sketch|] eqn:Hsk; [|discriminate].
  cbn [mbind res_bind].
  pose proof (proj1 (Forall_lookup _ _) Hvalid i sketch Hsk) as Hv. simpl in Hv.
  assert (Hscaled : Forall valid_pen (random_scale self sketch g).1).
  { unfold random_scale. destruct (np_rand g) as [r1 g1]. destruct (np_rand g1) as [r2 g2].
    simpl. rewrite <- list_fmap_compose. apply Forall_fmap.
    eapply Forall_impl; [exact Hv|]. by intros p Hp. }
  destruct (random_scale self sketch g) as [data g1]. simpl in Hscaled.
  destruct (Qltb 0 (augment_stroke_prob self)).
  - pose proof (augment_strokes_valid data (augment_stroke_prob self) g1 Hscaled) as Hv'.
    destruct (augment_strokes data (augment_stroke_prob self) g1) as [data_copy g2].
    simpl in Hv'. destruct (decide (data_copy = [])); [discriminate|].
    intros [= <- <- <-]. by exists data_copy.
  - intros [= <- <- <-]. by exists data.
Qed.

(** X24: for a corpus whose pen lifts are 0 or 1,
    [_get_sketches_from_indices] returns one sketch for each index, and the
    number it reports for a sketch is the number of its pen lifts. *)
Theorem num_strokes_counts_lifts (self : DataLoader) (indices : list nat) (g g' : G)
    (sketches : list (list Point3)) (num_strokes : list Z) :
  Forall (Forall valid_pen) (strokes self) →
  _get_sketches_from_indices self indices g = Ok (sketches, num_strokes, g') →
  length sketches = length indices ∧
  num_strokes = (λ sketch, Z.of_nat (num_lifts sketch)) <$> sketches.
Proof.
  intros Hvalid Hrun. unfold _get_sketches_from_indices in Hrun.
  apply bind_Ok in Hrun as ([[sk nums] g1] & Hloop & [= <- <- <-]).
  apply (for_each_inv _ (λ pre st,
           length st.1.1 = length pre ∧
           Forall (Forall valid_pen) st.1.1 ∧
           st.1.2 = (λ sketch, np_sum (pen <$> sketch)) <$> st.1.1)) in Hloop.
  - simpl in Hloop. destruct Hloop as (Hlen & Hv & ->). split; [done|].
    rewrite <- list_fmap_compose. apply Forall_fmap_ext_1.
    eapply Forall_impl; [exact Hv|]. intros sketch Hsk. simpl.
    by apply py_int_inject, np_sum_pens.
  - simpl. by split_and!.
  - intros pre i post [[sk1 n1] g2] [[sk2 n2] g3] _ (Hlen & Hv & Hn) Hstep.
    simpl in *. apply (get_sketch_step_valid _ _ _ _ _ _ _ _ Hvalid) in Hstep
      as (sketch & -> & -> & Hsk).
    split_and!; [by rewrite !length_app, Hlen | |].
    + apply Forall_app. split; [done | by constructor].
    + by rewrite fmap_app, Hn.
Qed.

End Counts.

Lemma num_strokes_counts_lifts_witness :
  let self := mkLoader [] 2 3 1 0 1000 (1 # 2)
                [[mk3 1 0 0; mk3 2 0 1; mk3 3 0 1]; [mk3 4 0 1]] 1 in
  let g : list Q := [] in
  ∃ sketches num_strokes g',
    _get_sketches_from_indices self [1; 0] g = Ok (sketches, num_strokes, g') ∧
    length sketches = length [1; 0] ∧
    num_strokes = (λ sketch, Z.of_nat (num_lifts sketch)) <$> sketches.
Proof.
  eexists _, _, _. split; [reflexivity|].
  eapply (num_strokes_counts_lifts (G := list Q)
            (mkLoader [] 2 3 1 0 1000 (1 # 2)
               [[mk3 1 0 0; mk3 2 0 1; mk3 3 0 1]; [mk3 4 0 1]] 1) [1; 0] []).
  - repeat (constructor;
            [repeat (constructor; [first [by left | by right]|]); constructor|]).
    constructor.
  - reflexivity.
Defined.

(** ** Reading a padded row as a sketch *)

Lemma pad_batch_inv (self : DataLoader) (batch : list (list Point3)) (max_len : nat)
    (result : list (list Point5)) :
  pad_batch self batch max_len = Ok result →
  length batch = batch_size self ∧
  Forall (λ s, length s ≤ max_len) batch ∧
  result = sketch_row max_len <$> batch.
Proof.
  intros Hrun. unfold pad_batch in Hrun.
  destruct (decide (length batch = batch_size self)) as [Hlen|]; [|discriminate].
  apply (for_each_inv _ (λ pre st,
           st = sketch_rows_done self batch max_len (length pre) ∧
           Forall (λ s, length s ≤ max_len) (take (length pre) batch))) in Hrun.
  - rewrite length_seq in Hrun. destruct Hrun as [-> Hfit].
    rewrite <- Hlen, firstn_all in Hfit. split_and!; [done..|].
    unfold sketch_rows_done. by rewrite Nat.sub_diag, app_nil_r, <- Hlen, firstn_all.
  - simpl. split; [|constructor]. unfold sketch_rows_done. by rewrite take_0, Nat.sub_0_r.
  - intros pre x post s1 s2 Hseq [-> Hfit] Hbody.
    apply seq_split_inv in Hseq as (_ & Hx & Hpre). rewrite Hpre in *.
    rewrite pad_batch_row_next in Hbody by lia.
    destruct (batch !! x) as [sx|] eqn:Hsx; [|discriminate].
    destruct (decide (length sx ≤ max_len)); [|discriminate]. injection Hbody as <-.
    rewrite length_app, Hpre. simpl. rewrite Nat.add_1_r. split; [done|].
    rewrite (take_S_r _ _ _ Hsx). apply Forall_app. split; [done | by constructor].
Qed.

Lemma to_normal_strokes_sketch_row (max_len : nat) (s : list Point3) :
  length s ≤ max_len → to_normal_strokes (sketch_row max_len s) = mk3 0 0 0 :: s.
Proof.
  intros Hl. rewrite to_normal_strokes_eq. unfold sketch_row.
  cbn [first_end p3 start_stroke_token]. change (Qltb 0 0) with false. cbv iota.
  rewrite first_end_big_points, first_end_padding. cbn [length].
  rewrite length_app, length_fmap, length_replicate. cbv zeta.
  destruct (decide (max_len - length s = 0)) as [E|E].
  - rewrite decide_True by done. rewrite E. cbn [replicate take].
    rewrite app_nil_r, take_ge by (rewrite length_fmap; lia).
    by rewrite fmap_cons, normal_big_point.
  - rewrite decide_False by lia. cbn [Nat.add take].
    rewrite take_app_length' by (by rewrite length_fmap).
    by rewrite fmap_cons, normal_big_point.
Qed.

(** X25: [to_normal_strokes] on a row of [pad_batch] gives the sketch of the
    row back behind one more point: the start token, which comes out as the
    point [[0, 0, 0]]. *)
Theorem to_normal_strokes_of_padded_row (self : DataLoader) (batch : list (list Point3))
    (max_len : nat) (result : list (list Point5)) (i : nat) (s : list Point3)
    (row : list Point5) :
  pad_batch self batch max_len = Ok result →
  batch !! i = Some s →
  result !! i = Some row →
  to_normal_strokes row = mk3 0 0 0 :: s.
Proof.
  intros Hrun Hs Hrow. apply pad_batch_inv in Hrun as (_ & Hfit & ->).
  rewrite list_lookup_fmap, Hs in Hrow. injection Hrow as <-.
  apply to_normal_strokes_sketch_row.
  exact (proj1 (Forall_lookup _ _) Hfit i s Hs).
Qed.

Lemma to_normal_strokes_of_padded_row_witness :
  let self := mkLoader [] 2 3 1 0 1000 0 [] 0 in
  let batch := [[mk3 1 2 0; mk3 3 4 1]; [mk3 5 6 1]] in
  ∃ result row,
    pad_batch self batch 3 = Ok result ∧
    result !! 0 = Some row ∧
    to_normal_strokes row = [mk3 0 0 0; mk3 1 2 0; mk3 3 4 1].
Proof.
  eexists _, _. split; [reflexivity|]. split; [reflexivity|].
  eapply (to_normal_strokes_of_padded_row (mkLoader [] 2 3 1 0 1000 0 [] 0)
            [[mk3 1 2 0; mk3 3 4 1]; [mk3 5 6 1]] 3 _ 0); reflexivity.
Defined.

(** ** What [preprocess] raises *)

(** X26: the only way [preprocess] fails is the division by a [batch_size]
    of zero: the loop that puts the kept sketches in the order of
    [np.argsort] never indexes out of range. *)
Theorem preprocess_raises `{NumpySort} (self : DataLoader) (sketches : list (list Point3))
    (e : exn) :
  preprocess self sketches = Raise e ↔ e = ZeroDivisionError ∧ batch_size self = 0.
Proof.
  rewrite preprocess_eq. destruct (decide (batch_size self = 0)) as [Hbs|Hbs].
  - split; [by intros [= <-] | by intros [-> _]].
  - split; [discriminate | by intros [_ ?]].
Qed.

(** ** The round trip on every sketch that fits *)

(** X27: [to_normal_strokes(to_big_strokes(s, max_len))] on a sketch of at
    most [max_len] points gives the sketch back when it has a point; for the
    empty sketch it gives [max_len] points [[0, 0, 0]], one for each padding
    row. *)
Theorem round_trip_outcome (s : list Point3) (max_len : nat) :
  length s ≤ max_len →
  round_trip s max_len
  = Ok (if decide (s = []) then replicate max_len (mk3 0 0 0) else s).
Proof.
  intros Hl. destruct (decide (s = [])) as [->|Hne].
  - unfold round_trip. rewrite to_big_strokes_Ok by done. cbn [mbind res_bind].
    rewrite to_normal_strokes_eq. cbn [fmap list_fmap app length].
    rewrite Nat.sub_0_r, first_end_padding. cbv zeta.
    assert (Hzero : (if decide (max_len = 0) then 0 else 0) = 0) by (by case_decide).
    rewrite Hzero, decide_True, length_replicate, firstn_all2, fmap_replicate
      by (rewrite ?length_replicate; done).
    done.
  - apply round_trip_lossless; [done | by left].
Qed.

Lemma round_trip_outcome_witness :
  round_trip [] 2
  = Ok (if decide (([] : list Point3) = []) then replicate 2 (mk3 0 0 0) else []).
Proof. apply (round_trip_outcome [] 2). simpl. lia. Defined.

(** ** The cohort and the first mini-batch of a run *)

(** X28: the indices of the cohort that [random_stroke_batch] draws (the
    first [batch_size] entries of a random permutation of the corpus) are
    indices of stored sketches and no two of them are equal: no stored
    sketch comes twice into a cohort, and the cohort has [batch_size]
    sketches unless the corpus has fewer. *)
Theorem cohort_indices_distinct `{NumpyRandom G} (self : DataLoader) (g : G) :
  let idx := take (batch_size self) (np_permutation (length (strokes self)) g).1 in
  NoDup idx ∧
  Forall (λ i, i < length (strokes self)) idx ∧
  length idx = batch_size self `min` length (strokes self).
Proof.
  intros idx. unfold idx.
  pose proof (np_permutation_perm (length (strokes self)) g) as Hperm.
  split_and!.
  - apply (sublist_NoDup _ _ (proj2 (NoDup_Permutation_proper _ _ Hperm) (NoDup_seq _ _))).
    apply sublist_take.
  - apply Forall_take, Forall_forall. intros i Hi. rewrite Hperm in Hi.
    by apply elem_of_seq in Hi as [_ Hi].
  - by rewrite length_take, (Permutation_length Hperm), length_seq.
Qed.

(** X29: in the first mini-batch of a run on the pen-strokes of
    [split_sketch], no row of the cohort is padding only: every sketch has a
    first pen-stroke, so every row starts with the start token and every
    recorded length is at least 1. *)
Theorem first_mini_batch_has_every_sketch (self : DataLoader)
    (sketches : list (list Point3)) (run : list MiniBatch) (batch : MiniBatch) :
  pad_stroke_batch self (split_sketch <$> sketches) = Ok run →
  run !! 0 = Some batch →
  Forall (λ row, head row = Some start_stroke_token) (mb_strokes5 batch) ∧
  Forall (λ len, 0 < len) (mb_seq_len batch).
Proof.
  intros Hrun Hbatch. apply pad_stroke_batch_inv in Hrun as (_ & -> & _).
  rewrite list_lookup_fmap in Hbatch.
  destruct (seq 0 _ !! 0) as [j|] eqn:Hj; [|discriminate].
  apply lookup_seq in Hj as [-> _]. injection Hbatch as <-. simpl.
  assert (Hfirst : Forall (λ sketch : list (list Point3), ∃ stroke, sketch !! 0 = Some stroke)
                          (take (batch_size self) (split_sketch <$> sketches))).
  { apply Forall_take, Forall_fmap, Forall_true. intros data. simpl.
    pose proof (split_sketch_nonempty data).
    destruct (split_sketch data) as [|stroke rest]; [done | by exists stroke]. }
  split; apply Forall_fmap; (eapply Forall_impl; [exact Hfirst|]);
    intros sketch [stroke Hstroke]; simpl.
  - unfold stroke_row. by rewrite Hstroke.
  - unfold stroke_len. rewrite Hstroke. lia.
Qed.

Lemma first_mini_batch_has_every_sketch_witness :
  let self := mkLoader [] 2 3 1 0 1000 0 [] 0 in
  ∃ run batch,
    pad_stroke_batch self
      (split_sketch <$> [[mk3 1 0 0; mk3 2 0 1; mk3 3 0 1]; [mk3 4 0 1]]) = Ok run ∧
    run !! 0 = Some batch ∧
    Forall (λ row, head row = Some start_stroke_token) (mb_strokes5 batch) ∧
    Forall (λ len, 0 < len) (mb_seq_len batch).
Proof.
  eexists _, _. split; [reflexivity|]. split; [reflexivity|].
  eapply (first_mini_batch_has_every_sketch (mkLoader [] 2 3 1 0 1000 0 [] 0)
            [[mk3 1 0 0; mk3 2 0 1; mk3 3 0 1]; [mk3 4 0 1]]); reflexivity.
Defined.
